(** * PET ensemble optimisation: ensemble estimators and line-search controller

    A shallow embedding of
      - [popt/loop/ensemble_gaussian.py]   (class [GaussianEnsemble])
      - [popt/update_schemes/linesearch.py] (class [LineSearch])

    Numbers.  The Python code computes in IEEE double precision.  The
    embedding computes in exact rational arithmetic ([Q]), so equalities
    between numeric results are stated with [==] and stand for "equal up to
    floating-point rounding" on the Python side.  Where a product is
    rounded to an integer (the sample counts of [calc_ensemble_weights]),
    the integer depends on the last bit of the product, and the product is
    computed as the machine does ([NumPy.fmul]).  Integers are [Z], array
    positions and loop counters are [nat].

    Arrays.  A one-dimensional [ndarray] is a [list Q]; a two-dimensional one
    is the list of its rows.  An ensemble matrix of shape [(nx, ne)] therefore
    has [nx] rows of length [ne]; member [j] is column [j].  Rectangularity is
    an invariant of [ndarray] and appears in the theorems as [wf_matrix].

    Failure.  A Python exception ([IndexError], [ValueError] on a shape
    mismatch) is the result [None].  A division by zero, which NumPy answers
    with [inf] or [nan] and a warning, has no counterpart in [Q] (where
    [x / 0] is [0]); the theorems carry the size conditions that exclude it,
    and the accepted step of [calc_update], which would store a [nan] mean,
    has no result when the gradient norm it divides by is zero.

    Chance.  What [np.random] returns in a call is an argument of that call
    ([draws], [picks]). *)

From Stdlib Require Import List ZArith QArith Qround Qabs Qminmax Qpower.
From Stdlib Require Import Lia Lqa Bool Setoid Morphisms.
From Stdlib Require String.
From Equations Require Import Equations.
Import ListNotations.
Import String.StringSyntax.
Local Open Scope string_scope.

Open Scope Q_scope.

(** One- and two-dimensional arrays. *)
Abbreviation vec := (list Q).
Abbreviation matrix := (list (list Q)).

(** ** The fragment of NumPy / Python the two source files use *)

Module NumPy.

(** [int(np.round(x))]: round to the nearest integer, ties to the even one. *)
Definition round (x : Q) : Z :=
  let f := Qfloor x in
  match Qcompare (x - inject_Z f) (1 # 2) with
  | Lt => f
  | Gt => (f + 1)%Z
  | Eq => if Z.even f then f else (f + 1)%Z
  end.

(** [np.sum(v)], accumulated from the left. *)
Definition sum (v : vec) : Q := fold_left Qplus v 0.

(** [np.mean(v)]. *)
Definition mean (v : vec) : Q := sum v / inject_Z (Z.of_nat (length v)).

(** [np.zeros(n)]. *)
Definition zeros (n : nat) : vec := repeat 0 n.

(** [np.repeat(v, k)]: every element [k] times, in order. *)
Definition repeat_each (v : vec) (k : nat) : vec :=
  flat_map (fun x => repeat x k) v.

(** Elementwise operations on arrays of one shape. *)
Fixpoint map2 {A B C} (f : A -> B -> C) (a : list A) (b : list B) : list C :=
  match a, b with
  | x :: a', y :: b' => f x y :: map2 f a' b'
  | _, _ => []
  end.

Definition vadd (a b : vec) : vec := map2 Qplus a b.
Definition vscale (c : Q) (a : vec) : vec := map (Qmult c) a.
Definition vdiv (a : vec) (c : Q) : vec := map (fun x => x / c) a.

Definition madd (a b : matrix) : matrix := map2 vadd a b.
Definition msub (a b : matrix) : matrix := map2 (map2 Qminus) a b.
Definition mscale (c : Q) (a : matrix) : matrix := map (vscale c) a.
Definition mdiv (a : matrix) (c : Q) : matrix := map (fun r => vdiv r c) a.

(** [np.outer(u, v)]. *)
Definition outer (u v : vec) : matrix :=
  map (fun x => map (fun y => x * y) v) u.

(** [np.clip(x, lo, hi)] on a scalar: [minimum(maximum(x, lo), hi)]. *)
Definition clip (x lo hi : Q) : Q := Qmin (Qmax x lo) hi.

(** [np.clip(x, None, hi)]. *)
Definition clip_upper (x hi : Q) : Q := Qmin x hi.

(** [np.min(v)]; [ValueError] on an empty array. *)
Definition min (v : vec) : option Q :=
  match v with
  | [] => None
  | x :: v' => Some (fold_left Qmin v' x)
  end.

(** [np.argmin(v)]: the first position of the minimum. *)
Fixpoint argmin_from (v : vec) (i best : nat) (bv : Q) : nat :=
  match v with
  | [] => best
  | x :: v' =>
      match Qcompare x bv with
      | Lt => argmin_from v' (S i) i x
      | _ => argmin_from v' (S i) best bv
      end
  end.

Definition argmin (v : vec) : option nat :=
  match v with
  | [] => None
  | x :: v' => Some (argmin_from v' 1 0 x)
  end.

(** A Python slice [l[a:b]] with integer bounds: a negative bound counts
    from the end, and both bounds are clamped to the length. *)
Definition slice_bound (len : nat) (i : Z) : nat :=
  if (i <? 0)%Z then Z.to_nat (Z.max 0 (i + Z.of_nat len))
  else Nat.min (Z.to_nat i) len.

Definition slice {A} (l : list A) (a b : Z) : list A :=
  let a' := slice_bound (length l) a in
  let b' := slice_bound (length l) b in
  firstn (b' - a') (skipn a' l).

(** [M[:, a:b]]. *)
Definition cols (M : matrix) (a b : Z) : matrix :=
  map (fun r => slice r a b) M.

(** [M[:, j]] for a matrix with [ne] columns; [IndexError] past the end. *)
Definition col (ne : nat) (M : matrix) (j : nat) : option vec :=
  if (j <? ne)%nat then Some (map (fun r => nth j r 0) M) else None.

(** [M @ w]. *)
Definition dot (a b : vec) : Q := sum (map2 Qmult a b).
Definition matvec (M : matrix) (w : vec) : vec := map (fun r => dot r w) M.

(** A binary elementwise operation on one-dimensional arrays, with NumPy's
    broadcasting rule: equal lengths, or one operand of length one;
    [ValueError] otherwise. *)
Definition bcast2 (f : Q -> Q -> Q) (a b : vec) : option vec :=
  if (length a =? length b)%nat then Some (map2 f a b)
  else if (length b =? 1)%nat then Some (map (fun x => f x (hd 0 b)) a)
  else if (length a =? 1)%nat then Some (map (fun y => f (hd 0 a) y) b)
  else None.

(** Two matrices of one shape. *)
Fixpoint same_shape (a b : matrix) : bool :=
  match a, b with
  | [], [] => true
  | r :: a', s :: b' => (length r =? length s)%nat && same_shape a' b'
  | _, _ => false
  end.

(** [a - b] for two-dimensional arrays of one shape; a shape mismatch is a
    [ValueError] (broadcasting of matrix operands is left out of the model). *)
Definition msub_chk (a b : matrix) : option matrix :=
  if same_shape a b then Some (msub a b) else None.

(** [np.zeros(M.shape)]. *)
Definition zeros_like (M : matrix) : matrix := map (map (fun _ => 0)) M.

(** [l[i] = x] on a Python list or array, [i] in range. *)
Fixpoint set_nth {A} (i : nat) (x : A) (l : list A) : list A :=
  match l, i with
  | [], _ => []
  | _ :: l', O => x :: l'
  | y :: l', S i' => y :: set_nth i' x l'
  end.

(** Collect the results of a fallible function over a list. *)
Fixpoint map_opt {A B} (f : A -> option B) (l : list A) : option (list B) :=
  match l with
  | [] => Some []
  | x :: l' =>
      match f x, map_opt f l' with
      | Some y, Some ys => Some (y :: ys)
      | _, _ => None
      end
  end.

(** [t[a:b] = src] on a one-dimensional array: the source must have the
    length of the slice or length one (broadcast); [ValueError] otherwise. *)
Definition assign_slice (t : vec) (a b : Z) (src : vec) : option vec :=
  let a' := slice_bound (length t) a in
  let b' := slice_bound (length t) b in
  let n := (b' - a')%nat in
  if (length src =? n)%nat
  then Some (firstn a' t ++ src ++ skipn (a' + n) t)
  else if (length src =? 1)%nat
  then Some (firstn a' t ++ repeat (hd 0 src) n ++ skipn (a' + n) t)
  else None.

(** [T[:, a:b] = src], row by row. *)
Definition assign_cols (T : matrix) (a b : Z) (src : matrix) : option matrix :=
  if (length src =? length T)%nat
  then map_opt (fun ts => assign_slice (fst ts) a b (snd ts)) (combine T src)
  else None.

(** [v[idx]] with an index array; [IndexError] past the end. *)
Definition take (v : vec) (idx : list nat) : option vec :=
  map_opt (nth_error v) idx.

(** [M[:, idx]]. *)
Definition take_cols (M : matrix) (idx : list nat) : option matrix :=
  map_opt (fun r => take r idx) M.

(** [M @ w]; the rows must have the length of [w]. *)
Definition matmul_vec (M : matrix) (w : vec) : option vec :=
  if forallb (fun r => (length r =? length w)%nat) M
  then Some (matvec M w) else None.

(** [la.norm(v, np.inf)] of a vector: the largest absolute value;
    [ValueError] on an empty array. *)
Definition norm_inf (v : vec) : option Q :=
  match v with
  | [] => None
  | x :: v' => Some (fold_left Qmax (map Qabs v') (Qabs x))
  end.

(** [la.norm(M, np.inf)] of a matrix: the largest absolute row sum. *)
Definition norm_inf_mat (M : matrix) : option Q :=
  match M with
  | [] => None
  | r :: M' =>
      Some (fold_left Qmax (map (fun r => sum (map Qabs r)) M')
              (sum (map Qabs r)))
  end.

(** [np.ones(n)]; [ValueError] on a negative size. *)
Definition ones (n : Z) : option vec :=
  if (n <? 0)%Z then None else Some (repeat 1 (Z.to_nat n)).

(** [floor(log2 a)] for a positive [a]. *)
Definition ilog2 (a : Q) : Z :=
  let k := (Z.log2 (Qnum a) - Z.log2 (Zpos (Qden a)))%Z in
  if Qle_bool (2 ^ k) a then k else (k - 1)%Z.

(** The IEEE binary64 number nearest to [x], ties to the even significand:
    what a Python [float] holds of [x].  The significand has 53 bits, and
    below [2 ** -1022] the spacing stays [2 ** -1074]; an overflow to
    [inf] is not represented. *)
Definition double (x : Q) : Q :=
  match Qcompare x 0 with
  | Eq => 0
  | c =>
      let a := Qabs x in
      let e := Z.max (ilog2 a - 52) (-1074) in
      let r := inject_Z (round (a / 2 ^ e)) * 2 ^ e in
      match c with
      | Lt => - r
      | _ => r
      end
  end.

(** [n * f] for a Python [int] [n] and a [float] [f]: the integer is
    converted to a double and the product is rounded to a double. *)
Definition fmul (n : Z) (f : Q) : Q :=
  double (double (inject_Z n) * double f).

End NumPy.

(** Rectangular matrices: [nx] rows, each of length [ne]. *)
Definition wf_matrix (nx ne : nat) (M : matrix) : Prop :=
  length M = nx /\ Forall (fun r => length r = ne) M.

(** Sum of [f 0 .. f (n-1)], the mathematical reading of a loop sum. *)
Fixpoint bigsum (n : nat) (f : nat -> Q) : Q :=
  match n with
  | O => 0
  | S n' => bigsum n' f + f n'
  end.

Fixpoint bigsumZ (n : nat) (f : nat -> Z) : Z :=
  match n with
  | O => 0%Z
  | S n' => (bigsumZ n' f + f n')%Z
  end.

(** ** Exceptions as [option] *)

Definition bind {A B} (m : option A) (k : A -> option B) : option B :=
  match m with
  | Some x => k x
  | None => None
  end.

Notation "x <- m ;; k" := (bind m (fun x => k))
  (at level 61, m at next level, right associativity).
Notation "' p <- m ;; k" := (bind m (fun p => k))
  (at level 61, p pattern, m at next level, right associativity).

(** A [for] loop over [xs] whose body may raise. *)
Fixpoint for_each {A S} (xs : list A) (body : A -> S -> option S) (s : S)
  : option S :=
  match xs with
  | [] => Some s
  | x :: xs' => s' <- body x s ;; for_each xs' body s'
  end.

(** [range(n)] and [np.arange(n)]. *)
Definition range (n : nat) : list nat := seq 0 n.

(** * [GaussianEnsemble] *)

Module GaussianEnsemble.

(** [self.keys_en['multilevel']]: the declared level sizes and the
    combination weights. *)
Record multilevel := {
  en_size : list Z;
  cov_wgt : vec
}.

(** [self.state] is a dictionary from variable names to arrays: vectors while
    it holds the mean, matrices (one column per member) once
    [_gen_state_ensemble] has replaced it by an ensemble. *)
Inductive state_t :=
| MeanState (s : list (String.string * vec))
| EnsState (s : list (String.string * matrix)).

(** Attributes fixed by the constructor and the base class. *)
Record settings := {
  keys_en_multilevel : option multilevel;
  num_samples : Z;
  lb : vec;
  ub : vec;
  transform : bool;
  bias_file : option String.string
}.

(** Attributes the methods assign.  [ens_func_values] is kept in the list
    form of lines 171-172 (a lone array is the one-element list);
    [bias_factors] keeps one row per level of the values it was computed
    from. *)
Record obj := {
  state : state_t;
  cov : matrix;
  ne : Z;
  state_func_values : vec;
  ens_func_values : list vec;
  inflation_factor : option Q;
  survival_factor : option Q;
  particles : list matrix;
  particle_values : list vec;
  resample_index : option (list (option (list nat)));
  bias_factors : option (list vec);
  bias_weights : vec;
  bias_points : option state_t
}.

Definition set_state (o : obj) (s : state_t) : obj :=
  {| state := s; cov := cov o; ne := ne o;
     state_func_values := state_func_values o;
     ens_func_values := ens_func_values o;
     inflation_factor := inflation_factor o;
     survival_factor := survival_factor o;
     particles := particles o; particle_values := particle_values o;
     resample_index := resample_index o;
     bias_factors := bias_factors o; bias_weights := bias_weights o;
     bias_points := bias_points o |}.

Definition set_cov (o : obj) (c : matrix) : obj :=
  {| state := state o; cov := c; ne := ne o;
     state_func_values := state_func_values o;
     ens_func_values := ens_func_values o;
     inflation_factor := inflation_factor o;
     survival_factor := survival_factor o;
     particles := particles o; particle_values := particle_values o;
     resample_index := resample_index o;
     bias_factors := bias_factors o; bias_weights := bias_weights o;
     bias_points := bias_points o |}.

Definition set_ne (o : obj) (n : Z) : obj :=
  {| state := state o; cov := cov o; ne := n;
     state_func_values := state_func_values o;
     ens_func_values := ens_func_values o;
     inflation_factor := inflation_factor o;
     survival_factor := survival_factor o;
     particles := particles o; particle_values := particle_values o;
     resample_index := resample_index o;
     bias_factors := bias_factors o; bias_weights := bias_weights o;
     bias_points := bias_points o |}.

Definition set_state_func_values (o : obj) (v : vec) : obj :=
  {| state := state o; cov := cov o; ne := ne o;
     state_func_values := v;
     ens_func_values := ens_func_values o;
     inflation_factor := inflation_factor o;
     survival_factor := survival_factor o;
     particles := particles o; particle_values := particle_values o;
     resample_index := resample_index o;
     bias_factors := bias_factors o; bias_weights := bias_weights o;
     bias_points := bias_points o |}.

Definition set_ens_func_values (o : obj) (v : list vec) : obj :=
  {| state := state o; cov := cov o; ne := ne o;
     state_func_values := state_func_values o;
     ens_func_values := v;
     inflation_factor := inflation_factor o;
     survival_factor := survival_factor o;
     particles := particles o; particle_values := particle_values o;
     resample_index := resample_index o;
     bias_factors := bias_factors o; bias_weights := bias_weights o;
     bias_points := bias_points o |}.

Definition set_smc_args (o : obj) (infl : Q) (c : matrix) (sf : Q) : obj :=
  {| state := state o; cov := c; ne := ne o;
     state_func_values := state_func_values o;
     ens_func_values := ens_func_values o;
     inflation_factor := Some infl;
     survival_factor := Some sf;
     particles := particles o; particle_values := particle_values o;
     resample_index := resample_index o;
     bias_factors := bias_factors o; bias_weights := bias_weights o;
     bias_points := bias_points o |}.

Definition set_population (o : obj) (p : list matrix) (pv : list vec)
    (ri : option (list (option (list nat)))) : obj :=
  {| state := state o; cov := cov o; ne := ne o;
     state_func_values := state_func_values o;
     ens_func_values := ens_func_values o;
     inflation_factor := inflation_factor o;
     survival_factor := survival_factor o;
     particles := p; particle_values := pv;
     resample_index := ri;
     bias_factors := bias_factors o; bias_weights := bias_weights o;
     bias_points := bias_points o |}.

Definition set_bias (o : obj) (bf : option (list vec)) (bp : option state_t)
  : obj :=
  {| state := state o; cov := cov o; ne := ne o;
     state_func_values := state_func_values o;
     ens_func_values := ens_func_values o;
     inflation_factor := inflation_factor o;
     survival_factor := survival_factor o;
     particles := particles o; particle_values := particle_values o;
     resample_index := resample_index o;
     bias_factors := bf; bias_weights := bias_weights o;
     bias_points := bp |}.


(** Modelled from the spec: [pipt.misc_tools.analysis_tools.aug_state] is not
    part of the sources at hand.  The spec's data model says that the
    concatenation order of the names defines the flattened control vector,
    so the blocks of the dictionary are stacked in key order. *)
Definition aug_state {A} (s : list (String.string * list A)) : list A :=
  concat (map snd s).

(** Modelled from the spec: [popt.misc_tools.optim_tools.update_optim_state]
    is not part of the sources at hand.  It writes the flattened control
    vector [x] back into the dictionary, each name taking as many entries as
    its current array has rows. *)
Fixpoint split_state {A} (x : vec) (s : list (String.string * list A))
  : list (String.string * vec) :=
  match s with
  | [] => []
  | (name, a) :: s' =>
      (name, firstn (length a) x) :: split_state (skipn (length a) x) s'
  end.

Definition update_optim_state (x : vec) (s : state_t) : state_t :=
  match s with
  | MeanState d => MeanState (split_state x d)
  | EnsState d => MeanState (split_state x d)
  end.

(** The flattened ensemble matrix; a state that still holds the mean has no
    axis 1, and [state_ens.mean(1)] raises. *)
Definition aug_state_ens (s : state_t) : option matrix :=
  match s with
  | EnsState d => Some (aug_state d)
  | MeanState _ => None
  end.

(** *** [_gen_state_ensemble] (lines 376-395) *)

(** Line 387: [mean + temp_state_en - mean(temp_state_en, 1)], row by row. *)
Definition shifted_ensemble (mean : vec) (temp_state_en : matrix) : matrix :=
  NumPy.map2 (fun m r => map (fun t => m + t - NumPy.mean r) r)
    mean temp_state_en.

Definition truthy {A} (l : list A) : bool :=
  match l with [] => false | _ => true end.

(** Lines 388-392. *)
Definition clip_ensemble (cfg : settings) (i : nat) (M : matrix)
  : option matrix :=
  if truthy (lb cfg) && truthy (ub cfg) then
    if transform cfg then Some (map (map (fun x => NumPy.clip x 0 1)) M)
    else
      lo <- nth_error (lb cfg) i ;;
      hi <- nth_error (ub cfg) i ;;
      Some (map (map (fun x => NumPy.clip x lo hi)) M)
  else Some M.

(** The loop over the state variables.  [draws i] is the array that
    [np.random.multivariate_normal(mean, cov, self.ne).transpose()] returns
    for variable [i] in this call; the covariance block only feeds that
    draw. *)
Fixpoint gen_blocks (cfg : settings) (draws : nat -> matrix) (i : nat)
    (s : list (String.string * vec)) : option (list (String.string * matrix)) :=
  match s with
  | [] => Some []
  | (statename, mean) :: s' =>
      blk <- clip_ensemble cfg i (shifted_ensemble mean (draws i)) ;;
      rest <- gen_blocks cfg draws (S i) s' ;;
      Some ((statename, blk) :: rest)
  end.

Definition _gen_state_ensemble (cfg : settings) (o : obj)
    (draws : nat -> matrix) : option (list (String.string * matrix)) :=
  match state o with
  | MeanState s => gen_blocks cfg draws 0 s
  | EnsState _ => None
  end.

(** *** [_bias_correction] (lines 397-404) *)

Definition _bias_correction (o : obj) : option Q :=
  match bias_factors o with
  | Some bf =>
      rows <- NumPy.map_opt (NumPy.bcast2 Qmult (bias_weights o)) bf ;;
      Some (NumPy.sum (map NumPy.sum rows))
  | None => Some 1
  end.

(** *** The multilevel combination (lines 194-200, 256-262, 366-372)

    The three methods end with the same statement on their own array type:
    vectors for the gradient and the sensitivity, matrices for the hessian. *)
Section Combine.
Context {A : Type}.
Variable add : A -> A -> A.
Variable scale_r : A -> Q -> A.
Variable div : A -> Q -> A.

Definition multilevel_combine (cfg : settings) (divisor : Z) (zero : A)
    (levels : list A) (L : nat) : option A :=
  match keys_en_multilevel cfg with
  | Some ml =>
      total <- for_each (range L)
                 (fun l acc =>
                    x <- nth_error levels l ;;
                    w <- nth_error (cov_wgt ml) l ;;
                    Some (add acc (scale_r x w)))
                 zero ;;
      Some (div total (inject_Z divisor))
  | None => nth_error levels 0
  end.
End Combine.

Definition vscale_r (a : vec) (c : Q) : vec := map (fun x => x * c) a.
Definition mscale_r (a : matrix) (c : Q) : matrix := map (fun r => vscale_r r c) a.

(** Lines 169 and 235: every row minus its mean.  The subtracted array has
    [self.ne] columns, so the ensemble must have as many. *)
Definition pert_state (ne : Z) (state_ens : matrix) : option matrix :=
  if forallb (fun r => (length r =? Z.to_nat ne)%nat) state_ens
  then Some (map (fun r => map (fun v => v - NumPy.mean r) r) state_ens)
  else None.

Section Methods.

(** The collaborators of the base class:
    [function] stands for [self.function(state_ens)], which stores the
    objective values of the ensemble, one array per level;
    [_aux_input] returns the number of repetitions [nr];
    [bias_func] is the objective evaluated through the bias file. *)
Variable function : matrix -> list vec.
Variable _aux_input : settings -> obj -> nat.
Variable bias_func : obj -> vec.

(** *** [_bias_factors] (lines 406-424) *)
Definition _bias_factors (cfg : settings) (o : obj)
    (obj_func_values : list vec) (initial_state : option state_t)
  : option obj :=
  match bias_factors o with
  | None =>
      let o := set_ne o (num_samples cfg) in
      let bias_func_values := bias_func o in
      if forallb (fun r => (length r =? length (hd [] obj_func_values))%nat)
           obj_func_values
      then
        bf <- NumPy.map_opt (NumPy.bcast2 Qdiv bias_func_values)
                obj_func_values ;;
        let o := set_bias o (Some bf) (Some (state o)) in
        c <- _bias_correction o ;;
        Some (set_state_func_values o
                (map (fun v => v * c) (state_func_values o)))
      else None
  | Some _ => Some o
  end.

(** *** [gradient], lines 167-202: the estimator *)

Record grad_loop := {
  g_start_index : nat;
  g_level_gradient : list vec;
  g_ens_func_values : list vec
}.

(** Lines 179-183: the centred objective values of level [l], and the
    values left in [self.ens_func_values[l]]. *)
Definition pert_obj_func (cfg : settings) (o : obj) (nr : nat) (J : vec)
  : option (vec * vec) :=
  match bias_file cfg with
  | Some _ =>
      c <- _bias_correction o ;;
      let J' := map (fun v => v * c) J in
      Some (J', map (fun v => v - NumPy.mean J') J')
  | None =>
      d <- NumPy.bcast2 Qminus J
             (NumPy.repeat_each (state_func_values o) nr) ;;
      Some (J, d)
  end.

(** Lines 187-189. *)
Definition gradient_sum (ne : Z) (P : matrix) (dJ : vec)
    (start_index ml_ne : nat) (g_m : vec) : option vec :=
  for_each (range ml_ne)
    (fun i g_m =>
       d <- nth_error dJ i ;;
       c <- NumPy.col (Z.to_nat ne) P (start_index + i)%nat ;;
       Some (NumPy.vadd g_m (NumPy.vscale d c)))
    g_m.

(** Lines 177-192: the body of the loop over the levels. *)
Definition gradient_level (cfg : settings) (o : obj) (nr : nat)
    (P : matrix) (l : nat) (s : grad_loop) : option grad_loop :=
  J <- nth_error (g_ens_func_values s) l ;;
  '(J', dJ) <- pert_obj_func cfg o nr J ;;
  let ml_ne := length J' in
  g_m <- gradient_sum (ne o) P dJ (g_start_index s) ml_ne
           (NumPy.zeros (length P)) ;;
  Some {| g_start_index := (g_start_index s + ml_ne)%nat;
          g_level_gradient :=
            g_level_gradient s
            ++ [NumPy.vdiv g_m (inject_Z (Z.of_nat ml_ne - 1))];
          g_ens_func_values := NumPy.set_nth l J' (g_ens_func_values s) |}.

Definition gradient_levels (cfg : settings) (o : obj) (nr : nat)
  : option grad_loop :=
  state_ens <- aug_state_ens (state o) ;;
  P <- pert_state (ne o) state_ens ;;
  for_each (range (length (ens_func_values o)))
    (gradient_level cfg o nr P)
    {| g_start_index := 0; g_level_gradient := [];
       g_ens_func_values := ens_func_values o |}.

Definition gradient_estimate (cfg : settings) (o : obj) (nr : nat)
  : option (vec * obj) :=
  state_ens <- aug_state_ens (state o) ;;
  s <- gradient_levels cfg o nr ;;
  g <- multilevel_combine NumPy.vadd vscale_r NumPy.vdiv cfg (ne o)
         (NumPy.zeros (length state_ens)) (g_level_gradient s)
         (length (ens_func_values o)) ;;
  Some (g, set_ens_func_values o (g_ens_func_values s)).

(** *** [gradient] (lines 144-202) *)
Definition gradient (cfg : settings) (o : obj) (x : vec) (args0 : matrix)
    (draws : nat -> matrix) : option (vec * obj) :=
  let o := set_state o (update_optim_state x (state o)) in
  let o := set_cov o args0 in
  let initial_state :=
    match bias_file cfg, bias_factors o with
    | Some _, None => Some (state o)
    | _, _ => None
    end in
  let o := set_ne o (num_samples cfg) in
  let nr := _aux_input cfg o in
  ens <- _gen_state_ensemble cfg o draws ;;
  let o := set_state o (EnsState ens) in
  let o := set_ens_func_values o (function (aug_state ens)) in
  o <- match bias_file cfg with
       | Some _ => _bias_factors cfg o (ens_func_values o) initial_state
       | None => Some o
       end ;;
  gradient_estimate cfg o nr.

(** *** [hessian] (lines 233-264) *)

(** Lines 249-251. *)
Definition hessian_sum (ne : Z) (P : matrix) (C : matrix) (dJ : vec)
    (start_index ml_ne : nat) (g_c : matrix) : option matrix :=
  for_each (range ml_ne)
    (fun i g_c =>
       d <- nth_error dJ i ;;
       c <- NumPy.col (Z.to_nat ne) P (start_index + i)%nat ;;
       m <- NumPy.msub_chk (NumPy.outer c c) C ;;
       Some (NumPy.madd g_c (NumPy.mscale d m)))
    g_c.

(** Lines 244-254: the body of the loop over the levels. *)
Definition hessian_level (o : obj) (nr : nat) (P : matrix) (l : nat)
    (s : nat * list matrix) : option (nat * list matrix) :=
  let '(start_index, level_hessian) := s in
  J <- nth_error (ens_func_values o) l ;;
  dJ <- NumPy.bcast2 Qminus J
          (NumPy.repeat_each (state_func_values o) nr) ;;
  let ml_ne := length J in
  g_c <- hessian_sum (ne o) P (cov o) dJ start_index ml_ne
           (NumPy.zeros_like (cov o)) ;;
  Some ((start_index + ml_ne)%nat,
        level_hessian
        ++ [NumPy.mdiv g_c (inject_Z (Z.of_nat ml_ne - 1))]).

Definition hessian_levels (cfg : settings) (o : obj) : option (list matrix) :=
  state_ens <- aug_state_ens (state o) ;;
  P <- pert_state (ne o) state_ens ;;
  let nr := _aux_input cfg o in
  s <- for_each (range (length (ens_func_values o)))
         (hessian_level o nr P) (0%nat, []) ;;
  Some (snd s).

(** The method reads [self.state], [self.ens_func_values],
    [self.state_func_values], [self.cov] and [self.ne]; it assigns no
    attribute and calls neither [_gen_state_ensemble] nor [function]. *)
Definition hessian (cfg : settings) (o : obj) : option (matrix * obj) :=
  lv <- hessian_levels cfg o ;;
  H <- multilevel_combine NumPy.madd mscale_r NumPy.mdiv cfg (ne o)
         (NumPy.zeros_like (cov o)) lv (length (ens_func_values o)) ;;
  Some (H, o).

(** *** [calc_ensemble_weights] (lines 284-374) *)

(** [exp] stands for [np.exp], whose values are not rational.  The
    theorems assume of it only that it is non-negative and monotone, which
    holds of the real exponential and of its floating-point rendering. *)
Variable exp : Q -> Q.

(** Lines 331-337: the member counts of level [l]. *)
Definition ml_counts (cfg : settings) (sf : Q) (L l : nat) (ml_ne : Z)
    (ml_ne_new_total : Z) : Z * Z * Z :=
  if (1 <? L)%nat && (l =? L - 1)%nat then
    let ml_ne_new :=
      (NumPy.round (NumPy.fmul (num_samples cfg) sf) - ml_ne_new_total)%Z in
    (ml_ne_new, (ml_ne - ml_ne_new)%Z, ml_ne_new_total)
  else
    let ml_ne_new := NumPy.round (NumPy.fmul ml_ne sf) in
    (ml_ne_new, (ml_ne - ml_ne_new)%Z, (ml_ne_new_total + ml_ne_new)%Z).

(** Lines 349-355. *)
Definition smc_weights (infl : Q) (values : vec) (ml_ne : Z) : option vec :=
  if (ml_ne <? 0)%Z then None
  else
    weights <- NumPy.map_opt
                 (fun i =>
                    v <- nth_error values i ;;
                    m <- NumPy.min values ;;
                    Some (exp (NumPy.clip_upper (- (v - m) * infl) 10)))
                 (range (Z.to_nat ml_ne)) ;;
    let weights := map (fun w => w + (1 # 1000000)) weights in
    Some (map (fun w => w / NumPy.sum weights) weights).

Record smc_loop := {
  s_start_index : Z;
  s_ml_ne_new_total : Z;
  s_level_sens : list vec;
  s_best : option (vec * Q);
  s_particles : list matrix;
  s_particle_values : list vec;
  s_resample_index : list (option (list nat))
}.

(** Lines 339-346: seeding on the first call, gather and refill later. *)
Definition update_population (state_ens : matrix) (J : vec)
    (start_index ml_ne ml_ne_new ml_ne_surv : Z) (l : nat)
    (ri : option (list nat)) (P : list matrix) (V : list vec)
  : option (list matrix * list vec) :=
  match ri with
  | None =>
      Some (P ++ [NumPy.cols state_ens start_index (start_index + ml_ne)%Z],
            V ++ [J])
  | Some idx =>
      Pl <- nth_error P l ;;
      Vl <- nth_error V l ;;
      Ps <- NumPy.take_cols Pl idx ;;
      Pl <- NumPy.assign_cols Pl 0 ml_ne_surv Ps ;;
      Pl <- NumPy.assign_cols Pl ml_ne_surv
              (Z.of_nat (length (hd [] Pl)))
              (NumPy.cols state_ens start_index
                 (start_index + ml_ne_new)%Z) ;;
      Vs <- NumPy.take Vl idx ;;
      Vl <- NumPy.assign_slice Vl 0 ml_ne_surv Vs ;;
      Vl <- NumPy.assign_slice Vl ml_ne_surv (Z.of_nat (length Vl)) J ;;
      Some (NumPy.set_nth l Pl P, NumPy.set_nth l Vl V)
  end.

(** Lines 329-364: the body of the loop over the levels.  [picks l] is the
    outcome of [np.random.choice] at level [l] in this call. *)
Definition smc_level (cfg : settings) (o : obj) (infl sf : Q)
    (state_ens : matrix) (L : nat) (en_size : list Z)
    (picks : nat -> option (list nat)) (l : nat) (s : smc_loop)
  : option smc_loop :=
  ml_ne <- nth_error en_size l ;;
  let '(ml_ne_new, ml_ne_surv, total) :=
    ml_counts cfg sf L l ml_ne (s_ml_ne_new_total s) in
  ri <- nth_error (s_resample_index s) l ;;
  J <- nth_error (ens_func_values o) l ;;
  '(P, V) <- update_population state_ens J (s_start_index s) ml_ne
               ml_ne_new ml_ne_surv l ri (s_particles s)
               (s_particle_values s) ;;
  Pl <- nth_error P l ;;
  Vl <- nth_error V l ;;
  weights <- smc_weights infl Vl ml_ne ;;
  sens <- NumPy.matmul_vec Pl weights ;;
  best <- (if (l =? L - 1)%nat then
             index <- NumPy.argmin Vl ;;
             best_ens <- NumPy.col (length weights) Pl index ;;
             best_func <- nth_error Vl index ;;
             Some (Some (best_ens, best_func))
           else Some (s_best s)) ;;
  idx <- picks l ;;
  Some {| s_start_index := (s_start_index s + ml_ne_new)%Z;
          s_ml_ne_new_total := total;
          s_level_sens := s_level_sens s ++ [sens];
          s_best := best;
          s_particles := P;
          s_particle_values := V;
          s_resample_index :=
            NumPy.set_nth l (Some idx) (s_resample_index s) |}.

(** Lines 325-328. *)
Definition declared_en_size (cfg : settings) : list Z :=
  match keys_en_multilevel cfg with
  | Some ml => en_size ml
  | None => [num_samples cfg]
  end.

Definition smc_levels (cfg : settings) (o : obj) (infl sf : Q)
    (state_ens : matrix) (picks : nat -> option (list nat))
    (ri : list (option (list nat))) : option smc_loop :=
  let L := length (ens_func_values o) in
  for_each (range L)
    (smc_level cfg o infl sf state_ens L (declared_en_size cfg) picks)
    {| s_start_index := 0; s_ml_ne_new_total := 0; s_level_sens := [];
       s_best := None;
       s_particles := particles o;
       s_particle_values := particle_values o;
       s_resample_index := ri |}.

(** The method.  The result is [(sens_matrix, best)], where [best] is
    [None] as long as [best_ens] and [best_func] keep their initial [0].
    The call of [_aux_input] on line 302 is made for the base class's sake;
    its result is dropped. *)
Definition calc_ensemble_weights (cfg : settings) (o : obj) (x : vec)
    (args0 : Q) (args1 : matrix) (args2 : Q)
    (draws : nat -> matrix) (picks : nat -> option (list nat))
  : option (vec * option (vec * Q) * obj) :=
  let o := set_state o (update_optim_state x (state o)) in
  let o := set_smc_args o args0 args1 args2 in
  let initial_state :=
    match bias_file cfg, bias_factors o with
    | Some _, None => Some (state o)
    | _, _ => None
    end in
  let o := set_ne o
             match resample_index o with
             | None => num_samples cfg
             | Some _ => NumPy.round (NumPy.fmul (num_samples cfg) args2)
             end in
  ens <- _gen_state_ensemble cfg o draws ;;
  let o := set_state o (EnsState ens) in
  let state_ens := aug_state ens in
  let o := set_ens_func_values o (function state_ens) in
  let L := length (ens_func_values o) in
  let ri := match resample_index o with
            | None => repeat None L
            | Some r => r
            end in
  o <- match bias_file cfg with
       | Some _ => _bias_factors cfg o (ens_func_values o) initial_state
       | None => Some o
       end ;;
  s <- smc_levels cfg o args0 args2 state_ens picks ri ;;
  sens_matrix <- multilevel_combine NumPy.vadd vscale_r NumPy.vdiv cfg
                   (num_samples cfg) (NumPy.zeros (length state_ens))
                   (s_level_sens s) L ;;
  Some (sens_matrix, s_best s,
        set_population o (s_particles s) (s_particle_values s)
          (Some (s_resample_index s))).

End Methods.

(** *** The estimators as the specification writes them

    These definitions follow the words of the specification, not the code;
    the theorems compare them with the methods above. *)

(** [deltaX[k, j]]: the flattened ensemble with the mean over the members
    subtracted from every column. *)
Definition deltaX (E : matrix) (k j : nat) : Q :=
  nth j (nth k E []) 0 - NumPy.mean (nth k E []).

(** The first column of level [l]: the sizes of the levels before it. *)
Definition level_start (Js : list vec) (l : nat) : nat :=
  length (concat (firstn l Js)).

(** [deltaJ] with bias correction: the values times the correction factor,
    minus their mean. *)
Definition deltaJ_bias (c : Q) (J : vec) (i : nat) : Q :=
  nth i J 0 * c - NumPy.mean (map (fun v => v * c) J).

(** [deltaJ] without bias correction: the values minus the baseline
    repeated over the members (a baseline of length one serves them all). *)
Definition deltaJ_base (base : vec) (J : vec) (i : nat) : Q :=
  nth i J 0 - nth (if (length base =? 1)%nat then 0%nat else i) base 0.

(** The centred objective values of level [l] of an object: with the
    correction factor [c] when a bias file is configured, with the baseline
    repeated [nr] times otherwise. *)
Definition deltaJ (cfg : settings) (o : obj) (nr : nat) (c : Q) (l i : nat)
  : Q :=
  match bias_file cfg with
  | Some _ => deltaJ_bias c (nth l (ens_func_values o) []) i
  | None =>
      deltaJ_base (NumPy.repeat_each (state_func_values o) nr)
        (nth l (ens_func_values o) []) i
  end.

(** Component [k] of [(sum_i deltaJ[i] * deltaX[:, start + i]) / (n - 1)]. *)
Definition level_gradient_formula (E : matrix) (dJ : nat -> Q)
    (start n k : nat) : Q :=
  bigsum n (fun i => dJ i * deltaX E k (start + i))
  / inject_Z (Z.of_nat n - 1).

(** Entry [(a, b)] of
    [(sum_i deltaJ[i] * (outer(deltaX[:, i], deltaX[:, i]) - C)) / (n - 1)]. *)
Definition level_hessian_formula (E C : matrix) (dJ : nat -> Q)
    (start n a b : nat) : Q :=
  bigsum n (fun i => dJ i * (deltaX E a (start + i) * deltaX E b (start + i)
                             - nth b (nth a C []) 0))
  / inject_Z (Z.of_nat n - 1).

(** Entry [(a, b)] of a two-dimensional array. *)
Definition entry (M : matrix) (a b : nat) : Q := nth b (nth a M []) 0.

(** The clipping of lines 388-392 changes no entry of block [i]: there are
    no bounds, or every entry lies within them. *)
Definition unclipped (cfg : settings) (i : nat) (M : matrix) : Prop :=
  truthy (lb cfg) && truthy (ub cfg) = true ->
  exists lo hi,
    (if transform cfg then lo = 0 /\ hi = 1
     else nth_error (lb cfg) i = Some lo /\ nth_error (ub cfg) i = Some hi) /\
    Forall (Forall (fun x => lo <= x /\ x <= hi)) M.

(** The sensitivity of level [l] of a particle population: the particle
    matrix of the level times the normalised weights of its values. *)
Definition level_sens_of (exp : Q -> Q) (infl : Q) (N : list Z)
    (P : list matrix) (V : list vec) (l : nat) (sens : vec) : Prop :=
  exists ml_ne w,
    nth_error N l = Some ml_ne /\
    smc_weights exp infl (nth l V []) ml_ne = Some w /\
    NumPy.matmul_vec (nth l P []) w = Some sens.

(** The population as the constructor and [calc_ensemble_weights] leave it:
    empty before the first call, with a resample index for every level
    afterwards. *)
Definition population_consistent (o : obj) : Prop :=
  match resample_index o with
  | None => particles o = [] /\ particle_values o = []
  | Some r => Forall (fun x => x <> None) r
  end.

(** The column at which the first call seeds level [l]: the new-sample
    counts of the levels before it. *)
Definition seed_offset (sf : Q) (N : list Z) (l : nat) : Z :=
  bigsumZ l (fun k => NumPy.round (NumPy.fmul (nth k N 0%Z) sf)).

(** The first column of level [l] in the fresh ensemble, in the pairing of
    members and objective values that [gradient] and [hessian] use (their
    [start_index] advances by the level size). *)
Definition own_offset (N : list Z) (l : nat) : Z :=
  bigsumZ l (fun k => nth k N 0%Z).

(** The ensemble size a call of [calc_ensemble_weights] samples with
    (lines 298-301). *)
Definition sampled_ne (cfg : settings) (o : obj) (sf : Q) : Z :=
  match resample_index o with
  | None => num_samples cfg
  | Some _ => NumPy.round (NumPy.fmul (num_samples cfg) sf)
  end.

(** The resample indices a call starts from (lines 311-312). *)
Definition start_index_list (o : obj) (L : nat) : list (option (list nat)) :=
  match resample_index o with
  | None => repeat None L
  | Some r => r
  end.

(** The loop of lines 329-364 on entry to the pass for level [l]: the
    passes for the levels below [l] have run.  What [smc_levels] returns is
    the entry to the pass number [L], at which the loop ends. *)
Definition smc_entry (exp : Q -> Q) (cfg : settings) (o : obj) (infl sf : Q)
    (state_ens : matrix) (picks : nat -> option (list nat))
    (ri : list (option (list nat))) (l : nat) : option smc_loop :=
  for_each (range l)
    (smc_level exp cfg o infl sf state_ens (length (ens_func_values o))
       (declared_en_size cfg) picks)
    {| s_start_index := 0; s_ml_ne_new_total := 0; s_level_sens := [];
       s_best := None;
       s_particles := particles o;
       s_particle_values := particle_values o;
       s_resample_index := ri |}.

(** Two one-dimensional shapes NumPy can combine so that every position of
    the first operand has a result. *)
Definition bcast_ok (a b : nat) : Prop :=
  a = b \/ b = 1%nat \/ (a = 1%nat /\ (0 < b)%nat).

(** *** [__init__] (lines 64-86) *)

(** [key in d] and [d[key]] on a dictionary with string keys. *)
Fixpoint lookup {A} (key : String.string) (d : list (String.string * A))
  : option A :=
  match d with
  | [] => None
  | (k, v) :: d' => if String.eqb k key then Some v else lookup key d'
  end.

(** [str.upper] on a string of ASCII characters. *)
Definition upper_char (c : Ascii.ascii) : Ascii.ascii :=
  let n := Ascii.nat_of_ascii c in
  if (97 <=? n)%nat && (n <=? 122)%nat
  then Ascii.ascii_of_nat (n - 32) else c.

Fixpoint upper (s : String.string) : String.string :=
  match s with
  | String.EmptyString => String.EmptyString
  | String.String c s' => String.String (upper_char c) (upper s')
  end.

(** The attributes lines 68-86 assign, with the values they are given:
    [None] where the code writes [None]. *)
Record init_attrs := {
  i_state_func_values : option vec;
  i_ens_func_values : option (list vec);
  i_inflation_factor : option Q;
  i_survival_factor : option Q;
  i_particles : list matrix;
  i_particle_values : list vec;
  i_resample_index : option (list (option (list nat)));
  i_bias_file : option String.string;
  i_bias_adaptive : option Q;
  i_bias_factors : option (list vec);
  i_bias_weights : vec;
  i_bias_points : option state_t
}.

(** The constructor after [super().__init__], which has set
    [self.num_samples] and [self.sim]; [input_dict] is
    [self.sim.input_dict], as far as its string entries go. *)
Definition __init__ (num_samples : Z)
    (input_dict : list (String.string * String.string)) : option init_attrs :=
  ones <- NumPy.ones num_samples ;;
  Some {| i_state_func_values := None;
          i_ens_func_values := None;
          i_inflation_factor := None;
          i_survival_factor := None;
          i_particles := [];
          i_particle_values := [];
          i_resample_index := None;
          i_bias_file :=
            match lookup "bias_file" input_dict with
            | Some f => Some (upper f)
            | None => None
            end;
          i_bias_adaptive := None;
          i_bias_factors := None;
          i_bias_weights := NumPy.vdiv ones (inject_Z num_samples);
          i_bias_points := None |}.

End GaussianEnsemble.

(** * [LineSearch] *)

Module LineSearch.

(** The options read by the constructor (lines 36-46).  The retry and
    trial limits are counts. *)
Record options := {
  alpha_iter_max : nat;
  alpha_cov : Q;
  normalize : bool;
  iter_resamp_max : nat;
  shrink_factor : Q;
  alpha_max : Q;
  c1 : Q;
  c2 : Q
}.

(** What [self.logger.info] receives.  The formatted line of lines 137-139
    is kept as its four arguments. *)
Inductive log_entry :=
| Info (msg : String.string)
| IterInfo (iteration : Z) (obj_func : Q) (alpha : Q) (cov00 : Q).

(** What [scipy.optimize.line_search] returns, as far as line 113 keeps it:
    [step_size] is [None] when no step satisfies the strong Wolfe
    conditions. *)
Record ls_result := {
  step_size : option Q;
  fnew : Q;
  slope : option vec
}.

(** The four messages of [calc_update]. *)
Definition msg_search : String.string := "Performing line search...".
Definition msg_satisfied : String.string :=
  "Strong Wolfie conditions satisfied".
Definition msg_not_satisfied : String.string :=
  "Strong Wolfie conditions not satisfied".
Definition msg_resampling : String.string := "Resampling Gradient".

Section Controller.

(** [W] is the state of the collaborators behind the closures [fun], [jac]
    and [hess] (the ensemble object and its random generator). *)
Variable W : Type.

(** The attributes [calc_update] reads and assigns.  The logger is taken
    to be present: line 101 uses it unguarded. *)
Record ls_state := {
  mean_state : vec;
  cov : matrix;
  obj_func_values : vec;
  alpha : Q;
  pk_from_ls : option vec;
  nfev : Z;
  njev : Z;
  iteration : Z;
  log : list log_entry;
  ext : W
}.

(** What the closures [_fun] and [_jac] can change while the line search
    runs: the two counters and the collaborators. *)
Definition closure_state : Type := Z * Z * W.

Variable fun_ : vec -> matrix -> W -> vec * W.
Variable jac : vec -> matrix -> W -> vec * W.
Variable hess : W -> matrix * W.
Variable clip_state : vec -> vec.

(** [scipy.optimize.line_search(f, myfprime, xk, pk, gfk, old_fval, c1,
    c2, amax, maxiter)], run from a closure state. *)
Variable line_search :
  (vec -> closure_state -> Q * closure_state) ->
  (vec -> closure_state -> vec * closure_state) ->
  vec -> vec -> vec -> Q -> Q -> Q -> Q -> nat ->
  closure_state -> ls_result * closure_state.

(** Modelled from the spec: [popt.misc_tools.optim_tools.get_sym_pos_semidef]
    is not part of the sources at hand.  The spec calls it
    [clip_to_sym_psd]: covariance updates are projected back onto the
    symmetric positive-semi-definite cone. *)
Variable get_sym_pos_semidef : matrix -> matrix.

(** Lines 73-77, with the covariance of the moment of the call. *)
Definition _jac (C : matrix) (x : vec) (k : closure_state)
  : vec * closure_state :=
  let '(nf, nj, w) := k in
  let x := clip_state x in
  let '(g, w) := jac x C w in
  (g, (nf, (nj + 1)%Z, w)).

(** Lines 79-83. *)
Definition _fun (C : matrix) (x : vec) (k : closure_state)
  : Q * closure_state :=
  let '(nf, nj, w) := k in
  let x := clip_state x in
  let '(f, w) := fun_ x C w in
  (NumPy.mean f, ((nf + 1)%Z, nj, w)).

Definition closure_of (st : ls_state) : closure_state :=
  (nfev st, njev st, ext st).

Definition with_closure (st : ls_state) (k : closure_state) : ls_state :=
  let '(nf, nj, w) := k in
  {| mean_state := mean_state st; cov := cov st;
     obj_func_values := obj_func_values st; alpha := alpha st;
     pk_from_ls := pk_from_ls st; nfev := nf; njev := nj;
     iteration := iteration st; log := log st; ext := w |}.

Definition info (st : ls_state) (e : log_entry) : ls_state :=
  {| mean_state := mean_state st; cov := cov st;
     obj_func_values := obj_func_values st; alpha := alpha st;
     pk_from_ls := pk_from_ls st; nfev := nfev st; njev := njev st;
     iteration := iteration st; log := log st ++ [e]; ext := ext st |}.

Definition set_cov (st : ls_state) (C : matrix) : ls_state :=
  {| mean_state := mean_state st; cov := C;
     obj_func_values := obj_func_values st; alpha := alpha st;
     pk_from_ls := pk_from_ls st; nfev := nfev st; njev := njev st;
     iteration := iteration st; log := log st; ext := ext st |}.

Definition set_pk_from_ls (st : ls_state) (p : option vec) : ls_state :=
  {| mean_state := mean_state st; cov := cov st;
     obj_func_values := obj_func_values st; alpha := alpha st;
     pk_from_ls := p; nfev := nfev st; njev := njev st;
     iteration := iteration st; log := log st; ext := ext st |}.

(** The outcome of lines 85-113: the gradient [pk], its norm, the scaled
    hessian and what the line search returned. *)
Record search_result := {
  sr_pk : vec;
  sr_pk_norm : Q;
  sr_hessian : matrix;
  sr_ls : ls_result
}.

(** Line 95: [hessian /= np.maximum(la.norm(hessian, np.inf), 1e-12)]. *)
Definition normalized (H : matrix) : option matrix :=
  n <- NumPy.norm_inf_mat H ;;
  Some (NumPy.mdiv H (Qmax n (1 # 1000000000000))).

(** Lines 85-113. *)
Definition search (o : options) (st : ls_state)
  : option (search_result * ls_state) :=
  let '(pk, st) :=
    match pk_from_ls st with
    | None =>
        let '(g, k) := _jac (cov st) (mean_state st) (closure_of st) in
        (g, with_closure st k)
    | Some pk => (pk, st)
    end in
  let '(hessian, w) := hess (ext st) in
  let st := with_closure st (nfev st, njev st, w) in
  '(hessian, pk_norm) <-
     (if normalize o then
        H <- normalized hessian ;;
        n <- NumPy.norm_inf pk ;;
        Some (H, n)
      else Some (hessian, 1)) ;;
  let st := info st (Info msg_search) in
  let '(r, k) :=
    line_search (_fun (cov st)) (_jac (cov st)) (mean_state st)
      (map (fun v => - v / pk_norm) pk) pk
      (NumPy.mean (obj_func_values st)) (c1 o) (c2 o) (alpha_max o)
      (alpha_iter_max o) (closure_of st) in
  Some ({| sr_pk := pk; sr_pk_norm := pk_norm; sr_hessian := hessian;
           sr_ls := r |},
        with_closure st k).

(** Lines 116-143: the accepted step.  [get_optimize_result] and
    [save_optimize_results] write the result record out and touch none of
    the attributes kept here.  When [normalize] is set and the gradient is
    zero, [pk_norm] is [0] and line 119 computes [0 / 0]: the new mean is
    [nan], which no state of the embedding holds, and the step has no
    result here. *)
Definition accept (o : options) (st : ls_state) (r : search_result)
    (step : Q) : option ls_state :=
  let st := info st (Info msg_satisfied) in
  if Qeq_bool (sr_pk_norm r) 0 then None else
  x <- NumPy.bcast2 Qminus (mean_state st)
         (map (fun v => step * v / sr_pk_norm r) (sr_pk r)) ;;
  C <- NumPy.msub_chk (cov st)
         (NumPy.mscale (alpha_cov o) (sr_hessian r)) ;;
  let C := get_sym_pos_semidef C in
  row0 <- nth_error C 0 ;;
  cov00 <- nth_error row0 0 ;;
  let new_values := [fnew (sr_ls r)] in
  Some {| mean_state := clip_state x;
          cov := C;
          obj_func_values := new_values;
          alpha := step;
          pk_from_ls := slope (sr_ls r);
          nfev := nfev st; njev := njev st;
          iteration := (iteration st + 1)%Z;
          log := log st
                 ++ [IterInfo (iteration st) (NumPy.mean new_values) step
                       cov00];
          ext := ext st |}.

(** Lines 150-155: what a retry does before it recurses. *)
Definition shrink (o : options) (st : ls_state) : ls_state :=
  let st := info st (Info msg_resampling) in
  let st := set_pk_from_ls st None in
  set_cov st (map (map (fun v => v * shrink_factor o)) (cov st)).

(** [calc_update] (lines 67-163).  The recursion of line 158 goes from
    [iter_resamp] to [iter_resamp + 1] below [iter_resamp_max]. *)
Equations? calc_update (o : options) (st : ls_state) (iter_resamp : nat)
  : option (bool * ls_state) by wf (iter_resamp_max o - iter_resamp)%nat lt :=
  calc_update o st iter_resamp with search o st => {
    | None := None;
    | Some (r, st1) with step_size (sr_ls r) => {
        | Some step with accept o st1 r step => {
            | Some st2 := Some (true, st2);
            | None := None };
        | None with lt_dec iter_resamp (iter_resamp_max o) => {
            | left _ :=
                calc_update o
                  (shrink o
                     (info st1 (Info msg_not_satisfied)))
                  (S iter_resamp);
            | right _ :=
                Some (false,
                      info st1
                        (Info msg_not_satisfied)) } } }.
Proof. lia. Qed.

(** The state in which the search after [n] retries starts: each of the
    [n] searches before it found no step, and lines 150-155 prepared the
    next one. *)
Fixpoint after_retries (o : options) (n : nat) (st : ls_state)
  : option ls_state :=
  match n with
  | O => Some st
  | S n' =>
      '(r, st1) <- search o st ;;
      match step_size (sr_ls r) with
      | Some _ => None
      | None =>
          after_retries o n' (shrink o (info st1 (Info msg_not_satisfied)))
      end
  end.

(** The line search finds no step on this objective: none of the searches
    that a call of [calc_update] from [st] makes, the first one and those
    of its [iter_resamp_max] retries, returns a step size. *)
Definition search_fails_throughout (o : options) (st : ls_state) : Prop :=
  forall k st_k r st1,
    (k <= iter_resamp_max o)%nat ->
    after_retries o k st = Some st_k ->
    search o st_k = Some (r, st1) ->
    step_size (sr_ls r) = None.

(** The norms of lines 95 and 96 are defined on arrays that are not empty:
    the condition under which a search raises no [ValueError]. *)
Definition search_defined (o : options) (st : ls_state) : Prop :=
  normalize o = true ->
  (forall w, fst (hess w) <> []) /\
  (forall x C w, fst (jac x C w) <> []) /\
  pk_from_ls st <> Some [].

End Controller.

Arguments mean_state {W} _.
Arguments cov {W} _.
Arguments obj_func_values {W} _.
Arguments alpha {W} _.
Arguments pk_from_ls {W} _.
Arguments nfev {W} _.
Arguments njev {W} _.
Arguments iteration {W} _.
Arguments log {W} _.
Arguments ext {W} _.

(** *** What the claims about the controller speak of *)

(** The search attempts a log records: one message per line search. *)
Definition is_search (e : log_entry) : bool :=
  match e with
  | Info m => String.eqb m msg_search
  | IterInfo _ _ _ _ => false
  end.

Definition search_attempts (l : list log_entry) : nat :=
  length (filter is_search l).

(** The retries a log records. *)
Definition is_resampling (e : log_entry) : bool :=
  match e with
  | Info m => String.eqb m msg_resampling
  | IterInfo _ _ _ _ => false
  end.

Definition retries (l : list log_entry) : nat :=
  length (filter is_resampling l).

(** The covariance after [k] shrinks (line 155, [k] times). *)
Definition shrunk (o : options) (k : nat) (C : matrix) : matrix :=
  Nat.iter k (map (map (fun v => v * shrink_factor o))) C.

(** Symmetric positive-semi-definite matrices. *)
Definition square (M : matrix) : Prop := wf_matrix (length M) (length M) M.

Definition symmetric (M : matrix) : Prop :=
  forall a b, (a < length M)%nat -> (b < length M)%nat ->
    GaussianEnsemble.entry M a b == GaussianEnsemble.entry M b a.

Definition quad_form (M : matrix) (v : vec) : Q :=
  NumPy.dot v (NumPy.matvec M v).

Definition pos_semidef (M : matrix) : Prop :=
  forall v, length v = length M -> 0 <= quad_form M v.

Definition sym_pos_semidef (M : matrix) : Prop :=
  square M /\ symmetric M /\ pos_semidef M.

(** *** [__init__], lines 36-46: the options and their defaults *)

(** The keyword arguments the constructor reads from [options]; a key that
    is absent is [None]. *)
Record kwargs := {
  kw_alpha_maxiter : option nat;
  kw_alpha_cov : option Q;
  kw_normalize : option bool;
  kw_resample : option nat;
  kw_shrink_factor : option Q;
  kw_alpha_max : option Q;
  kw_c1 : option Q;
  kw_c2 : option Q
}.

(** [options.get(key, default)]. *)
Definition get {A} (v : option A) (default : A) : A :=
  match v with
  | Some x => x
  | None => default
  end.

Definition init_options (kw : kwargs) : options :=
  {| alpha_iter_max := get (kw_alpha_maxiter kw) 5%nat;
     alpha_cov := get (kw_alpha_cov kw) (1 # 100);
     normalize := get (kw_normalize kw) true;
     iter_resamp_max := get (kw_resample kw) 0%nat;
     shrink_factor := get (kw_shrink_factor kw) (1 # 4);
     alpha_max := get (kw_alpha_max kw) 1;
     c1 := get (kw_c1 kw) (1 # 10000);
     c2 := get (kw_c2 kw) (9 # 10) |}.

End LineSearch.

(** * Loop invariants

    What holds between two passes of the loops over the levels; the proofs
    carry these through the loops. *)

Module Invariants.
Import GaussianEnsemble.

(** [gradient], lines 177-192, after the levels below [l]: the running
    column, the level gradients computed so far, and the objective values
    not yet visited. *)
Definition gradient_inv (cfg : settings) (o : obj) (nr : nat)
    (ens : list (String.string * matrix)) (nx : nat) (c : Q) (l : nat)
    (s : grad_loop) : Prop :=
  g_start_index s = level_start (ens_func_values o) l /\
  length (g_level_gradient s) = l /\
  length (g_ens_func_values s) = length (ens_func_values o) /\
  (forall m, (l <= m)%nat ->
     nth_error (g_ens_func_values s) m = nth_error (ens_func_values o) m) /\
  forall m, (m < l)%nat -> forall k, (k < nx)%nat ->
    nth k (nth m (g_level_gradient s) []) 0 ==
      level_gradient_formula (aug_state ens) (deltaJ cfg o nr c m)
        (level_start (ens_func_values o) m)
        (length (nth m (ens_func_values o) [])) k.

(** [hessian], lines 244-254, after the levels below [l]. *)
Definition hessian_inv (_aux_input : settings -> obj -> nat) (cfg : settings)
    (o : obj) (ens : list (String.string * matrix)) (nx : nat) (l : nat)
    (s : nat * list matrix) : Prop :=
  fst s = level_start (ens_func_values o) l /\
  length (snd s) = l /\
  forall m, (m < l)%nat ->
    wf_matrix nx nx (nth m (snd s) []) /\
    forall a b, (a < nx)%nat -> (b < nx)%nat ->
      entry (nth m (snd s) []) a b ==
        level_hessian_formula (aug_state ens) (cov o)
          (deltaJ_base
             (NumPy.repeat_each (state_func_values o) (_aux_input cfg o))
             (nth m (ens_func_values o) []))
          (level_start (ens_func_values o) m)
          (length (nth m (ens_func_values o) [])) a b.

(** [round(en_size[l] * f)], the new-sample count of a level that is not
    the last. *)
Definition level_round (sf : Q) (en_size : list Z) (l : nat) : Z :=
  NumPy.round (NumPy.fmul (nth l en_size 0%Z) sf).

(** The new-sample count of level [l] of [L] levels, in closed form. *)
Definition new_count (cfg : settings) (sf : Q) (en_size : list Z) (L l : nat)
  : Z :=
  if (1 <? L)%nat && (l =? L - 1)%nat
  then (NumPy.round (NumPy.fmul (num_samples cfg) sf)
        - bigsumZ (L - 1) (level_round sf en_size))%Z
  else level_round sf en_size l.

(** [calc_ensemble_weights], lines 329-364, on entry to the pass for level
    [l] of [L]: [start_index] is the sum of the new-sample counts of the
    levels before [l], and [ml_ne_new_total] holds those of them that are
    not the last of several. *)
Definition counts_inv (cfg : settings) (sf : Q) (L l : nat) (s : smc_loop)
  : Prop :=
  s_start_index s = bigsumZ l (new_count cfg sf (declared_en_size cfg) L) /\
  s_ml_ne_new_total s
    = bigsumZ (if (1 <? L)%nat then Nat.min l (L - 1) else l)
        (level_round sf (declared_en_size cfg)).

(** The weight of member [i] of a level before the normalisation, [m] being
    the minimum of the values (lines 351-354). *)
Definition raw_weight (exp : Q -> Q) (infl : Q) (values : vec) (m : Q)
    (i : nat) : Q :=
  exp (NumPy.clip_upper (- (nth i values 0 - m) * infl) 10) + (1 # 1000000).

(** [calc_ensemble_weights] starts its loop on the first call (nothing
    stored, no resample index) or on a later one (an index for every
    level). *)
Definition first_call (L : nat) (ri0 : list (option (list nat)))
    (P0 : list matrix) (V0 : list vec) : Prop :=
  P0 = [] /\ V0 = [] /\ forall m, (m < L)%nat -> nth_error ri0 m = Some None.

Definition later_call (ri0 : list (option (list nat))) : Prop :=
  Forall (fun x => x <> None) ri0.

(** [calc_ensemble_weights], lines 329-364, after the levels below [l]:
    every level processed has its particles, its values and its
    sensitivity. *)
Definition smc_inv (exp : Q -> Q) (infl : Q) (E : matrix) (L : nat)
    (N : list Z) (ri0 : list (option (list nat))) (P0 : list matrix)
    (V0 : list vec) (l : nat) (s : smc_loop) : Prop :=
  length (s_level_sens s) = l /\
  (forall m, (l <= m)%nat ->
     nth_error (s_resample_index s) m = nth_error ri0 m) /\
  (first_call L ri0 P0 V0 ->
     length (s_particles s) = l /\ length (s_particle_values s) = l) /\
  forall m, (m < l)%nat ->
    (m < length (s_particles s))%nat /\
    (m < length (s_particle_values s))%nat /\
    length (nth m (s_particles s) []) = length E /\
    level_sens_of exp infl N (s_particles s) (s_particle_values s) m
      (nth m (s_level_sens s) []).

(** The first call after it has seeded the levels below [l]. *)
Definition seed_inv (cfg : settings) (o : obj) (sf : Q) (E : matrix)
    (l : nat) (s : smc_loop) : Prop :=
  ((l < length (ens_func_values o))%nat
   \/ (length (ens_func_values o) <= 1)%nat ->
   s_start_index s = seed_offset sf (declared_en_size cfg) l /\
   s_ml_ne_new_total s = seed_offset sf (declared_en_size cfg) l) /\
  length (s_particles s) = l /\
  length (s_particle_values s) = l /\
  (forall m, (l <= m)%nat -> (m < length (ens_func_values o))%nat ->
     nth_error (s_resample_index s) m = Some None) /\
  forall m, (m < l)%nat ->
    nth_error (s_particles s) m
      = Some (NumPy.cols E (seed_offset sf (declared_en_size cfg) m)
                (seed_offset sf (declared_en_size cfg) m
                 + nth m (declared_en_size cfg) 0%Z)%Z) /\
    nth_error (s_particle_values s) m = Some (nth m (ens_func_values o) []).

End Invariants.

(** * Small concrete runs, used to exercise the theorems *)

Module Examples.
Import GaussianEnsemble.

(** Four samples on two levels of two members each. *)
Definition cfg_ml : settings :=
  {| keys_en_multilevel := Some {| en_size := [2; 2]%Z; cov_wgt := [1; 1] |};
     num_samples := 4; lb := []; ub := []; transform := true;
     bias_file := None |}.

(** Four samples, no multilevel configuration. *)
Definition cfg_single : settings :=
  {| keys_en_multilevel := None;
     num_samples := 4; lb := []; ub := []; transform := true;
     bias_file := None |}.

(** One control variable [x] with mean [0] and baseline objective [1]. *)
Definition o_init : obj :=
  {| state := MeanState [("x", [0])]; cov := [[1]]; ne := 0;
     state_func_values := [1]; ens_func_values := [];
     inflation_factor := None; survival_factor := None;
     particles := []; particle_values := []; resample_index := None;
     bias_factors := None; bias_weights := [1 # 4; 1 # 4; 1 # 4; 1 # 4];
     bias_points := None |}.

Definition draws4 (i : nat) : matrix := [[1; -1; 2; -2]].

(** The objective [v * v + v], evaluated on two levels of two members. *)
Definition objective2 (E : matrix) : list vec :=
  match E with
  | r :: _ => [map (fun v => v * v + v) (firstn 2 r);
               map (fun v => v * v + v) (skipn 2 r)]
  | [] => []
  end.

(** The same objective on a single level. *)
Definition objective1 (E : matrix) : list vec :=
  match E with
  | r :: _ => [map (fun v => v * v + v) r]
  | [] => []
  end.

Definition nr1 (cfg : settings) (o : obj) : nat := 1%nat.
Definition no_bias (o : obj) : vec := [].

(** The object as [gradient] leaves it in the two-level run. *)
Definition o_after_gradient : obj :=
  Eval vm_compute in
    match gradient objective2 nr1 no_bias cfg_ml o_init [0] [[1]] draws4 with
    | Some (_, o) => o
    | None => o_init
    end.

Definition g_after_gradient : vec :=
  Eval vm_compute in
    match gradient objective2 nr1 no_bias cfg_ml o_init [0] [[1]] draws4 with
    | Some (g, _) => g
    | None => []
    end.

(** The generated ensemble of that run. *)
Definition ens_after_gradient : list (String.string * matrix) :=
  Eval vm_compute in
    match state o_after_gradient with
    | EnsState e => e
    | MeanState _ => []
    end.

(** One variable with mean [9/10] in the normalised space [[0, 1]], two
    members drawn at [0] and [1]. *)
Definition cfg_clip : settings :=
  {| keys_en_multilevel := None;
     num_samples := 2; lb := [0]; ub := [1]; transform := true;
     bias_file := None |}.

Definition o_clip : obj :=
  {| state := MeanState [("x", [9 # 10])]; cov := [[1]]; ne := 2;
     state_func_values := [1]; ens_func_values := [];
     inflation_factor := None; survival_factor := None;
     particles := []; particle_values := []; resample_index := None;
     bias_factors := None; bias_weights := [1 # 2; 1 # 2];
     bias_points := None |}.

Definition draws_clip (i : nat) : matrix := [[0; 1]].

(** A one-dimensional problem for the line-search controller: constant
    gradient and hessian, no bounds, and a line search that never finds a
    step, or one that accepts the first trial step. *)
Definition ls_options : LineSearch.options :=
  {| LineSearch.alpha_iter_max := 5; LineSearch.alpha_cov := 1 # 100;
     LineSearch.normalize := true; LineSearch.iter_resamp_max := 2;
     LineSearch.shrink_factor := 1 # 4; LineSearch.alpha_max := 1;
     LineSearch.c1 := 1 # 10000; LineSearch.c2 := 9 # 10 |}.

Definition ls_start : LineSearch.ls_state unit :=
  {| LineSearch.mean_state := [0]; LineSearch.cov := [[1]];
     LineSearch.obj_func_values := [1]; LineSearch.alpha := 0;
     LineSearch.pk_from_ls := None; LineSearch.nfev := 1;
     LineSearch.njev := 0; LineSearch.iteration := 0;
     LineSearch.log := []; LineSearch.ext := tt |}.

Definition ls_fun (x : vec) (C : matrix) (w : unit) : vec * unit := ([1], w).
Definition ls_jac (x : vec) (C : matrix) (w : unit) : vec * unit := ([2], w).
Definition ls_hess (w : unit) : matrix * unit := ([[3]], w).
Definition ls_clip (x : vec) : vec := x.

Definition ls_never
    (f : vec -> LineSearch.closure_state unit
         -> Q * LineSearch.closure_state unit)
    (g : vec -> LineSearch.closure_state unit
         -> vec * LineSearch.closure_state unit)
    (xk pk gfk : vec) (old_fval c1 c2 amax : Q) (maxiter : nat)
    (k : LineSearch.closure_state unit)
  : LineSearch.ls_result * LineSearch.closure_state unit :=
  ({| LineSearch.step_size := None; LineSearch.fnew := 0;
      LineSearch.slope := None |}, k).

Definition ls_first_trial
    (f : vec -> LineSearch.closure_state unit
         -> Q * LineSearch.closure_state unit)
    (g : vec -> LineSearch.closure_state unit
         -> vec * LineSearch.closure_state unit)
    (xk pk gfk : vec) (old_fval c1 c2 amax : Q) (maxiter : nat)
    (k : LineSearch.closure_state unit)
  : LineSearch.ls_result * LineSearch.closure_state unit :=
  let x := NumPy.map2 (fun a p => a + amax * p) xk pk in
  let '(fx, k) := f x k in
  let '(gx, k) := g x k in
  ({| LineSearch.step_size := Some amax; LineSearch.fnew := fx;
      LineSearch.slope := Some gx |}, k).

(** A line search that tries the one step [amax] and takes it when the
    objective falls there, and finds no step otherwise: on the constant
    objective [ls_fun] it fails, on a falling one it accepts. *)
Definition ls_decrease
    (f : vec -> LineSearch.closure_state unit
         -> Q * LineSearch.closure_state unit)
    (g : vec -> LineSearch.closure_state unit
         -> vec * LineSearch.closure_state unit)
    (xk pk gfk : vec) (old_fval c1 c2 amax : Q) (maxiter : nat)
    (k : LineSearch.closure_state unit)
  : LineSearch.ls_result * LineSearch.closure_state unit :=
  let x := NumPy.map2 (fun a p => a + amax * p) xk pk in
  let '(fx, k) := f x k in
  if Qle_bool old_fval fx then
    ({| LineSearch.step_size := None; LineSearch.fnew := 0;
        LineSearch.slope := None |}, k)
  else
    let '(gx, k) := g x k in
    ({| LineSearch.step_size := Some amax; LineSearch.fnew := fx;
        LineSearch.slope := Some gx |}, k).

(** The objective [1 + x] of one control, which falls along the negative
    gradient. *)
Definition ls_fun_falling (x : vec) (C : matrix) (w : unit) : vec * unit :=
  ([1 + nth 0 x 0], w).

(** The projection onto the positive-semi-definite cone in dimension one. *)
Definition psd1 (M : matrix) : matrix :=
  [[Qmax 0 (GaussianEnsemble.entry M 0 0)]].

(** The state after one call of [calc_update] with the accepting search. *)
Definition ls_accepted : LineSearch.ls_state unit :=
  Eval vm_compute in
    match LineSearch.calc_update unit ls_fun ls_jac ls_hess ls_clip
            ls_first_trial psd1 ls_options ls_start 0 with
    | Some (_, st) => st
    | None => ls_start
    end.

(** A stand-in for [np.exp] on the rationals, the tangent of the
    exponential at [0] cut off at [0]: non-negative and monotone, with
    [exp 0 = 1] and [exp 1 = 2]. *)
Definition exp_tangent (x : Q) : Q := Qmax 0 (1 + x).

(** The objective [v * v + v] on two levels, each taking half of the
    members. *)
Definition objective_half (E : matrix) : list vec :=
  match E with
  | r :: _ =>
      let h := Nat.div2 (length r) in
      [map (fun v => v * v + v) (firstn h r);
       map (fun v => v * v + v) (skipn h r)]
  | [] => []
  end.

(** A resampling that always keeps member [0]. *)
Definition picks0 (l : nat) : option (list nat) := Some [0%nat].

Definition draws2 (i : nat) : matrix := [[3; -3]].

(** Two rounds of [calc_ensemble_weights] on two levels with survival
    fraction one half: the first draws four members, the second two. *)
Definition smc_round1 :=
  Eval vm_compute in
    calc_ensemble_weights objective_half no_bias exp_tangent cfg_ml o_init
      [0] 1 [[1]] (1 # 2) draws4 picks0.

Definition sens_round1 : vec :=
  Eval vm_compute in
    match smc_round1 with
    | Some (sens, _, _) => sens
    | None => []
    end.

Definition best_round1 : option (vec * Q) :=
  Eval vm_compute in
    match smc_round1 with
    | Some (_, best, _) => best
    | None => None
    end.

Definition o_round1 : obj :=
  Eval vm_compute in
    match smc_round1 with
    | Some (_, _, o) => o
    | None => o_init
    end.

Definition smc_round2 :=
  Eval vm_compute in
    calc_ensemble_weights objective_half no_bias exp_tangent cfg_ml o_round1
      [0] 1 [[1]] (1 # 2) draws2 picks0.

Definition sens_round2 : vec :=
  Eval vm_compute in
    match smc_round2 with
    | Some (sens, _, _) => sens
    | None => []
    end.

Definition best_round2 : option (vec * Q) :=
  Eval vm_compute in
    match smc_round2 with
    | Some (_, best, _) => best
    | None => None
    end.

Definition o_round2 : obj :=
  Eval vm_compute in
    match smc_round2 with
    | Some (_, _, o) => o
    | None => o_init
    end.

(** One round without a multilevel configuration. *)
Definition picks01 (l : nat) : option (list nat) := Some [0%nat; 1%nat].

Definition smc_single :=
  Eval vm_compute in
    calc_ensemble_weights objective1 no_bias exp_tangent cfg_single o_init
      [0] 1 [[1]] (1 # 2) draws4 picks01.

Definition sens_smc_single : vec :=
  Eval vm_compute in
    match smc_single with
    | Some (sens, _, _) => sens
    | None => []
    end.

Definition best_smc_single : option (vec * Q) :=
  Eval vm_compute in
    match smc_single with
    | Some (_, best, _) => best
    | None => None
    end.

Definition o_smc_single : obj :=
  Eval vm_compute in
    match smc_single with
    | Some (_, _, o) => o
    | None => o_init
    end.

(** The single-level object after [gradient], and what the estimator
    returns on it. *)
Definition o_single : obj :=
  Eval vm_compute in
    match gradient objective1 nr1 no_bias cfg_single o_init [0] [[1]] draws4
    with
    | Some (_, o) => o
    | None => o_init
    end.

Definition g_single : vec :=
  Eval vm_compute in
    match gradient_estimate cfg_single o_single 1 with
    | Some (g, _) => g
    | None => []
    end.

(** A first round with survival fraction [9/10] on two levels of two:
    [round(2 * 9/10) = 2], so no member of a level survives. *)
Definition smc_ninety :=
  Eval vm_compute in
    calc_ensemble_weights objective_half no_bias exp_tangent cfg_ml o_init
      [0] 1 [[1]] (9 # 10) draws4 (fun _ => Some []).

Definition o_ninety : obj :=
  Eval vm_compute in
    match smc_ninety with
    | Some (_, _, o) => o
    | None => o_init
    end.

End Examples.


(** * Further concrete runs *)

Module Scenarios.
Import GaussianEnsemble.

(** Two members on two levels, the first of which is empty. *)
Definition o_empty_level : obj :=
  {| state := EnsState [("x", [[1; -1]])]; cov := [[1]]; ne := 2;
     state_func_values := [1]; ens_func_values := [[]; [3; 5]];
     inflation_factor := None; survival_factor := None;
     particles := []; particle_values := []; resample_index := None;
     bias_factors := None; bias_weights := [1 # 2; 1 # 2];
     bias_points := None |}.

(** Two controls, four members on two levels of two, and a covariance
    with a correlation between the controls. *)
Definition o_two_controls : obj :=
  {| state := EnsState [("x", [[1; -1; 2; -2]]); ("y", [[0; 3; -3; 0]])];
     cov := [[1; 1 # 2]; [1 # 2; 2]]; ne := 4;
     state_func_values := [1]; ens_func_values := [[2; 0]; [6; 2]];
     inflation_factor := None; survival_factor := None;
     particles := []; particle_values := []; resample_index := None;
     bias_factors := None; bias_weights := [1 # 4; 1 # 4; 1 # 4; 1 # 4];
     bias_points := None |}.

(** The line-search controller on the one-dimensional problem: the state
    after a call whose line search never accepts, with two retries allowed
    and with the default options. *)
Definition ls_failed : LineSearch.ls_state unit :=
  Eval vm_compute in
    match LineSearch.calc_update unit Examples.ls_fun Examples.ls_jac
            Examples.ls_hess Examples.ls_clip Examples.ls_never Examples.psd1
            Examples.ls_options Examples.ls_start 0 with
    | Some (_, st) => st
    | None => Examples.ls_start
    end.

Definition kw_empty : LineSearch.kwargs :=
  {| LineSearch.kw_alpha_maxiter := None; LineSearch.kw_alpha_cov := None;
     LineSearch.kw_normalize := None; LineSearch.kw_resample := None;
     LineSearch.kw_shrink_factor := None; LineSearch.kw_alpha_max := None;
     LineSearch.kw_c1 := None; LineSearch.kw_c2 := None |}.

Definition ls_default_failed : LineSearch.ls_state unit :=
  Eval vm_compute in
    match LineSearch.calc_update unit Examples.ls_fun Examples.ls_jac
            Examples.ls_hess Examples.ls_clip Examples.ls_never Examples.psd1
            (LineSearch.init_options kw_empty) Examples.ls_start 0 with
    | Some (_, st) => st
    | None => Examples.ls_start
    end.

(** The first search of that call: its result and the state it leaves. *)
Definition ls_search_result : LineSearch.search_result :=
  Eval vm_compute in
    match LineSearch.search unit Examples.ls_fun Examples.ls_jac
            Examples.ls_hess Examples.ls_clip Examples.ls_never
            Examples.ls_options Examples.ls_start with
    | Some (r, _) => r
    | None =>
        {| LineSearch.sr_pk := []; LineSearch.sr_pk_norm := 0;
           LineSearch.sr_hessian := [];
           LineSearch.sr_ls :=
             {| LineSearch.step_size := None; LineSearch.fnew := 0;
                LineSearch.slope := None |} |}
    end.

Definition ls_search_state : LineSearch.ls_state unit :=
  Eval vm_compute in
    match LineSearch.search unit Examples.ls_fun Examples.ls_jac
            Examples.ls_hess Examples.ls_clip Examples.ls_never
            Examples.ls_options Examples.ls_start with
    | Some (_, st) => st
    | None => Examples.ls_start
    end.

(** The two-level run with a bias file configured and the bias factor
    [2] stored for every sample. *)
Definition cfg_bias : settings :=
  {| keys_en_multilevel := Some {| en_size := [2; 2]%Z; cov_wgt := [1; 1] |};
     num_samples := 4; lb := []; ub := []; transform := true;
     bias_file := Some "BIAS.MAKO" |}.

Definition o_bias : obj :=
  set_bias Examples.o_after_gradient (Some [[2; 2; 2; 2]]) None.

End Scenarios.
(** * Properties *)

(** ** Loops *)

Lemma for_each_app {A S} (xs ys : list A) (body : A -> S -> option S) (s : S) :
  for_each (xs ++ ys) body s = (s' <- for_each xs body s ;; for_each ys body s').
Proof.
  revert s. induction xs as [|x xs IH]; intros s; simpl; [reflexivity|].
  destruct (body x s) as [s1|]; simpl; [apply IH | reflexivity].
Qed.

Lemma range_S (n : nat) : range (S n) = range n ++ [n].
Proof. unfold range. rewrite seq_S. reflexivity. Qed.

(** A loop over [range n] that keeps an invariant and never raises under it
    runs to the end. *)
Lemma for_each_range_total {S} (body : nat -> S -> option S)
    (Inv : nat -> S -> Prop) (n : nat) (s0 : S) :
  Inv 0%nat s0 ->
  (forall l s, (l < n)%nat -> Inv l s ->
     exists s', body l s = Some s' /\ Inv (Datatypes.S l) s') ->
  exists s', for_each (range n) body s0 = Some s' /\ Inv n s'.
Proof.
  intros H0 Hstep. induction n as [|n IH].
  - exists s0. split; [reflexivity | assumption].
  - destruct IH as (s1 & Hrun & Hinv).
    { intros l s Hl. apply Hstep. lia. }
    destruct (Hstep n s1 (Nat.lt_succ_diag_r n) Hinv) as (s2 & Hb & Hinv2).
    exists s2. split; [|assumption].
    rewrite range_S, for_each_app, Hrun. simpl. rewrite Hb. reflexivity.
Qed.

(** A loop over [range n] that ran to the end kept every invariant its body
    keeps. *)
Lemma for_each_range_inv {S} (body : nat -> S -> option S)
    (Inv : nat -> S -> Prop) (n : nat) (s0 s' : S) :
  for_each (range n) body s0 = Some s' ->
  Inv 0%nat s0 ->
  (forall l s s1, (l < n)%nat -> Inv l s -> body l s = Some s1 ->
     Inv (Datatypes.S l) s1) ->
  Inv n s'.
Proof.
  revert s'. induction n as [|n IH]; intros s' Hrun H0 Hstep.
  - simpl in Hrun. injection Hrun as <-. assumption.
  - rewrite range_S, for_each_app in Hrun.
    destruct (for_each (range n) body s0) as [s1|] eqn:E1; simpl in Hrun;
      [|discriminate].
    destruct (body n s1) as [s2|] eqn:E2; simpl in Hrun; [|discriminate].
    injection Hrun as <-.
    apply (Hstep n s1); [lia | | assumption].
    apply IH; [reflexivity | assumption |].
    intros l s s3 Hl. apply Hstep. lia.
Qed.

(** A loop over [range n] that ran to the end made every pass: the pass
    number [l] took the state the passes before it left. *)
Lemma for_each_range_prefix {S} (body : nat -> S -> option S) (n : nat)
    (s0 sn : S) :
  for_each (range n) body s0 = Some sn ->
  forall l, (l < n)%nat ->
    exists s s',
      for_each (range l) body s0 = Some s /\
      body l s = Some s' /\
      for_each (range (Datatypes.S l)) body s0 = Some s'.
Proof.
  revert sn. induction n as [|n IH]; intros sn Hrun l Hl; [lia|].
  rewrite range_S, for_each_app in Hrun.
  destruct (for_each (range n) body s0) as [s1|] eqn:E1; simpl in Hrun;
    [|discriminate].
  destruct (body n s1) as [s2|] eqn:E2; simpl in Hrun; [|discriminate].
  destruct (Nat.eq_dec l n) as [->|Hne].
  - exists s1, s2. split; [exact E1|]. split; [exact E2|].
    rewrite range_S, for_each_app, E1. simpl. rewrite E2. reflexivity.
  - apply (IH s1 eq_refl). lia.
Qed.

(** ** Arrays *)

Lemma map2_length {A B C} (f : A -> B -> C) (a : list A) (b : list B) :
  length (NumPy.map2 f a b) = Nat.min (length a) (length b).
Proof.
  revert b. induction a as [|x a IH]; intros [|y b]; simpl; auto.
Qed.

Lemma nth_map2 {A B C} (f : A -> B -> C) (a : list A) (b : list B)
    (k : nat) (da : A) (db : B) (dc : C) :
  (k < length a)%nat -> (k < length b)%nat ->
  nth k (NumPy.map2 f a b) dc = f (nth k a da) (nth k b db).
Proof.
  revert b k. induction a as [|x a IH]; intros [|y b] [|k] Ha Hb;
    simpl in *; try lia; [reflexivity|].
  apply IH; lia.
Qed.

Lemma nth_map_lt {A B} (f : A -> B) (l : list A) (k : nat) (da : A) (db : B) :
  (k < length l)%nat -> nth k (map f l) db = f (nth k l da).
Proof.
  revert k. induction l as [|x l IH]; intros [|k] Hk; simpl in *; try lia;
    [reflexivity|].
  apply IH. lia.
Qed.

Lemma nth_error_nth_lt {A} (l : list A) (k : nat) (d : A) :
  (k < length l)%nat -> nth_error l k = Some (nth k l d).
Proof.
  revert k. induction l as [|x l IH]; intros [|k] Hk; simpl in *; try lia;
    [reflexivity|].
  apply IH. lia.
Qed.

Lemma wf_matrix_row (nx ne : nat) (M : matrix) (k : nat) :
  wf_matrix nx ne M -> (k < nx)%nat -> length (nth k M []) = ne.
Proof.
  intros [Hlen Hrows] Hk. rewrite Forall_forall in Hrows.
  apply Hrows, nth_In. lia.
Qed.

Lemma zeros_length (n : nat) : length (NumPy.zeros n) = n.
Proof. apply repeat_length. Qed.

Lemma nth_zeros (n k : nat) : nth k (NumPy.zeros n) 0 = 0.
Proof.
  unfold NumPy.zeros. revert k. induction n as [|n IH]; intros [|k]; simpl; auto.
Qed.

(** Sums *)

Lemma fold_left_Qplus_acc (v : vec) (a : Q) :
  fold_left Qplus v a == a + fold_left Qplus v 0.
Proof.
  revert a. induction v as [|x v IH]; intros a; cbn [fold_left].
  - ring.
  - rewrite (IH (a + x)), (IH (0 + x)). ring.
Qed.

Lemma sum_cons (x : Q) (v : vec) : NumPy.sum (x :: v) == x + NumPy.sum v.
Proof.
  unfold NumPy.sum. cbn [fold_left]. rewrite fold_left_Qplus_acc. ring.
Qed.

Lemma sum_app (u v : vec) : NumPy.sum (u ++ v) == NumPy.sum u + NumPy.sum v.
Proof.
  induction u as [|x u IH]; cbn [app].
  - unfold NumPy.sum at 2. cbn [fold_left]. ring.
  - rewrite !sum_cons, IH. ring.
Qed.

Lemma bigsum_ext (n : nat) (f g : nat -> Q) :
  (forall i, (i < n)%nat -> f i == g i) -> bigsum n f == bigsum n g.
Proof.
  induction n as [|n IH]; intros H; cbn [bigsum]; [reflexivity|].
  rewrite IH, (H n); [reflexivity | lia |]. intros i Hi. apply H. lia.
Qed.

Lemma bigsumZ_ext (n : nat) (f g : nat -> Z) :
  (forall i, (i < n)%nat -> f i = g i) -> bigsumZ n f = bigsumZ n g.
Proof.
  induction n as [|n IH]; intros H; simpl; [reflexivity|].
  rewrite IH, (H n); [reflexivity | lia |]. intros i Hi. apply H. lia.
Qed.

(** ** Doubles and rounding

    [NumPy.double] and [NumPy.fmul] as far as the sample counts need them:
    the double product of a count and a fraction in [0, 1] stays within the
    count. *)

Module Doubles.

(** Rounding does not go above an integer bound. *)
Lemma round_le (x : Q) (n : Z) : x <= inject_Z n -> (NumPy.round x <= n)%Z.
Proof.
  intros Hx. unfold NumPy.round.
  assert (Hf : (Qfloor x <= n)%Z).
  { rewrite <- (Qfloor_Z n). apply Qfloor_resp_le. exact Hx. }
  assert (Hhalf : (1 # 2) <= x - inject_Z (Qfloor x) -> (Qfloor x + 1 <= n)%Z).
  { intros H. destruct (Z.eq_dec (Qfloor x) n) as [E|E]; [|lia].
    rewrite E in H. exfalso. assert (0 < 1 # 2) by reflexivity. lra. }
  destruct (Qcompare (x - inject_Z (Qfloor x)) (1 # 2)) eqn:E.
  - apply Qeq_alt in E. assert (H : (Qfloor x + 1 <= n)%Z)
      by (apply Hhalf; rewrite E; apply Qle_refl).
    destruct (Z.even (Qfloor x)); lia.
  - exact Hf.
  - apply Qgt_alt in E. apply Hhalf. apply Qlt_le_weak. exact E.
Qed.

(** Rounding a non-negative number gives a non-negative integer. *)
Lemma round_ge_0 (x : Q) : 0 <= x -> (0 <= NumPy.round x)%Z.
Proof.
  intros Hx. unfold NumPy.round.
  assert (Hf : (0 <= Qfloor x)%Z).
  { rewrite <- (Qfloor_Z 0). apply Qfloor_resp_le. exact Hx. }
  destruct (Qcompare (x - inject_Z (Qfloor x)) (1 # 2));
    [destruct (Z.even (Qfloor x))| |]; lia.
Qed.

Lemma pow2_pos (e : Z) : 0 < 2 ^ e.
Proof. apply Qpower_0_lt. reflexivity. Qed.

(** [ilog2 a] is a lower estimate of the binary logarithm. *)
Lemma ilog2_le (a : Q) : 0 < a -> 2 ^ NumPy.ilog2 a <= a.
Proof.
  intros Ha. unfold NumPy.ilog2.
  set (k := (Z.log2 (Qnum a) - Z.log2 (Z.pos (Qden a)))%Z).
  destruct (Qle_bool (2 ^ k) a) eqn:E.
  - apply Qle_bool_iff. exact E.
  - assert (Hn : (0 < Qnum a)%Z).
    { unfold Qlt in Ha. cbn [Qnum Qden] in Ha. lia. }
    destruct (Z.log2_spec (Qnum a) Hn) as [Hlo _].
    destruct (Z.log2_spec (Z.pos (Qden a)) (Pos2Z.is_pos _)) as [_ Hhi].
    assert (Hln := Z.log2_nonneg (Qnum a)).
    assert (Hld := Z.log2_nonneg (Z.pos (Qden a))).
    set (ln := Z.log2 (Qnum a)) in *.
    set (ld := Z.log2 (Z.pos (Qden a))) in *.
    replace (k - 1)%Z with (ln - Z.succ ld)%Z by (unfold k; lia).
    rewrite Qpower_minus by discriminate.
    apply Qle_shift_div_r; [apply pow2_pos|].
    rewrite <- !(Zpower_Qpower 2) by lia.
    assert (Hd : a * inject_Z (Z.pos (Qden a)) == inject_Z (Qnum a)).
    { unfold Qeq. cbn [Qnum Qden Qmult inject_Z]. lia. }
    rewrite <- Qmult_le_l with (z := inject_Z (Z.pos (Qden a)))
      by (unfold Qlt; cbn; lia).
    apply Qle_trans
      with (y := inject_Z (Qnum a) * inject_Z (2 ^ Z.succ ld)).
    + rewrite <- !inject_Z_mult. rewrite <- Zle_Qle. nia.
    + rewrite <- Hd. apply Qle_lteq. right. ring.
Qed.

Lemma Qabs_eq (x : Q) : 0 <= x -> Qabs x = x.
Proof.
  destruct x as [p q]. unfold Qle, Qabs. cbn [Qnum Qden]. intros H.
  f_equal. apply Z.abs_eq. lia.
Qed.

(** The significand of a double is not negative. *)
Lemma significand_nonneg (x : Q) (e : Z) :
  0 <= inject_Z (NumPy.round (Qabs x / 2 ^ e)) * 2 ^ e.
Proof.
  apply Qmult_le_0_compat; [|apply Qlt_le_weak, pow2_pos].
  change 0 with (inject_Z 0). rewrite <- Zle_Qle. apply round_ge_0.
  apply Qle_shift_div_l; [apply pow2_pos|].
  rewrite Qmult_0_l. apply Qabs_nonneg.
Qed.

(** A double is not negative when the number it renders is not. *)
Lemma double_nonneg (x : Q) : 0 <= x -> 0 <= NumPy.double x.
Proof.
  intros Hx. unfold NumPy.double.
  destruct (Qcompare x 0) eqn:E.
  - apply Qle_refl.
  - apply Qlt_alt in E. lra.
  - apply significand_nonneg.
Qed.

(** An integer below [2 ** 53] is a double, and rounding to a double is
    monotone: it does not lift a number above such an integer. *)
Lemma double_le_int (x : Q) (n : Z) :
  (0 <= n < 2 ^ 53)%Z -> x <= inject_Z n -> NumPy.double x <= inject_Z n.
Proof.
  intros Hn Hx.
  assert (Hn0 : 0 <= inject_Z n)
    by (change 0 with (inject_Z 0); rewrite <- Zle_Qle; lia).
  unfold NumPy.double.
  destruct (Qcompare x 0) eqn:E.
  - exact Hn0.
  - apply Qle_trans with (y := 0); [|exact Hn0].
    assert (H := significand_nonneg x
                   (Z.max (NumPy.ilog2 (Qabs x) - 52) (-1074))).
    lra.
  - apply Qgt_alt in E.
    rewrite (Qabs_eq x) by (apply Qlt_le_weak; exact E).
    set (e := Z.max (NumPy.ilog2 x - 52) (-1074)).
    assert (He : (e <= 0)%Z).
    { assert (Hlog : (NumPy.ilog2 x < 53)%Z).
      { apply (Qpower_lt_compat_l_inv 2); [|reflexivity].
        apply Qle_lt_trans with (y := x); [apply ilog2_le; exact E|].
        apply Qle_lt_trans with (y := inject_Z n); [exact Hx|].
        rewrite <- (Zpower_Qpower 2) by lia.
        change (inject_Z 2) with 2. rewrite <- Zlt_Qlt. lia. }
      unfold e. lia. }
    assert (Hm : inject_Z n == inject_Z (n * 2 ^ (- e)) * 2 ^ e).
    { rewrite inject_Z_mult, (Zpower_Qpower 2) by lia.
      change (inject_Z 2) with 2. rewrite Qpower_opp.
      field. apply Qpower_not_0. discriminate. }
    rewrite Hm. apply Qmult_le_compat_r; [|apply Qlt_le_weak, pow2_pos].
    rewrite <- Zle_Qle. apply round_le.
    apply Qle_shift_div_r; [apply pow2_pos|].
    rewrite <- Hm. exact Hx.
Qed.

(** The double product of a count and a fraction stays within the count. *)
Lemma fmul_nonneg (n : Z) (sf : Q) :
  (0 <= n)%Z -> 0 <= sf -> 0 <= NumPy.fmul n sf.
Proof.
  intros Hn Hsf. unfold NumPy.fmul. apply double_nonneg.
  apply Qmult_le_0_compat; apply double_nonneg; [|exact Hsf].
  change 0 with (inject_Z 0). rewrite <- Zle_Qle. exact Hn.
Qed.

Lemma fmul_le (n : Z) (sf : Q) :
  (0 <= n < 2 ^ 53)%Z -> sf <= 1 -> NumPy.fmul n sf <= inject_Z n.
Proof.
  intros Hn Hsf. unfold NumPy.fmul. apply double_le_int; [exact Hn|].
  assert (Hdn : NumPy.double (inject_Z n) <= inject_Z n)
    by (apply double_le_int; [exact Hn | apply Qle_refl]).
  assert (Hdn0 : 0 <= NumPy.double (inject_Z n)).
  { apply double_nonneg. change 0 with (inject_Z 0). rewrite <- Zle_Qle. lia. }
  assert (Hds : NumPy.double sf <= 1).
  { change 1 with (inject_Z 1). apply double_le_int; [lia | exact Hsf]. }
  assert (H : 0 <= NumPy.double (inject_Z n) * (1 - NumPy.double sf))
    by (apply Qmult_le_0_compat; [exact Hdn0 | lra]).
  setoid_replace (NumPy.double (inject_Z n) * (1 - NumPy.double sf))
    with (NumPy.double (inject_Z n)
          - NumPy.double (inject_Z n) * NumPy.double sf) in H by ring.
  lra.
Qed.

(** The new-sample count of a level lies within the level. *)
Lemma round_fmul_le (n : Z) (sf : Q) :
  (0 <= n < 2 ^ 53)%Z -> sf <= 1 -> (NumPy.round (NumPy.fmul n sf) <= n)%Z.
Proof. intros Hn Hsf. apply round_le, fmul_le; assumption. Qed.

Lemma round_fmul_nonneg (n : Z) (sf : Q) :
  (0 <= n)%Z -> 0 <= sf -> (0 <= NumPy.round (NumPy.fmul n sf))%Z.
Proof. intros Hn Hsf. apply round_ge_0, fmul_nonneg; assumption. Qed.

End Doubles.

(** ** The gradient estimator (C1) *)

Module GradientEstimator.
Import GaussianEnsemble.

Lemma bcast2_spec (f : Q -> Q -> Q) (a b : vec) :
  bcast_ok (length a) (length b) ->
  exists d, NumPy.bcast2 f a b = Some d /\
    (length a <= length d)%nat /\
    forall i, (i < length a)%nat ->
      nth i d 0 =
        f (nth i a 0) (nth (if (length b =? 1)%nat then 0%nat else i) b 0).
Proof.
  intros Hok. unfold NumPy.bcast2.
  destruct (length a =? length b)%nat eqn:Eab.
  - apply Nat.eqb_eq in Eab. eexists. split; [reflexivity|].
    rewrite map2_length. split; [lia|]. intros i Hi.
    rewrite (nth_map2 f a b i 0 0 0) by lia.
    destruct (length b =? 1)%nat eqn:Eb; [|reflexivity].
    apply Nat.eqb_eq in Eb. replace i with 0%nat by lia. reflexivity.
  - apply Nat.eqb_neq in Eab.
    destruct (length b =? 1)%nat eqn:Eb.
    + eexists. split; [reflexivity|]. rewrite length_map. split; [lia|].
      intros i Hi. rewrite (nth_map_lt _ a i 0 0) by lia.
      destruct b as [|y b]; [discriminate|]. reflexivity.
    + apply Nat.eqb_neq in Eb.
      destruct (length a =? 1)%nat eqn:Ea.
      * apply Nat.eqb_eq in Ea. eexists. split; [reflexivity|].
        rewrite length_map. destruct Hok as [H|[H|[_ H]]]; try lia.
        split; [lia|]. intros i Hi. replace i with 0%nat by lia.
        rewrite (nth_map_lt _ b 0%nat 0 0) by lia.
        destruct a as [|x a]; [discriminate|]. reflexivity.
      * apply Nat.eqb_neq in Ea. destruct Hok as [H|[H|[H _]]]; lia.
Qed.

Lemma pert_state_spec (nx ne_ : nat) (E : matrix) :
  wf_matrix nx ne_ E ->
  exists P, pert_state (Z.of_nat ne_) E = Some P /\
    wf_matrix nx ne_ P /\
    forall k j, (k < nx)%nat -> (j < ne_)%nat ->
      nth j (nth k P []) 0 = deltaX E k j.
Proof.
  intros [Hlen Hrows]. unfold pert_state.
  replace (forallb (fun r => (length r =? Z.to_nat (Z.of_nat ne_))%nat) E)
    with true.
  - eexists. split; [reflexivity|]. split.
    + split; [rewrite length_map; exact Hlen|].
      rewrite Forall_map. eapply Forall_impl; [|exact Hrows].
      intros r Hr. cbn beta. rewrite length_map. exact Hr.
    + intros k j Hk Hj. unfold deltaX.
      rewrite (nth_map_lt (A:=vec) (B:=vec) _ E k [] []) by lia.
      assert (Hr : length (nth k E []) = ne_)
        by (apply (wf_matrix_row nx); [split; assumption | assumption]).
      rewrite (nth_map_lt _ (nth k E []) j 0 0) by lia. reflexivity.
  - symmetry. apply forallb_forall. intros r Hr. rewrite Nat2Z.id.
    apply Nat.eqb_eq. rewrite Forall_forall in Hrows. auto.
Qed.

Lemma col_spec (nx ne_ : nat) (P : matrix) (j : nat) :
  wf_matrix nx ne_ P -> (j < ne_)%nat ->
  exists c, NumPy.col ne_ P j = Some c /\ length c = nx /\
    forall k, (k < nx)%nat -> nth k c 0 = nth j (nth k P []) 0.
Proof.
  intros [Hlen Hrows] Hj. unfold NumPy.col.
  replace (j <? ne_)%nat with true by (symmetry; apply Nat.ltb_lt; exact Hj).
  eexists. split; [reflexivity|]. split; [rewrite length_map; exact Hlen|].
  intros k Hk. rewrite (nth_map_lt (A:=vec) _ P k [] 0) by lia. reflexivity.
Qed.

(** Lines 187-189 add up [dJ[i] * P[k, start + i]] in every component. *)
Lemma gradient_sum_spec (nx ne_ : nat) (P : matrix) (dJ g0 : vec)
    (start n : nat) :
  wf_matrix nx ne_ P -> (start + n <= ne_)%nat -> (n <= length dJ)%nat ->
  length g0 = nx ->
  exists g, gradient_sum (Z.of_nat ne_) P dJ start n g0 = Some g /\
    length g = nx /\
    forall k, (k < nx)%nat ->
      nth k g 0 ==
        nth k g0 0
        + bigsum n (fun i => nth i dJ 0 * nth (start + i) (nth k P []) 0).
Proof.
  intros HP Hrange HdJ Hg0. unfold gradient_sum.
  apply (for_each_range_total _
           (fun i g => length g = nx /\
              forall k, (k < nx)%nat ->
                nth k g 0 ==
                  nth k g0 0
                  + bigsum i (fun i => nth i dJ 0
                                       * nth (start + i) (nth k P []) 0))).
  - split; [exact Hg0|]. intros k Hk. cbn [bigsum]. ring.
  - intros i g Hi [Hlen Hsum].
    rewrite (nth_error_nth_lt dJ i 0) by lia. cbn [bind].
    rewrite Nat2Z.id.
    destruct (col_spec nx ne_ P (start + i) HP) as (c & Hc & Hclen & Hcnth);
      [lia|].
    rewrite Hc. cbn [bind]. eexists. split; [reflexivity|]. split.
    + unfold NumPy.vadd, NumPy.vscale. rewrite map2_length, length_map. lia.
    + intros k Hk. unfold NumPy.vadd, NumPy.vscale.
      rewrite (nth_map2 Qplus g _ k 0 0 0) by (rewrite ?length_map; lia).
      rewrite (nth_map_lt _ c k 0 0) by lia.
      rewrite Hcnth by exact Hk. rewrite (Hsum k Hk). cbn [bigsum]. ring.
Qed.

Lemma set_nth_length {A} (i : nat) (x : A) (l : list A) :
  length (NumPy.set_nth i x l) = length l.
Proof.
  revert i. induction l as [|y l IH]; intros [|i]; simpl; auto.
Qed.

Lemma nth_error_set_nth_ne {A} (i j : nat) (x : A) (l : list A) :
  i <> j -> nth_error (NumPy.set_nth i x l) j = nth_error l j.
Proof.
  revert i j. induction l as [|y l IH]; intros [|i] [|j] H; simpl; auto;
    try congruence.
Qed.

Lemma nth_error_set_nth_eq {A} (i : nat) (x : A) (l : list A) :
  (i < length l)%nat -> nth_error (NumPy.set_nth i x l) i = Some x.
Proof.
  revert i. induction l as [|y l IH]; intros [|i] H; simpl in *; try lia;
    [reflexivity|]. apply IH. lia.
Qed.

Lemma level_start_S (Js : list vec) (l : nat) :
  (l < length Js)%nat ->
  level_start Js (S l) = (level_start Js l + length (nth l Js []))%nat.
Proof.
  unfold level_start. revert l. induction Js as [|J Js IH]; intros l Hl;
    simpl in Hl; [lia|].
  destruct l as [|l].
  - cbn [firstn concat nth]. rewrite app_nil_r. simpl. lia.
  - change (firstn (S (S l)) (J :: Js)) with (J :: firstn (S l) Js).
    change (firstn (S l) (J :: Js)) with (J :: firstn l Js).
    cbn [concat nth]. rewrite !length_app, IH by lia. lia.
Qed.

Lemma level_start_mono (Js : list vec) (l m : nat) :
  (l <= m)%nat -> (m <= length Js)%nat ->
  (level_start Js l <= level_start Js m)%nat.
Proof.
  intros Hlm Hm. induction Hlm as [|m Hlm IH]; [lia|].
  rewrite level_start_S by lia. specialize (IH ltac:(lia)). lia.
Qed.

Section Levels.
Variable cfg : settings.
Variable o : obj.
Variable nr : nat.
Variable ens : list (String.string * matrix).
Variables nx ne_ : nat.
Variable c : Q.

Local Abbreviation E := (aug_state ens).
Local Abbreviation Js := (ens_func_values o).
Local Abbreviation L := (length (ens_func_values o)).
Local Abbreviation base :=
  (NumPy.repeat_each (state_func_values o) nr).
Local Abbreviation deltaJ := (deltaJ cfg o nr c).
Local Abbreviation levels_inv := (Invariants.gradient_inv cfg o nr ens nx c).

Hypothesis Hstate : state o = EnsState ens.
Hypothesis Hwf : wf_matrix nx ne_ E.
Hypothesis Hne : ne o = Z.of_nat ne_.
Hypothesis Hsizes : (level_start Js L <= ne_)%nat.
Hypothesis Hbias : bias_file cfg <> None -> _bias_correction o = Some c.
Hypothesis Hbase :
  bias_file cfg = None ->
  Forall (fun J => bcast_ok (length J) (length base)) Js.

Lemma pert_obj_func_spec (l : nat) :
  (l < L)%nat ->
  exists J' d, pert_obj_func cfg o nr (nth l Js []) = Some (J', d) /\
    length J' = length (nth l Js []) /\
    (length (nth l Js []) <= length d)%nat /\
    forall i, (i < length (nth l Js []))%nat -> nth i d 0 = deltaJ l i.
Proof.
  intros Hl. unfold pert_obj_func, GaussianEnsemble.deltaJ.
  destruct (bias_file cfg) as [f|] eqn:Ef.
  - rewrite Hbias by discriminate. cbn [bind].
    eexists. eexists. split; [reflexivity|]. rewrite !length_map.
    split; [reflexivity|]. split; [lia|].
    intros i Hi. unfold deltaJ_bias.
    rewrite (nth_map_lt _ _ i 0 0) by (rewrite length_map; exact Hi).
    rewrite (nth_map_lt _ _ i 0 0) by exact Hi. reflexivity.
  - specialize (Hbase eq_refl). rewrite Forall_forall in Hbase.
    destruct (bcast2_spec Qminus (nth l Js []) base) as (d & Hd & Hlen & Hnth).
    { apply Hbase, nth_In. exact Hl. }
    rewrite Hd. cbn [bind].
    exists (nth l Js []), d. split; [reflexivity|]. split; [reflexivity|].
    split; [exact Hlen|]. intros i Hi. rewrite Hnth by exact Hi. reflexivity.
Qed.

Lemma gradient_level_step (P : matrix) (l : nat) (s : grad_loop) :
  wf_matrix nx ne_ P ->
  (forall k j, (k < nx)%nat -> (j < ne_)%nat ->
     nth j (nth k P []) 0 = deltaX E k j) ->
  (l < L)%nat -> levels_inv l s ->
  exists s', gradient_level cfg o nr P l s = Some s' /\ levels_inv (S l) s'.
Proof.
  intros HP HPX Hl (Hstart & Hglen & Hvlen & Hrest & Hdone).
  unfold gradient_level.
  rewrite (Hrest l (le_n l)), (nth_error_nth_lt Js l []) by exact Hl.
  cbn [bind].
  destruct (pert_obj_func_spec l Hl) as (J' & d & Hpo & HJ' & Hdlen & Hd).
  rewrite Hpo. cbn [bind]. rewrite Hne, HJ'.
  assert (Hnext : level_start Js (S l)
                  = (level_start Js l + length (nth l Js []))%nat)
    by (apply level_start_S; exact Hl).
  assert (Hbound : (level_start Js (S l) <= ne_)%nat).
  { etransitivity; [|exact Hsizes]. apply level_start_mono; lia. }
  destruct (gradient_sum_spec nx ne_ P d (NumPy.zeros (length P))
              (g_start_index s) (length (nth l Js [])) HP)
    as (g & Hg & Hglen' & Hgnth).
  { rewrite Hstart. lia. }
  { exact Hdlen. }
  { rewrite zeros_length. apply HP. }
  rewrite Hg. cbn [bind]. eexists. split; [reflexivity|].
  unfold Invariants.gradient_inv.
  cbn [g_start_index g_level_gradient g_ens_func_values].
  split; [rewrite Hstart; symmetry; exact Hnext|].
  split; [rewrite length_app; simpl; lia|].
  split; [rewrite set_nth_length; exact Hvlen|].
  split.
  - intros m Hm. rewrite nth_error_set_nth_ne by lia. apply Hrest. lia.
  - intros m Hm k Hk. destruct (Nat.eq_dec m l) as [->|Hml].
    + rewrite app_nth2, Hglen, Nat.sub_diag by lia. cbn [nth].
      unfold NumPy.vdiv. rewrite (nth_map_lt _ g k 0 0) by lia.
      unfold level_gradient_formula. rewrite (Hgnth k Hk), nth_zeros.
      apply Qmult_comp; [|reflexivity]. rewrite Qplus_0_l.
      apply bigsum_ext. intros i Hi. rewrite Hd by exact Hi.
      rewrite HPX by (rewrite ?Hstart; lia). rewrite Hstart. reflexivity.
    + rewrite app_nth1 by lia. apply Hdone; [lia | exact Hk].
Qed.

End Levels.

(** C1.  On an object that holds a rectangular ensemble [E] with [ne]
    members and the objective values [Js] of its levels, the level loop of
    [gradient] runs to the end, and for every level [l] with at least two
    members the level gradient is
    [(sum_i deltaJ[i] * deltaX[:, start_l + i]) / (n_l - 1)], where [deltaX]
    is [E] minus its mean over the members and [deltaJ] is the level's values
    times the bias-correction factor minus their mean (bias correction on),
    or the level's values minus the repeated baseline (bias correction
    off). *)
Theorem C1_level_gradient (cfg : settings) (o : obj) (nr : nat)
    (ens : list (String.string * matrix)) (nx ne_ : nat) (c : Q) :
  state o = EnsState ens ->
  wf_matrix nx ne_ (aug_state ens) ->
  ne o = Z.of_nat ne_ ->
  (level_start (ens_func_values o) (length (ens_func_values o)) <= ne_)%nat ->
  (bias_file cfg <> None -> _bias_correction o = Some c) ->
  (bias_file cfg = None ->
   Forall (fun J =>
             bcast_ok (length J)
               (length (NumPy.repeat_each (state_func_values o) nr)))
     (ens_func_values o)) ->
  exists s,
    gradient_levels cfg o nr = Some s /\
    length (g_level_gradient s) = length (ens_func_values o) /\
    forall l, (l < length (ens_func_values o))%nat ->
      (2 <= length (nth l (ens_func_values o) []))%nat ->
      forall k, (k < nx)%nat ->
        nth k (nth l (g_level_gradient s) []) 0 ==
          level_gradient_formula (aug_state ens) (deltaJ cfg o nr c l)
            (level_start (ens_func_values o) l)
            (length (nth l (ens_func_values o) [])) k.
Proof.
  intros Hstate Hwf Hne Hsizes Hbias Hbase.
  unfold gradient_levels. rewrite Hstate. cbn [aug_state_ens bind]. rewrite Hne.
  destruct (pert_state_spec nx ne_ (aug_state ens) Hwf) as (P & HP & HPwf & HPX).
  rewrite HP. cbn [bind].
  destruct (for_each_range_total (gradient_level cfg o nr P)
              (Invariants.gradient_inv cfg o nr ens nx c)
              (length (ens_func_values o))
              {| g_start_index := 0; g_level_gradient := [];
                 g_ens_func_values := ens_func_values o |})
    as (s & Hrun & Hinv).
  - unfold Invariants.gradient_inv. cbn. repeat split; try reflexivity.
    intros m Hm. lia.
  - intros l s Hl Hinv.
    apply (gradient_level_step cfg o nr ens nx ne_ c Hne Hsizes Hbias Hbase P l s
             HPwf HPX Hl Hinv).
  - exists s. split; [exact Hrun|]. destruct Hinv as (_ & Hlen & _ & _ & Hdone).
    split; [exact Hlen|]. intros l Hl _ k Hk. apply Hdone; assumption.
Qed.

(** The two-level run: level 1 holds the members [2] and [-2] with centred
    objective values [5] and [1]. *)
Lemma C1_level_gradient_witness :
  exists s,
    gradient_levels Examples.cfg_ml Examples.o_after_gradient 1 = Some s /\
    nth 0 (nth 1 (g_level_gradient s) []) 0 == 8.
Proof.
  destruct (C1_level_gradient Examples.cfg_ml Examples.o_after_gradient 1
              Examples.ens_after_gradient 1 4 1) as (s & Hs & _ & Hf).
  - reflexivity.
  - split; [reflexivity | repeat constructor].
  - reflexivity.
  - vm_compute. lia.
  - intros H. exfalso. apply H. reflexivity.
  - intros _. repeat constructor; right; left; reflexivity.
  - exists s. split; [exact Hs|].
    rewrite (Hf 1%nat) by (vm_compute; lia). vm_compute. reflexivity.
Defined.

End GradientEstimator.

(** ** The hessian estimator (C2) *)

Module HessianEstimator.
Import GaussianEnsemble.
Import GradientEstimator.

Lemma same_shape_wf (n m : nat) (A B : matrix) :
  wf_matrix n m A -> wf_matrix n m B -> NumPy.same_shape A B = true.
Proof.
  intros [HA HAr] [HB HBr]. revert n B HA HB HBr.
  induction HAr as [|r A Hr HAr IH]; intros n [|s B] HA HB HBr.
  - reflexivity.
  - simpl in *. lia.
  - simpl in *. lia.
  - inversion HBr; subst. cbn [NumPy.same_shape].
    apply andb_true_intro. split.
    + apply Nat.eqb_eq. congruence.
    + apply (IH (length A)); auto; simpl in HB; lia.
Qed.

Lemma wf_map2 (n m : nat) (f : Q -> Q -> Q) (A B : matrix) :
  wf_matrix n m A -> wf_matrix n m B ->
  wf_matrix n m (NumPy.map2 (NumPy.map2 f) A B).
Proof.
  intros [HA HAr] [HB HBr].
  split; [rewrite map2_length; lia|].
  clear HA HB. revert B HBr. induction A as [|r A IH]; intros [|s B] HBr;
    simpl; try constructor.
  - inversion HAr; inversion HBr; subst. rewrite map2_length. lia.
  - inversion HAr; inversion HBr; subst. apply IH; assumption.
Qed.

Lemma entry_map2 (n m : nat) (f : Q -> Q -> Q) (A B : matrix) (a b : nat) :
  wf_matrix n m A -> wf_matrix n m B -> (a < n)%nat -> (b < m)%nat ->
  entry (NumPy.map2 (NumPy.map2 f) A B) a b = f (entry A a b) (entry B a b).
Proof.
  intros HA HB Ha Hb. unfold entry.
  rewrite (nth_map2 (NumPy.map2 f) A B a [] [] [])
    by (destruct HA, HB; lia).
  apply nth_map2.
  - rewrite (wf_matrix_row n m A a HA Ha). exact Hb.
  - rewrite (wf_matrix_row n m B a HB Ha). exact Hb.
Qed.

Lemma wf_map (n m : nat) (f : Q -> Q) (A : matrix) :
  wf_matrix n m A -> wf_matrix n m (map (map f) A).
Proof.
  intros [HA HAr]. split; [rewrite length_map; exact HA|].
  rewrite Forall_map. eapply Forall_impl; [|exact HAr].
  intros r Hr. cbn beta. rewrite length_map. exact Hr.
Qed.

Lemma entry_map (n m : nat) (f : Q -> Q) (A : matrix) (a b : nat) :
  wf_matrix n m A -> (a < n)%nat -> (b < m)%nat ->
  entry (map (map f) A) a b = f (entry A a b).
Proof.
  intros HA Ha Hb. unfold entry.
  rewrite (nth_map_lt (A:=vec) (B:=vec) _ A a [] []) by (destruct HA; lia).
  apply nth_map_lt. rewrite (wf_matrix_row n m A a HA Ha). exact Hb.
Qed.

Lemma wf_outer (u v : vec) : wf_matrix (length u) (length v) (NumPy.outer u v).
Proof.
  unfold NumPy.outer. split; [apply length_map|].
  rewrite Forall_map. apply Forall_forall. intros x _. apply length_map.
Qed.

Lemma entry_outer (u v : vec) (a b : nat) :
  (a < length u)%nat -> (b < length v)%nat ->
  entry (NumPy.outer u v) a b = nth a u 0 * nth b v 0.
Proof.
  intros Ha Hb. unfold entry, NumPy.outer.
  rewrite (nth_map_lt (B:=vec) _ u a 0 []) by exact Ha.
  apply (nth_map_lt _ v b 0 0). exact Hb.
Qed.

Lemma wf_zeros_like (n m : nat) (C : matrix) :
  wf_matrix n m C -> wf_matrix n m (NumPy.zeros_like C).
Proof. apply wf_map. Qed.

Lemma entry_zeros_like (n m : nat) (C : matrix) (a b : nat) :
  wf_matrix n m C -> (a < n)%nat -> (b < m)%nat ->
  entry (NumPy.zeros_like C) a b = 0.
Proof. intros. unfold NumPy.zeros_like. rewrite (entry_map n m); auto. Qed.

(** Lines 249-251 add up [dJ[i] * (P[a, j] * P[b, j] - C[a, b])], with
    [j = start + i], in every entry. *)
Lemma hessian_sum_spec (nx ne_ : nat) (P C G0 : matrix) (dJ : vec)
    (start n : nat) :
  wf_matrix nx ne_ P -> wf_matrix nx nx C -> wf_matrix nx nx G0 ->
  (start + n <= ne_)%nat -> (n <= length dJ)%nat ->
  exists G, hessian_sum (Z.of_nat ne_) P C dJ start n G0 = Some G /\
    wf_matrix nx nx G /\
    forall a b, (a < nx)%nat -> (b < nx)%nat ->
      entry G a b ==
        entry G0 a b
        + bigsum n (fun i => nth i dJ 0
                             * (entry P a (start + i) * entry P b (start + i)
                                - entry C a b)).
Proof.
  intros HP HC HG0 Hrange HdJ. unfold hessian_sum.
  apply (for_each_range_total _
           (fun i G => wf_matrix nx nx G /\
              forall a b, (a < nx)%nat -> (b < nx)%nat ->
                entry G a b ==
                  entry G0 a b
                  + bigsum i (fun i => nth i dJ 0
                                * (entry P a (start + i) * entry P b (start + i)
                                   - entry C a b)))).
  - split; [exact HG0|]. intros a b Ha Hb. cbn [bigsum]. ring.
  - intros i G Hi [HG Hsum].
    rewrite (nth_error_nth_lt dJ i 0) by lia. cbn [bind]. rewrite Nat2Z.id.
    destruct (col_spec nx ne_ P (start + i) HP) as (c & Hc & Hclen & Hcnth);
      [lia|].
    rewrite Hc. cbn [bind].
    assert (Hout : wf_matrix nx nx (NumPy.outer c c))
      by (rewrite <- Hclen; apply wf_outer).
    unfold NumPy.msub_chk. rewrite (same_shape_wf nx nx _ _ Hout HC).
    cbn [bind]. eexists. split; [reflexivity|].
    assert (Hsub : wf_matrix nx nx (NumPy.msub (NumPy.outer c c) C))
      by (apply wf_map2; assumption).
    assert (Hsc : wf_matrix nx nx
                    (NumPy.mscale (nth i dJ 0)
                       (NumPy.msub (NumPy.outer c c) C)))
      by (apply wf_map; assumption).
    split; [apply wf_map2; assumption|].
    intros a b Ha Hb. unfold NumPy.madd, NumPy.vadd.
    rewrite (entry_map2 nx nx) by assumption.
    unfold NumPy.mscale, NumPy.vscale.
    rewrite (entry_map nx nx) by assumption.
    unfold NumPy.msub. rewrite (entry_map2 nx nx) by assumption.
    rewrite entry_outer by lia. rewrite !Hcnth by assumption.
    rewrite (Hsum a b Ha Hb). cbn [bigsum]. unfold entry. ring.
Qed.

Lemma wf_mdiv (n m : nat) (A : matrix) (q : Q) :
  wf_matrix n m A -> wf_matrix n m (NumPy.mdiv A q).
Proof. apply (wf_map n m (fun x => x / q)). Qed.

Lemma entry_mdiv (n m : nat) (A : matrix) (q : Q) (a b : nat) :
  wf_matrix n m A -> (a < n)%nat -> (b < m)%nat ->
  entry (NumPy.mdiv A q) a b = entry A a b / q.
Proof. apply (entry_map n m (fun x => x / q)). Qed.

(** The multilevel branch of the combination, entry by entry. *)
Lemma combine_matrices (cfg : settings) (ml : multilevel) (d : Z)
    (n m : nat) (zero : matrix) (lv : list matrix) (L : nat) :
  keys_en_multilevel cfg = Some ml ->
  wf_matrix n m zero ->
  (forall a b, (a < n)%nat -> (b < m)%nat -> entry zero a b == 0) ->
  (L <= length lv)%nat -> (L <= length (cov_wgt ml))%nat ->
  (forall l, (l < L)%nat -> wf_matrix n m (nth l lv [])) ->
  exists H,
    multilevel_combine NumPy.madd mscale_r NumPy.mdiv cfg d zero lv L = Some H /\
    wf_matrix n m H /\
    forall a b, (a < n)%nat -> (b < m)%nat ->
      entry H a b ==
        bigsum L (fun l => entry (nth l lv []) a b * nth l (cov_wgt ml) 0)
        / inject_Z d.
Proof.
  intros Hml Hz Hz0 HL Hw Hlv. unfold multilevel_combine. rewrite Hml.
  destruct (for_each_range_total
              (fun l acc =>
                 x <- nth_error lv l ;;
                 w <- nth_error (cov_wgt ml) l ;;
                 Some (NumPy.madd acc (mscale_r x w)))
              (fun l acc => wf_matrix n m acc /\
                 forall a b, (a < n)%nat -> (b < m)%nat ->
                   entry acc a b ==
                     bigsum l (fun l => entry (nth l lv []) a b
                                        * nth l (cov_wgt ml) 0))
              L zero) as (T & HT & HTwf & HTsum).
  - split; [exact Hz|]. intros a b Ha Hb. cbn [bigsum]. apply Hz0; assumption.
  - intros l acc Hl [Hacc Hsum].
    rewrite (nth_error_nth_lt lv l []) by lia.
    rewrite (nth_error_nth_lt (cov_wgt ml) l 0) by lia. cbn [bind].
    eexists. split; [reflexivity|].
    assert (Hs : wf_matrix n m (mscale_r (nth l lv []) (nth l (cov_wgt ml) 0)))
      by (apply (wf_map n m (fun x => x * nth l (cov_wgt ml) 0)), Hlv, Hl).
    split; [apply wf_map2; assumption|].
    intros a b Ha Hb. unfold NumPy.madd, NumPy.vadd.
    rewrite (entry_map2 n m) by assumption.
    unfold mscale_r, vscale_r.
    rewrite (entry_map n m (fun x => x * nth l (cov_wgt ml) 0))
      by (auto using Hlv).
    rewrite (Hsum a b Ha Hb). cbn [bigsum]. reflexivity.
  - rewrite HT. cbn [bind]. eexists. split; [reflexivity|].
    split; [apply wf_mdiv; exact HTwf|].
    intros a b Ha Hb. rewrite (entry_mdiv n m) by assumption.
    rewrite (HTsum a b Ha Hb). reflexivity.
Qed.

Section Levels.
Variable _aux_input : settings -> obj -> nat.
Variable cfg : settings.
Variable o : obj.
Variable ens : list (String.string * matrix).
Variables nx ne_ : nat.

Local Abbreviation E := (aug_state ens).
Local Abbreviation Js := (ens_func_values o).
Local Abbreviation L := (length (ens_func_values o)).
Local Abbreviation base :=
  (NumPy.repeat_each (state_func_values o) (_aux_input cfg o)).
Local Abbreviation levels_inv :=
  (Invariants.hessian_inv _aux_input cfg o ens nx).

Hypothesis Hstate : state o = EnsState ens.
Hypothesis Hwf : wf_matrix nx ne_ E.
Hypothesis Hne : ne o = Z.of_nat ne_.
Hypothesis Hsizes : (level_start Js L <= ne_)%nat.
Hypothesis Hcov : wf_matrix nx nx (cov o).
Hypothesis Hbase : Forall (fun J => bcast_ok (length J) (length base)) Js.

Lemma hessian_level_step (P : matrix) (l : nat) (s : nat * list matrix) :
  wf_matrix nx ne_ P ->
  (forall k j, (k < nx)%nat -> (j < ne_)%nat -> entry P k j = deltaX E k j) ->
  (l < L)%nat -> levels_inv l s ->
  exists s', hessian_level o (_aux_input cfg o) P l s = Some s'
             /\ levels_inv (S l) s'.
Proof.
  intros HP HPX Hl. destruct s as [start lv]. intros (Hstart & Hlen & Hdone).
  cbn [fst snd] in Hstart, Hlen, Hdone. unfold hessian_level.
  rewrite (nth_error_nth_lt Js l []) by exact Hl. cbn [bind].
  rewrite Forall_forall in Hbase.
  destruct (bcast2_spec Qminus (nth l Js []) base) as (d & Hd & Hdlen & Hdnth).
  { apply Hbase, nth_In. exact Hl. }
  rewrite Hd. cbn [bind]. rewrite Hne.
  assert (Hnext : level_start Js (S l)
                  = (level_start Js l + length (nth l Js []))%nat)
    by (apply level_start_S; exact Hl).
  assert (Hbound : (level_start Js (S l) <= ne_)%nat).
  { etransitivity; [|exact Hsizes]. apply level_start_mono; lia. }
  destruct (hessian_sum_spec nx ne_ P (cov o) (NumPy.zeros_like (cov o)) d
              start (length (nth l Js [])) HP Hcov
              (wf_zeros_like nx nx _ Hcov))
    as (G & HG & HGwf & HGsum).
  { rewrite Hstart. lia. }
  { exact Hdlen. }
  rewrite HG. cbn [bind]. eexists. split; [reflexivity|].
  unfold Invariants.hessian_inv. cbn [fst snd].
  split; [rewrite Hstart; symmetry; exact Hnext|].
  split; [rewrite length_app; simpl; lia|].
  intros m Hm. destruct (Nat.eq_dec m l) as [->|Hml].
  - rewrite app_nth2, Hlen, Nat.sub_diag by lia. cbn [nth].
    split; [apply wf_mdiv; exact HGwf|].
    intros a b Ha Hb. rewrite (entry_mdiv nx nx) by assumption.
    unfold level_hessian_formula. rewrite (HGsum a b Ha Hb).
    rewrite (entry_zeros_like nx nx) by assumption.
    apply Qmult_comp; [|reflexivity]. rewrite Qplus_0_l.
    apply bigsum_ext. intros i Hi. rewrite Hdnth by exact Hi.
    rewrite !HPX by (rewrite ?Hstart; lia). rewrite Hstart.
    unfold deltaJ_base, entry. reflexivity.
  - rewrite app_nth1 by lia. apply Hdone. lia.
Qed.

Lemma hessian_levels_spec :
  exists lv, hessian_levels _aux_input cfg o = Some lv /\
    length lv = L /\
    forall m, (m < L)%nat ->
      wf_matrix nx nx (nth m lv []) /\
      forall a b, (a < nx)%nat -> (b < nx)%nat ->
        entry (nth m lv []) a b ==
          level_hessian_formula E (cov o) (deltaJ_base base (nth m Js []))
            (level_start Js m) (length (nth m Js [])) a b.
Proof.
  unfold hessian_levels. rewrite Hstate. cbn [aug_state_ens bind]. rewrite Hne.
  destruct (pert_state_spec nx ne_ (aug_state ens) Hwf) as (P & HP & HPwf & HPX).
  rewrite HP. cbn [bind].
  destruct (for_each_range_total (hessian_level o (_aux_input cfg o) P)
              levels_inv L (0%nat, [])) as ([start lv] & Hrun & Hinv).
  - unfold Invariants.hessian_inv. cbn. repeat split; intros; lia.
  - intros l s Hl Hinv. apply hessian_level_step; assumption.
  - rewrite Hrun. cbn [bind snd]. exists lv.
    split; [reflexivity|]. destruct Hinv as (_ & H2 & H3). split; assumption.
Qed.

End Levels.

(** What [gradient] leaves in the object when bias correction is off: the
    ensemble it generated, the covariance it was given, and the objective
    values of that ensemble. *)
Lemma gradient_stores (function : matrix -> list vec)
    (_aux_input : settings -> obj -> nat) (bias_func : obj -> vec)
    (cfg : settings) (o : obj) (x : vec) (C : matrix) (draws : nat -> matrix)
    (g : vec) (o1 : obj) :
  bias_file cfg = None ->
  gradient function _aux_input bias_func cfg o x C draws = Some (g, o1) ->
  exists ens,
    _gen_state_ensemble cfg
      (set_ne (set_cov (set_state o (update_optim_state x (state o))) C)
         (num_samples cfg)) draws = Some ens /\
    state o1 = EnsState ens /\
    cov o1 = C /\
    ne o1 = num_samples cfg /\
    ens_func_values o1 = function (aug_state ens) /\
    state_func_values o1 = state_func_values o.
Proof.
  intros Hb Hg. unfold gradient in Hg. rewrite Hb in Hg.
  destruct (_gen_state_ensemble cfg _ draws) as [ens|] eqn:Egen;
    cbn [bind] in Hg; [|discriminate].
  exists ens. split; [reflexivity|].
  unfold gradient_estimate in Hg. cbn [state set_ens_func_values set_state
    aug_state_ens bind] in Hg.
  match type of Hg with
  | context [gradient_levels ?c ?o' ?n] =>
      destruct (gradient_levels c o' n) as [s|] eqn:Elev
  end; cbn [bind] in Hg; [|discriminate].
  match type of Hg with
  | context [multilevel_combine ?a ?b ?c ?d ?e ?f ?g ?h] =>
      destruct (multilevel_combine a b c d e f g h) as [g'|]
  end; cbn [bind] in Hg; [|discriminate].
  injection Hg as <- <-.
  assert (Hvals : g_ens_func_values s = function (aug_state ens)).
  { unfold gradient_levels in Elev.
    cbn [state set_ens_func_values set_state aug_state_ens bind] in Elev.
    match type of Elev with
    | context [pert_state ?n ?E] => destruct (pert_state n E) as [P|]
    end; cbn [bind] in Elev; [|discriminate].
    apply (for_each_range_inv _
             (fun _ s => g_ens_func_values s = function (aug_state ens))
             _ _ _ Elev); [reflexivity|].
    intros l s0 s1 _ Hinv Hstep. unfold gradient_level in Hstep.
    destruct (nth_error (g_ens_func_values s0) l) as [J|] eqn:EJ;
      cbn [bind] in Hstep; [|discriminate].
    unfold pert_obj_func in Hstep. rewrite Hb in Hstep.
    match type of Hstep with
    | context [NumPy.bcast2 ?f ?a ?b] => destruct (NumPy.bcast2 f a b) as [d|]
    end; cbn [bind] in Hstep; [|discriminate].
    match type of Hstep with
    | context [gradient_sum ?a ?b ?c ?d ?e ?f] =>
        destruct (gradient_sum a b c d e f) as [gm|]
    end; cbn [bind] in Hstep; [|discriminate].
    injection Hstep as <-. cbn [g_ens_func_values]. rewrite <- Hinv.
    clear - EJ. revert l EJ. generalize (g_ens_func_values s0).
    induction l as [|y l IH]; intros [|i] E; simpl in *; try discriminate.
    - congruence.
    - f_equal. apply IH. exact E. }
  cbn. rewrite Hvals. repeat split; reflexivity.
Qed.

(** C2.  After a call of [gradient] without bias correction, [hessian]
    works on what that call stored: the ensemble [E] it generated, the
    objective values [function E] and the covariance [C] it was given.  For
    every level [l] with at least two members the level hessian is
    [(sum_i deltaJ[i] * (outer(deltaX[:, i], deltaX[:, i]) - C)) / (n_l - 1)];
    in a multilevel configuration the result is the [cov_wgt]-weighted sum of
    the level hessians divided by the ensemble size.  The method takes no
    random draw and no objective function, and returns the object as it
    found it. *)
Theorem C2_hessian_reuses_gradient_ensemble
    (function : matrix -> list vec) (_aux_input : settings -> obj -> nat)
    (bias_func : obj -> vec) (cfg : settings) (o : obj) (x : vec) (C : matrix)
    (draws : nat -> matrix) (g : vec) (o1 : obj)
    (ens : list (String.string * matrix)) (nx ne_ : nat) :
  let E := aug_state ens in
  let Js := function E in
  let L := length Js in
  let base :=
    NumPy.repeat_each (state_func_values o1) (_aux_input cfg o1) in
  bias_file cfg = None ->
  gradient function _aux_input bias_func cfg o x C draws = Some (g, o1) ->
  state o1 = EnsState ens ->
  wf_matrix nx ne_ E ->
  num_samples cfg = Z.of_nat ne_ ->
  (level_start Js L <= ne_)%nat ->
  wf_matrix nx nx C ->
  Forall (fun J => bcast_ok (length J) (length base)) Js ->
  cov o1 = C /\ ens_func_values o1 = Js /\
  (forall H o2, hessian _aux_input cfg o1 = Some (H, o2) -> o2 = o1) /\
  exists lv,
    hessian_levels _aux_input cfg o1 = Some lv /\
    length lv = L /\
    (forall l, (l < L)%nat -> (2 <= length (nth l Js []))%nat ->
       forall a b, (a < nx)%nat -> (b < nx)%nat ->
         entry (nth l lv []) a b ==
           level_hessian_formula E C (deltaJ_base base (nth l Js []))
             (level_start Js l) (length (nth l Js [])) a b) /\
    (forall ml, keys_en_multilevel cfg = Some ml ->
       (L <= length (cov_wgt ml))%nat ->
       exists H,
         hessian _aux_input cfg o1 = Some (H, o1) /\
         forall a b, (a < nx)%nat -> (b < nx)%nat ->
           entry H a b ==
             bigsum L (fun l => entry (nth l lv []) a b
                                * nth l (cov_wgt ml) 0)
             / inject_Z (num_samples cfg)).
Proof.
  intros E Js L base Hb Hg Hstate Hwf Hns Hsizes HC Hbase.
  destruct (gradient_stores _ _ _ _ _ _ _ _ _ _ Hb Hg)
    as (ens' & _ & Hst & Hcov & Hne & Hvals & _).
  rewrite Hstate in Hst. injection Hst as <-.
  split; [exact Hcov|]. split; [exact Hvals|]. split.
  { intros H o2 Hh. unfold hessian in Hh.
    destruct (hessian_levels _aux_input cfg o1) as [lv0|]; cbn [bind] in Hh;
      [|discriminate].
    destruct (multilevel_combine _ _ _ cfg _ _ lv0 _) as [H0|];
      cbn [bind] in Hh; [|discriminate].
    injection Hh as _ <-. reflexivity. }
  destruct (hessian_levels_spec _aux_input cfg o1 ens nx ne_ Hstate Hwf)
    as (lv & Hlv & Hlen & Hform).
  { rewrite Hne. exact Hns. }
  { rewrite Hvals. exact Hsizes. }
  { rewrite Hcov. exact HC. }
  { rewrite Hvals. exact Hbase. }
  rewrite Hvals, Hcov in *. fold E Js L in Hlen, Hform.
  exists lv. split; [exact Hlv|]. split; [exact Hlen|]. split.
  - intros l Hl _ a b Ha Hz. apply (Hform l Hl); assumption.
  - intros ml Hml Hw. unfold hessian. rewrite Hlv. cbn [bind].
    rewrite Hvals, Hcov, Hne. fold E Js L.
    destruct (combine_matrices cfg ml (num_samples cfg) nx nx
                (NumPy.zeros_like C) lv L Hml) as (H & HH & _ & Hent).
    + apply wf_zeros_like. exact HC.
    + intros a b Ha Hz. rewrite (entry_zeros_like nx nx) by assumption.
      reflexivity.
    + lia.
    + exact Hw.
    + intros l Hl. apply (Hform l Hl).
    + rewrite HH. cbn [bind]. exists H. split; [reflexivity | exact Hent].
Qed.

(** The two-level run: the level hessians are [0] and [18], the weights
    [1] and [1], the ensemble size [4]. *)
Lemma C2_hessian_reuses_gradient_ensemble_witness :
  exists H,
    hessian Examples.nr1 Examples.cfg_ml Examples.o_after_gradient
      = Some (H, Examples.o_after_gradient) /\
    entry H 0 0 == 9 # 2.
Proof.
  destruct (C2_hessian_reuses_gradient_ensemble Examples.objective2
              Examples.nr1 Examples.no_bias Examples.cfg_ml Examples.o_init
              [0] [[1]] Examples.draws4 Examples.g_after_gradient
              Examples.o_after_gradient Examples.ens_after_gradient 1 4)
    as (_ & _ & _ & lv & _ & _ & _ & Hml).
  - reflexivity.
  - vm_compute. reflexivity.
  - reflexivity.
  - split; [reflexivity | repeat constructor].
  - reflexivity.
  - vm_compute. lia.
  - split; [reflexivity | repeat constructor].
  - repeat constructor; right; left; reflexivity.
  - destruct (Hml _ eq_refl) as (H & HH & _); [vm_compute; lia|].
    exists H. split; [exact HH|].
    vm_compute in HH. injection HH as <-. vm_compute. reflexivity.
Defined.

End HessianEstimator.

(** ** The ensemble sampler (C4) *)

Module EnsembleSampler.
Import GaussianEnsemble.

Lemma inject_Z_length_cons (x : Q) (r : vec) :
  inject_Z (Z.of_nat (length (x :: r))) == inject_Z (Z.of_nat (length r)) + 1.
Proof.
  cbn [length]. rewrite Nat2Z.inj_succ. unfold Z.succ.
  rewrite inject_Z_plus. reflexivity.
Qed.

Lemma sum_map_shift (a : Q) (r : vec) :
  NumPy.sum (map (fun t => a + t) r)
  == inject_Z (Z.of_nat (length r)) * a + NumPy.sum r.
Proof.
  induction r as [|x r IH].
  - unfold NumPy.sum. cbn. ring.
  - cbn [map]. rewrite !sum_cons, IH, inject_Z_length_cons. ring.
Qed.

(** Line 387 gives every row of the block the mean it was asked for. *)
Lemma shifted_row_mean (m : Q) (r : vec) :
  (1 <= length r)%nat ->
  NumPy.mean (map (fun t => m + t - NumPy.mean r) r) == m.
Proof.
  intros Hlen. unfold NumPy.mean at 1. rewrite length_map.
  assert (Hn : ~ inject_Z (Z.of_nat (length r)) == 0).
  { intros H. apply (Qlt_not_eq 0 (inject_Z (Z.of_nat (length r)))).
    - unfold Qlt. cbn [Qnum Qden inject_Z]. lia.
    - symmetry. exact H. }
  assert (Hmap : NumPy.sum (map (fun t => m + t - NumPy.mean r) r)
                 == NumPy.sum (map (fun t => (m - NumPy.mean r) + t) r)).
  { generalize (NumPy.mean r) as c. intros c. clear.
    induction r as [|x r IH]; [reflexivity|].
    cbn [map]. rewrite !sum_cons, IH. ring. }
  rewrite Hmap, sum_map_shift. unfold NumPy.mean. field. exact Hn.
Qed.

Lemma clip_within (x lo hi : Q) : lo <= x -> x <= hi -> NumPy.clip x lo hi = x.
Proof.
  intros Hlo Hhi. unfold NumPy.clip, Qmax, Qmin, GenericMinMax.gmax,
    GenericMinMax.gmin.
  destruct (Qcompare x lo) eqn:E1.
  - destruct (Qcompare x hi) eqn:E2; try reflexivity.
    apply Qgt_alt in E2. exfalso. apply (Qlt_not_le _ _ E2 Hhi).
  - apply Qlt_alt in E1. exfalso. apply (Qlt_not_le _ _ E1 Hlo).
  - destruct (Qcompare x hi) eqn:E2; try reflexivity.
    apply Qgt_alt in E2. exfalso. apply (Qlt_not_le _ _ E2 Hhi).
Qed.

Lemma map_clip_within (lo hi : Q) (M : matrix) :
  Forall (Forall (fun x => lo <= x /\ x <= hi)) M ->
  map (map (fun x => NumPy.clip x lo hi)) M = M.
Proof.
  induction 1 as [|r M Hr HM IH]; [reflexivity|].
  cbn [map]. rewrite IH. f_equal.
  induction Hr as [|x r [Hlo Hhi] Hr IHr]; [reflexivity|].
  cbn [map]. rewrite IHr, clip_within by assumption. reflexivity.
Qed.

Lemma clip_ensemble_unclipped (cfg : settings) (i : nat) (M : matrix) :
  unclipped cfg i M -> clip_ensemble cfg i M = Some M.
Proof.
  intros H. unfold clip_ensemble, unclipped in *.
  destruct (truthy (lb cfg) && truthy (ub cfg)); [|reflexivity].
  destruct (H eq_refl) as (lo & hi & Hb & HM).
  destruct (transform cfg).
  - destruct Hb as [-> ->]. rewrite map_clip_within by exact HM. reflexivity.
  - destruct Hb as [-> ->]. cbn [bind].
    rewrite map_clip_within by exact HM. reflexivity.
Qed.

Lemma gen_blocks_unclipped (cfg : settings) (draws : nat -> matrix) (ne_ : nat)
    (s : list (String.string * vec)) (i0 : nat) :
  (forall i, (i < length s)%nat ->
     wf_matrix (length (snd (nth i s ("", [])))) ne_ (draws (i0 + i)%nat) /\
     unclipped cfg (i0 + i)
       (shifted_ensemble (snd (nth i s ("", []))) (draws (i0 + i)%nat))) ->
  gen_blocks cfg draws i0 s
  = Some (map (fun ib => (fst (snd ib),
                          shifted_ensemble (snd (snd ib)) (draws (fst ib))))
            (combine (seq i0 (length s)) s)).
Proof.
  revert i0. induction s as [|[name mean] s IH]; intros i0 H; [reflexivity|].
  cbn [gen_blocks length seq combine map fst snd].
  destruct (H 0%nat ltac:(simpl; lia)) as [_ Hu].
  rewrite Nat.add_0_r in Hu. cbn [nth snd] in Hu.
  rewrite (clip_ensemble_unclipped _ _ _ Hu). cbn [bind].
  rewrite IH; [reflexivity|].
  intros i Hi. specialize (H (S i) ltac:(simpl; lia)).
  rewrite Nat.add_succ_r in H. exact H.
Qed.

(** C4, as the code has it.  When the clipping changes no member (there are
    no bounds, or every recentred member lies within them), the ensemble
    [_gen_state_ensemble] returns is the recentred draw itself and has, for
    every state variable and every component, an empirical mean over the
    members equal to the input mean. *)
Theorem C4_mean_preserved_unclipped (cfg : settings) (o : obj)
    (draws : nat -> matrix) (s : list (String.string * vec)) (ne_ : nat) :
  state o = MeanState s ->
  (1 <= ne_)%nat ->
  (forall i, (i < length s)%nat ->
     wf_matrix (length (snd (nth i s ("", [])))) ne_ (draws i) /\
     unclipped cfg i (shifted_ensemble (snd (nth i s ("", []))) (draws i))) ->
  exists ens,
    _gen_state_ensemble cfg o draws = Some ens /\
    length ens = length s /\
    forall i, (i < length s)%nat ->
      fst (nth i ens ("", [])) = fst (nth i s ("", [])) /\
      snd (nth i ens ("", []))
        = shifted_ensemble (snd (nth i s ("", []))) (draws i) /\
      forall k, (k < length (snd (nth i s ("", []))))%nat ->
        NumPy.mean (nth k (snd (nth i ens ("", []))) [])
        == nth k (snd (nth i s ("", []))) 0.
Proof.
  intros Hstate Hne H. unfold _gen_state_ensemble. rewrite Hstate.
  rewrite (gen_blocks_unclipped cfg draws ne_ s 0) by exact H.
  eexists. split; [reflexivity|].
  split; [rewrite length_map, length_combine, length_seq; lia|].
  intros i Hi.
  rewrite (nth_map_lt _ _ i (0%nat, ("", [])) ("", []))
    by (rewrite length_combine, length_seq; lia).
  rewrite combine_nth by (rewrite length_seq; reflexivity).
  rewrite seq_nth by exact Hi. cbn [fst snd Nat.add].
  split; [reflexivity|]. split; [reflexivity|]. intros k Hk.
  destruct (H i Hi) as [[Hrows Hcols] _].
  unfold shifted_ensemble.
  rewrite (nth_map2 _ _ _ k 0 [] []) by lia.
  apply shifted_row_mean.
  rewrite Forall_forall in Hcols. rewrite (Hcols (nth k (draws i) [])); [lia|].
  apply nth_In. lia.
Qed.

(** Without bounds, two members around the mean [9/10]. *)
Lemma C4_mean_preserved_unclipped_witness :
  exists ens,
    _gen_state_ensemble
      {| keys_en_multilevel := None; num_samples := 2; lb := []; ub := [];
         transform := true; bias_file := None |}
      Examples.o_clip Examples.draws_clip = Some ens /\
    NumPy.mean (nth 0 (snd (nth 0 ens ("", []))) []) == 9 # 10.
Proof.
  destruct (C4_mean_preserved_unclipped
              {| keys_en_multilevel := None; num_samples := 2; lb := [];
                 ub := []; transform := true; bias_file := None |}
              Examples.o_clip Examples.draws_clip [("x", [9 # 10])] 2)
    as (ens & Hens & _ & Hmean).
  - reflexivity.
  - lia.
  - intros i Hi. simpl in Hi. assert (i = 0%nat) as -> by lia. split.
    + split; [reflexivity | repeat constructor].
    + intros Hb. discriminate Hb.
  - exists ens. split; [exact Hens|].
    destruct (Hmean 0%nat) as (_ & _ & Hk); [simpl; lia|].
    apply (Hk 0%nat). simpl. lia.
Defined.

(** C4 fails as stated: with the bounds [[0, 1]] the member drawn above the
    upper bound is clipped after the recentring, and the mean of the
    returned ensemble is [7/10], not the input mean [9/10]. *)
Lemma C4_counterexample :
  exists row,
    _gen_state_ensemble Examples.cfg_clip Examples.o_clip Examples.draws_clip
      = Some [("x", [row])] /\
    length row = 2%nat /\
    NumPy.mean row == 7 # 10 /\
    ~ NumPy.mean row == 9 # 10.
Proof.
  eexists. split; [vm_compute; reflexivity|].
  split; [reflexivity|]. split; [vm_compute; reflexivity|].
  vm_compute. discriminate.
Qed.

End EnsembleSampler.

(** ** The line-search controller (C3, C8) *)

Module Controller.
Import LineSearch.

Section Proofs.
Variable W : Type.
Variable fun_ : vec -> matrix -> W -> vec * W.
Variable jac : vec -> matrix -> W -> vec * W.
Variable hess : W -> matrix * W.
Variable clip_state : vec -> vec.
Variable line_search :
  (vec -> closure_state W -> Q * closure_state W) ->
  (vec -> closure_state W -> vec * closure_state W) ->
  vec -> vec -> vec -> Q -> Q -> Q -> Q -> nat ->
  closure_state W -> ls_result * closure_state W.
Variable get_sym_pos_semidef : matrix -> matrix.

Local Abbreviation calc_update :=
  (calc_update W fun_ jac hess clip_state line_search get_sym_pos_semidef).
Local Abbreviation search := (search W fun_ jac hess clip_state line_search).
Local Abbreviation accept := (accept W clip_state get_sym_pos_semidef).
Local Abbreviation shrink := (shrink W).
Local Abbreviation info := (info W).
Local Abbreviation search_defined := (search_defined W jac hess).
Local Abbreviation after_retries :=
  (after_retries W fun_ jac hess clip_state line_search).

(** One unfolding of the recursion. *)
Lemma calc_update_unfold (o : options) (st : ls_state W) (i : nat) :
  calc_update o st i =
    match search o st with
    | None => None
    | Some (r, st1) =>
        match step_size (sr_ls r) with
        | Some step =>
            match accept o st1 r step with
            | Some st2 => Some (true, st2)
            | None => None
            end
        | None =>
            if (i <? iter_resamp_max o)%nat
            then calc_update o (shrink o (info st1 (Info msg_not_satisfied)))
                   (S i)
            else Some (false, info st1 (Info msg_not_satisfied))
        end
    end.
Proof.
  rewrite calc_update_equation_1.
  destruct (search o st) as [[r st1]|]; cbn -[Nat.ltb]; [|reflexivity].
  destruct (step_size (sr_ls r)) as [step|]; cbn -[Nat.ltb].
  - destruct (accept o st1 r step); reflexivity.
  - destruct (lt_dec i (iter_resamp_max o)) as [Hlt|Hge]; cbn -[Nat.ltb].
    + apply Nat.ltb_lt in Hlt. rewrite Hlt. reflexivity.
    + apply Nat.ltb_nlt in Hge. rewrite Hge. reflexivity.
Qed.

(** What one search (lines 85-113) leaves behind: the covariance, the mean
    state and the carried-over gradient are untouched, the log has one more
    search message, and the hessian handed on is the one [hess] returned,
    scaled by its infinity norm when [normalize] is set. *)
Lemma search_inv (o : options) (st : ls_state W) (r : search_result)
    (st1 : ls_state W) :
  search o st = Some (r, st1) ->
  cov st1 = cov st /\
  log st1 = log st ++ [Info msg_search] /\
  pk_from_ls st1 = pk_from_ls st /\
  (exists w, if normalize o
             then normalized (fst (hess w)) = Some (sr_hessian r)
             else sr_hessian r = fst (hess w)) /\
  exists f g xk pk gfk old k,
    sr_ls r = fst (line_search f g xk pk gfk old (c1 o) (c2 o) (alpha_max o)
                     (alpha_iter_max o) k).
Proof.
  unfold LineSearch.search. intros H.
  destruct (pk_from_ls st) as [pk0|] eqn:Epk.
  - destruct (hess (ext st)) as [H0 w0] eqn:Eh.
    destruct (normalize o) eqn:En.
    + destruct (normalized H0) as [Hn|] eqn:EHn; cbn [bind] in H;
        [|discriminate].
      destruct (NumPy.norm_inf pk0) as [n|]; cbn [bind] in H; [|discriminate].
      match type of H with
      | context [line_search ?f ?g ?a ?b ?c ?d ?e1 ?e2 ?e3 ?e4 ?k] =>
          destruct (line_search f g a b c d e1 e2 e3 e4 k)
            as [res [[nf nj] w1]] eqn:Els
      end.
      injection H as <- <-. cbn. rewrite Epk. repeat split.
      * exists (ext st). rewrite Eh. exact EHn.
      * do 7 eexists. rewrite Els. reflexivity.
    + cbn [bind] in H.
      match type of H with
      | context [line_search ?f ?g ?a ?b ?c ?d ?e1 ?e2 ?e3 ?e4 ?k] =>
          destruct (line_search f g a b c d e1 e2 e3 e4 k)
            as [res [[nf nj] w1]] eqn:Els
      end.
      injection H as <- <-. cbn. rewrite Epk. repeat split.
      * exists (ext st). rewrite Eh. reflexivity.
      * do 7 eexists. rewrite Els. reflexivity.
  - unfold _jac, closure_of in H.
    destruct (jac (clip_state (mean_state st)) (cov st) (ext st))
      as [g0 wj] eqn:Ej.
    cbn [with_closure ext nfev njev] in H.
    destruct (hess wj) as [H0 w0] eqn:Eh.
    destruct (normalize o) eqn:En.
    + destruct (normalized H0) as [Hn|] eqn:EHn; cbn [bind] in H;
        [|discriminate].
      destruct (NumPy.norm_inf g0) as [n|]; cbn [bind] in H; [|discriminate].
      match type of H with
      | context [line_search ?f ?g ?a ?b ?c ?d ?e1 ?e2 ?e3 ?e4 ?k] =>
          destruct (line_search f g a b c d e1 e2 e3 e4 k)
            as [res [[nf nj] w1]] eqn:Els
      end.
      injection H as <- <-. cbn. rewrite Epk. repeat split.
      * exists wj. rewrite Eh. exact EHn.
      * do 7 eexists. rewrite Els. reflexivity.
    + cbn [bind] in H.
      match type of H with
      | context [line_search ?f ?g ?a ?b ?c ?d ?e1 ?e2 ?e3 ?e4 ?k] =>
          destruct (line_search f g a b c d e1 e2 e3 e4 k)
            as [res [[nf nj] w1]] eqn:Els
      end.
      injection H as <- <-. cbn. rewrite Epk. repeat split.
      * exists wj. rewrite Eh. reflexivity.
      * do 7 eexists. rewrite Els. reflexivity.
Qed.

Lemma search_total (o : options) (st : ls_state W) :
  search_defined o st -> exists r st1, search o st = Some (r, st1).
Proof.
  unfold LineSearch.search_defined, LineSearch.search. intros Hdef.
  assert (Hnorm : forall H0, H0 <> [] -> exists Hn, normalized H0 = Some Hn).
  { intros [|r0 H0] Hne; [congruence|]. unfold normalized. cbn. eauto. }
  assert (Hvnorm : forall v : vec, v <> [] -> exists n, NumPy.norm_inf v = Some n).
  { intros [|x v] Hne; [congruence|]. cbn. eauto. }
  destruct (pk_from_ls st) as [pk0|] eqn:Epk.
  - destruct (hess (ext st)) as [H0 w0] eqn:Eh.
    destruct (normalize o) eqn:En.
    + destruct (Hdef eq_refl) as (Hh & _ & Hpk).
      destruct (Hnorm H0) as [Hn EHn].
      { specialize (Hh (ext st)). rewrite Eh in Hh. exact Hh. }
      destruct (Hvnorm pk0) as [n En0]; [congruence|].
      rewrite EHn, En0. cbn [bind].
      match goal with
      | |- context [line_search ?f ?g ?a ?b ?c ?d ?e1 ?e2 ?e3 ?e4 ?k] =>
          destruct (line_search f g a b c d e1 e2 e3 e4 k) as [res k1]
      end.
      eauto.
    + cbn [bind].
      match goal with
      | |- context [line_search ?f ?g ?a ?b ?c ?d ?e1 ?e2 ?e3 ?e4 ?k] =>
          destruct (line_search f g a b c d e1 e2 e3 e4 k) as [res k1]
      end.
      eauto.
  - unfold _jac, closure_of.
    destruct (jac (clip_state (mean_state st)) (cov st) (ext st))
      as [g0 wj] eqn:Ej.
    cbn [with_closure ext nfev njev].
    destruct (hess wj) as [H0 w0] eqn:Eh.
    destruct (normalize o) eqn:En.
    + destruct (Hdef eq_refl) as (Hh & Hj & _).
      destruct (Hnorm H0) as [Hn EHn].
      { specialize (Hh wj). rewrite Eh in Hh. exact Hh. }
      destruct (Hvnorm g0) as [n En0].
      { specialize (Hj (clip_state (mean_state st)) (cov st) (ext st)).
        rewrite Ej in Hj. exact Hj. }
      rewrite EHn, En0. cbn [bind].
      match goal with
      | |- context [line_search ?f ?g ?a ?b ?c ?d ?e1 ?e2 ?e3 ?e4 ?k] =>
          destruct (line_search f g a b c d e1 e2 e3 e4 k) as [res k1]
      end.
      eauto.
    + cbn [bind].
      match goal with
      | |- context [line_search ?f ?g ?a ?b ?c ?d ?e1 ?e2 ?e3 ?e4 ?k] =>
          destruct (line_search f g a b c d e1 e2 e3 e4 k) as [res k1]
      end.
      eauto.
Qed.

Lemma search_attempts_app (l : list log_entry) (e : log_entry) :
  search_attempts (l ++ [e])
  = (search_attempts l + if is_search e then 1 else 0)%nat.
Proof.
  unfold search_attempts. rewrite filter_app, length_app. cbn [filter].
  destruct (is_search e); reflexivity.
Qed.

Lemma retries_app (l : list log_entry) (e : log_entry) :
  retries (l ++ [e]) = (retries l + if is_resampling e then 1 else 0)%nat.
Proof.
  unfold retries. rewrite filter_app, length_app. cbn [filter].
  destruct (is_resampling e); reflexivity.
Qed.

(** A call whose searches all fail, started with [iter_resamp = i] and
    so with [k] retries left. *)
Lemma failing_run (o : options) (k : nat) :
  forall (st : ls_state W) (i : nat),
    (iter_resamp_max o - i = k)%nat -> (i <= iter_resamp_max o)%nat ->
    search_defined o st ->
    (forall j st_j r st1,
       (j <= k)%nat -> after_retries o j st = Some st_j ->
       search o st_j = Some (r, st1) -> step_size (sr_ls r) = None) ->
    exists st',
      calc_update o st i = Some (false, st') /\
      search_attempts (log st') = (search_attempts (log st) + k + 1)%nat /\
      retries (log st') = (retries (log st) + k)%nat /\
      cov st' = shrunk o k (cov st) /\
      ((0 < k)%nat -> pk_from_ls st' = None) /\
      (k = 0%nat -> pk_from_ls st' = pk_from_ls st).
Proof.
  induction k as [|k IH]; intros st i Hk Hi Hdef Hfail.
  - destruct (search_total o st Hdef) as (r & st1 & Hs).
    destruct (search_inv o st r st1 Hs) as (Hcov & Hlog & Hpk & _).
    assert (Hnone := Hfail 0%nat st r st1 (le_n 0) eq_refl Hs).
    rewrite calc_update_unfold, Hs, Hnone.
    replace (i <? iter_resamp_max o)%nat with false
      by (symmetry; apply Nat.ltb_ge; lia).
    eexists. split; [reflexivity|]. cbn [LineSearch.info log cov pk_from_ls].
    rewrite search_attempts_app, retries_app, Hlog, search_attempts_app,
      retries_app.
    cbn. repeat split; try lia; auto.
  - destruct (search_total o st Hdef) as (r & st1 & Hs).
    destruct (search_inv o st r st1 Hs) as (Hcov & Hlog & Hpk & _).
    assert (Hnone := Hfail 0%nat st r st1 (Nat.le_0_l _) eq_refl Hs).
    rewrite calc_update_unfold, Hs, Hnone.
    replace (i <? iter_resamp_max o)%nat with true
      by (symmetry; apply Nat.ltb_lt; lia).
    destruct (IH (shrink o (info st1 (Info msg_not_satisfied))) (S i))
      as (st' & Hrun & Hatt & Hret & Hcov' & Hpk1 & Hpk0).
    + lia.
    + lia.
    + intros Hn. destruct (Hdef Hn) as (Hh & Hj & _).
      repeat split; try assumption. cbn. discriminate.
    + intros j st_j r' st1' Hj Hafter Hs'.
      apply (Hfail (S j) st_j r' st1'); [lia | | exact Hs'].
      cbn [LineSearch.after_retries]. rewrite Hs. cbn [bind].
      rewrite Hnone. exact Hafter.
    + exists st'. split; [exact Hrun|].
      cbn [LineSearch.shrink LineSearch.info LineSearch.set_cov
           LineSearch.set_pk_from_ls log cov pk_from_ls] in Hatt, Hret, Hcov',
        Hpk0.
      rewrite !search_attempts_app in Hatt. rewrite !retries_app in Hret.
      rewrite Hlog, search_attempts_app in Hatt.
      rewrite Hlog, retries_app in Hret.
      cbn in Hatt, Hret.
      split; [lia|]. split; [lia|]. split.
      * rewrite Hcov'. unfold shrunk. rewrite Nat.iter_succ_r, Hcov.
        reflexivity.
      * split; [|lia]. intros _. destruct k as [|k].
        -- rewrite Hpk0 by reflexivity. reflexivity.
        -- apply Hpk1. lia.
Qed.

(** C3.  When none of the line searches of a call finds a step size (the
    first search and the search of every retry, each from the state the
    retry before it left), [calc_update] (called with [iter_resamp = 0])
    returns [False] after exactly [iter_resamp_max + 1] searches and
    [iter_resamp_max] retries; the covariance has been multiplied by
    [shrink_factor] once per retry, and [pk_from_ls] is [None] as soon as
    there was a retry.  [calc_update] is a total function: its recursion
    descends on [iter_resamp_max - iter_resamp]. *)
Theorem C3_retry_bound (o : options) (st : ls_state W) :
  search_fails_throughout W fun_ jac hess clip_state line_search o st ->
  search_defined o st ->
  exists st',
    calc_update o st 0 = Some (false, st') /\
    search_attempts (log st')
      = (search_attempts (log st) + iter_resamp_max o + 1)%nat /\
    retries (log st') = (retries (log st) + iter_resamp_max o)%nat /\
    cov st' = shrunk o (iter_resamp_max o) (cov st) /\
    ((0 < iter_resamp_max o)%nat -> pk_from_ls st' = None).
Proof.
  intros Hfail Hdef.
  destruct (failing_run o (iter_resamp_max o) st 0)
    as (st' & H1 & H2 & H3 & H4 & H5 & _); try lia; [exact Hdef | |].
  - intros j st_j r st1 Hj. apply Hfail. exact Hj.
  - exists st'. auto.
Qed.

(** *** The covariance stays symmetric positive-semi-definite (C8) *)

Lemma dot_nil_l (b : vec) : NumPy.dot [] b == 0.
Proof. reflexivity. Qed.

Lemma dot_nil_r (a : vec) : NumPy.dot a [] == 0.
Proof. destruct a; reflexivity. Qed.

Lemma dot_cons (x y : Q) (a b : vec) :
  NumPy.dot (x :: a) (y :: b) == x * y + NumPy.dot a b.
Proof. unfold NumPy.dot. cbn [NumPy.map2]. apply sum_cons. Qed.

Lemma dot_scale_l (c : Q) (r v : vec) :
  NumPy.dot (map (fun x => x * c) r) v == c * NumPy.dot r v.
Proof.
  revert v. induction r as [|x r IH]; intros [|y v]; cbn [map].
  - rewrite !dot_nil_l. ring.
  - rewrite !dot_nil_l. ring.
  - rewrite !dot_nil_r. ring.
  - rewrite !dot_cons, IH. ring.
Qed.

Lemma quad_scale (c : Q) (M : matrix) (u v : vec) :
  NumPy.dot u (NumPy.matvec (map (map (fun x => x * c)) M) v)
  == c * NumPy.dot u (NumPy.matvec M v).
Proof.
  revert M. induction u as [|x u IH]; intros [|r M].
  - rewrite !dot_nil_l. ring.
  - rewrite !dot_nil_l. ring.
  - cbn [map NumPy.matvec]. rewrite !dot_nil_r. ring.
  - change (NumPy.matvec (map (map (fun x => x * c)) (r :: M)) v)
      with (NumPy.dot (map (fun x => x * c) r) v
            :: NumPy.matvec (map (map (fun x => x * c)) M) v).
    change (NumPy.matvec (r :: M) v)
      with (NumPy.dot r v :: NumPy.matvec M v).
    rewrite !dot_cons, IH, dot_scale_l. ring.
Qed.

Lemma scale_sym_pos_semidef (c : Q) (M : matrix) :
  0 <= c -> sym_pos_semidef M ->
  sym_pos_semidef (map (map (fun v => v * c)) M).
Proof.
  intros Hc (Hsq & Hsym & Hpsd). unfold sym_pos_semidef, square, symmetric,
    pos_semidef in *. rewrite !length_map.
  split; [apply HessianEstimator.wf_map; exact Hsq|]. split.
  - intros a b Ha Hb.
    rewrite !(HessianEstimator.entry_map (length M) (length M)) by assumption.
    rewrite (Hsym a b Ha Hb). reflexivity.
  - intros v Hv. unfold quad_form. rewrite quad_scale.
    apply Qmult_le_0_compat; [exact Hc|]. apply Hpsd. exact Hv.
Qed.

Lemma same_shape_square (A B : matrix) :
  NumPy.same_shape A B = true -> square A -> square (NumPy.msub A B).
Proof.
  intros Hs [_ Hrows]. unfold square, NumPy.msub.
  assert (Hlen : length (NumPy.map2 (NumPy.map2 Qminus) A B) = length A).
  { clear Hrows. revert B Hs. induction A as [|r A IH]; intros [|s B] Hs;
      simpl in *; try discriminate; [reflexivity|].
    apply andb_prop in Hs. f_equal. apply IH. apply Hs. }
  rewrite Hlen. split; [exact Hlen|].
  generalize dependent (length A). intros n Hrows _. revert B Hs.
  induction Hrows as [|r A Hr Hrows IH]; intros [|s B] Hs; simpl in *;
    try discriminate; constructor.
  - apply andb_prop in Hs. destruct Hs as [Hs _]. apply Nat.eqb_eq in Hs.
    rewrite map2_length. lia.
  - apply IH. apply andb_prop in Hs. apply Hs.
Qed.

(** Lines 127-128: an accepted step replaces the covariance [C] by
    [get_sym_pos_semidef(C - alpha_cov * hessian)]. *)
Lemma accept_inv (o : options) (st1 st2 : ls_state W) (r : search_result)
    (step : Q) :
  accept o st1 r step = Some st2 ->
  exists C',
    NumPy.msub_chk (cov st1) (NumPy.mscale (alpha_cov o) (sr_hessian r))
      = Some C' /\
    cov st2 = get_sym_pos_semidef C'.
Proof.
  unfold LineSearch.accept. intros H.
  cbn [LineSearch.info mean_state cov] in H.
  destruct (Qeq_bool (sr_pk_norm r) 0); [discriminate|].
  destruct (NumPy.bcast2 Qminus _ _) as [x|]; cbn [bind] in H; [|discriminate].
  destruct (NumPy.msub_chk _ _) as [C'|]; cbn [bind] in H; [|discriminate].
  destruct (nth_error (get_sym_pos_semidef C') 0) as [row0|];
    cbn [bind] in H; [|discriminate].
  destruct (nth_error row0 0) as [c00|]; cbn [bind] in H; [|discriminate].
  injection H as <-. exists C'. split; reflexivity.
Qed.

Section Invariant.
Variable o : options.

(** What the specification says of the missing projection: its result is
    symmetric positive-semi-definite. *)
Hypothesis Hproj :
  forall M, square M -> sym_pos_semidef (get_sym_pos_semidef M).
Hypothesis Hshrink : 0 < shrink_factor o.

Lemma calc_update_cov (k : nat) :
  forall (st st' : ls_state W) (i : nat) (b : bool),
    (iter_resamp_max o - i = k)%nat ->
    sym_pos_semidef (cov st) ->
    calc_update o st i = Some (b, st') ->
    sym_pos_semidef (cov st') /\
    (b = true ->
     exists j w H C',
       (j <= k)%nat /\
       (if normalize o then normalized (fst (hess w)) = Some H
        else H = fst (hess w)) /\
       NumPy.msub_chk (shrunk o j (cov st)) (NumPy.mscale (alpha_cov o) H)
         = Some C' /\
       cov st' = get_sym_pos_semidef C') /\
    (b = false -> cov st' = shrunk o k (cov st)).
Proof.
  induction k as [|k IH]; intros st st' i b Hk Hpsd Hrun;
    rewrite calc_update_unfold in Hrun;
    destruct (search o st) as [[r st1]|] eqn:Hs; try discriminate;
    destruct (search_inv o st r st1 Hs) as (Hcov & _ & _ & (w & Hw) & _);
    destruct (step_size (sr_ls r)) as [step|].
  - destruct (accept o st1 r step) as [st2|] eqn:Ha; [|discriminate].
    injection Hrun as <- <-.
    destruct (accept_inv o st1 st2 r step Ha) as (C' & HC' & Hc2).
    rewrite Hcov in HC'. split; [|split; [|discriminate]].
    + rewrite Hc2. apply Hproj. unfold NumPy.msub_chk in HC'.
      destruct (NumPy.same_shape _ _) eqn:Ess; [|discriminate].
      injection HC' as <-. apply same_shape_square; [exact Ess | apply Hpsd].
    + intros _. exists 0%nat, w, (sr_hessian r), C'.
      split; [lia|]. split; [exact Hw|]. split; [exact HC' | exact Hc2].
  - replace (i <? iter_resamp_max o)%nat with false in Hrun
      by (symmetry; apply Nat.ltb_ge; lia).
    injection Hrun as <- <-. cbn [LineSearch.info cov]. rewrite Hcov.
    split; [exact Hpsd|]. split; [discriminate | reflexivity].
  - destruct (accept o st1 r step) as [st2|] eqn:Ha; [|discriminate].
    injection Hrun as <- <-.
    destruct (accept_inv o st1 st2 r step Ha) as (C' & HC' & Hc2).
    rewrite Hcov in HC'. split; [|split; [|discriminate]].
    + rewrite Hc2. apply Hproj. unfold NumPy.msub_chk in HC'.
      destruct (NumPy.same_shape _ _) eqn:Ess; [|discriminate].
      injection HC' as <-. apply same_shape_square; [exact Ess | apply Hpsd].
    + intros _. exists 0%nat, w, (sr_hessian r), C'.
      split; [lia|]. split; [exact Hw|]. split; [exact HC' | exact Hc2].
  - replace (i <? iter_resamp_max o)%nat with true in Hrun
      by (symmetry; apply Nat.ltb_lt; lia).
    assert (Hpsd1 : sym_pos_semidef
                      (cov (shrink o (info st1 (Info msg_not_satisfied))))).
    { cbn [LineSearch.shrink LineSearch.info LineSearch.set_cov
           LineSearch.set_pk_from_ls cov].
      rewrite Hcov. apply scale_sym_pos_semidef;
        [apply Qlt_le_weak; exact Hshrink | exact Hpsd]. }
    assert (Hk1 : (iter_resamp_max o - S i = k)%nat) by lia.
    destruct (IH _ st' (S i) b Hk1 Hpsd1 Hrun) as (H1 & H2 & H3).
    cbn [LineSearch.shrink LineSearch.info LineSearch.set_cov
         LineSearch.set_pk_from_ls cov] in H2, H3.
    rewrite Hcov in H2, H3.
    split; [exact H1|]. split.
    + intros Hb. destruct (H2 Hb) as (j & w' & H' & C' & Hj & HH & HC' & Hc2).
      exists (S j), w', H', C'. split; [lia|]. split; [exact HH|].
      split; [|exact Hc2].
      unfold shrunk in *. rewrite Nat.iter_succ_r. exact HC'.
    + intros Hb. rewrite (H3 Hb). unfold shrunk.
      rewrite Nat.iter_succ_r. reflexivity.
Qed.

End Invariant.

(** C8.  A call of [calc_update] that accepts a step leaves the covariance
    [get_sym_pos_semidef(C - alpha_cov * H)], where [C] is the covariance of
    the accepting search (the initial one shrunk once per retry) and [H] the
    hessian, divided by its infinity norm when [normalize] is set.  With the
    projection returning symmetric positive-semi-definite matrices and a
    positive [shrink_factor], a symmetric positive-semi-definite covariance
    stays so through every call, accepted or not. *)
Theorem C8_covariance_stays_psd (o : options) (st st' : ls_state W)
    (b : bool) :
  (forall M, square M -> sym_pos_semidef (get_sym_pos_semidef M)) ->
  0 < shrink_factor o ->
  sym_pos_semidef (cov st) ->
  calc_update o st 0 = Some (b, st') ->
  sym_pos_semidef (cov st') /\
  (b = true ->
   exists j w H C',
     (j <= iter_resamp_max o)%nat /\
     (if normalize o then normalized (fst (hess w)) = Some H
      else H = fst (hess w)) /\
     NumPy.msub_chk (shrunk o j (cov st)) (NumPy.mscale (alpha_cov o) H)
       = Some C' /\
     cov st' = get_sym_pos_semidef C') /\
  (b = false -> cov st' = shrunk o (iter_resamp_max o) (cov st)).
Proof.
  intros Hproj Hshrink Hpsd Hrun.
  apply (calc_update_cov o Hproj Hshrink (iter_resamp_max o) st st' 0 b);
    [lia | exact Hpsd | exact Hrun].
Qed.

End Proofs.

(** Two retries allowed and a line search that accepts a step only where
    the objective falls, on a constant objective: three searches, the
    covariance [1] shrunk twice by [1/4].  On the objective [1 + x] the same
    line search accepts. *)
Lemma C3_retry_bound_witness :
  (exists st',
     calc_update unit Examples.ls_fun Examples.ls_jac Examples.ls_hess
       Examples.ls_clip Examples.ls_decrease Examples.psd1 Examples.ls_options
       Examples.ls_start 0 = Some (false, st') /\
     search_attempts (log st') = 3%nat /\
     retries (log st') = 2%nat /\
     GaussianEnsemble.entry (cov st') 0 0 == 1 # 16) /\
  exists st2,
    calc_update unit Examples.ls_fun_falling Examples.ls_jac Examples.ls_hess
      Examples.ls_clip Examples.ls_decrease Examples.psd1 Examples.ls_options
      Examples.ls_start 0 = Some (true, st2).
Proof.
  split; [|eexists; vm_compute; reflexivity].
  destruct (C3_retry_bound unit Examples.ls_fun Examples.ls_jac
              Examples.ls_hess Examples.ls_clip Examples.ls_decrease
              Examples.psd1 Examples.ls_options Examples.ls_start)
    as (st' & H1 & H2 & H3 & H4 & _).
  - intros k st_k r st1 Hk Hafter Hs.
    destruct k as [|[|[|k]]]; [| | |cbn in Hk; lia];
      vm_compute in Hafter; injection Hafter as <-;
      vm_compute in Hs; injection Hs as <- <-; reflexivity.
  - intros _. repeat split; intros; discriminate.
  - exists st'. split; [exact H1|]. split; [exact H2|]. split; [exact H3|].
    rewrite H4. vm_compute. reflexivity.
Defined.

Lemma psd1_sym_pos_semidef (M : matrix) : sym_pos_semidef (Examples.psd1 M).
Proof.
  unfold Examples.psd1. split; [|split].
  - split; [reflexivity | repeat constructor].
  - intros a b Ha Hb. cbn [length] in Ha, Hb.
    assert (a = 0%nat) as -> by lia. assert (b = 0%nat) as -> by lia.
    reflexivity.
  - intros [|x [|y v]] Hv; try discriminate Hv.
    unfold quad_form, NumPy.matvec. cbn [map].
    rewrite dot_cons, dot_nil_l, dot_cons, dot_nil_l.
    assert (Hsq : 0 <= x * x).
    { destruct (Qlt_le_dec x 0) as [Hx|Hx].
      - assert (Hnx : 0 <= - x).
        { change (- 0 <= - x). apply Qopp_le_compat, Qlt_le_weak, Hx. }
        setoid_replace (x * x) with ((- x) * (- x)) by ring.
        apply Qmult_le_0_compat; exact Hnx.
      - apply Qmult_le_0_compat; assumption. }
    assert (Hm : 0 <= Qmax 0 (GaussianEnsemble.entry M 0 0))
      by apply Q.le_max_l.
    clear Hv. revert Hm.
    generalize (Qmax 0 (GaussianEnsemble.entry M 0 0)). intros m Hm.
    setoid_replace (x * (m * x + 0) + 0) with (m * (x * x)) by ring.
    apply Qmult_le_0_compat; assumption.
Qed.

(** The one-dimensional problem with a line search that accepts its first
    trial step: the covariance [1] becomes [1 - 1/100 * 3/3]. *)
Lemma C8_covariance_stays_psd_witness :
  calc_update unit Examples.ls_fun Examples.ls_jac Examples.ls_hess
    Examples.ls_clip Examples.ls_first_trial Examples.psd1 Examples.ls_options
    Examples.ls_start 0 = Some (true, Examples.ls_accepted) /\
  sym_pos_semidef (cov Examples.ls_accepted) /\
  GaussianEnsemble.entry (cov Examples.ls_accepted) 0 0 == 99 # 100.
Proof.
  assert (Hrun : calc_update unit Examples.ls_fun Examples.ls_jac
                   Examples.ls_hess Examples.ls_clip Examples.ls_first_trial
                   Examples.psd1 Examples.ls_options Examples.ls_start 0
                 = Some (true, Examples.ls_accepted))
    by (vm_compute; reflexivity).
  split; [exact Hrun|]. split.
  - apply (C8_covariance_stays_psd unit Examples.ls_fun Examples.ls_jac
             Examples.ls_hess Examples.ls_clip Examples.ls_first_trial
             Examples.psd1 Examples.ls_options Examples.ls_start
             Examples.ls_accepted true).
    + intros M _. apply psd1_sym_pos_semidef.
    + reflexivity.
    + apply (psd1_sym_pos_semidef [[1]]).
    + exact Hrun.
  - vm_compute. reflexivity.
Defined.

End Controller.

(** ** The SMC weights (C7) *)

Module SmcWeights.
Import GaussianEnsemble.

Lemma map_opt_total {A B} (f : A -> option B) (g : A -> B) (l : list A) :
  (forall x, In x l -> f x = Some (g x)) ->
  NumPy.map_opt f l = Some (map g l).
Proof.
  induction l as [|x l IH]; intros H; [reflexivity|].
  cbn [NumPy.map_opt map]. rewrite (H x) by (left; reflexivity).
  rewrite IH; [reflexivity|]. intros y Hy. apply H. right. exact Hy.
Qed.

Lemma fold_Qmin_le_acc (v : vec) (a : Q) : fold_left Qmin v a <= a.
Proof.
  revert a. induction v as [|x v IH]; intros a; cbn [fold_left].
  - apply Qle_refl.
  - eapply Qle_trans; [apply IH | apply Q.le_min_l].
Qed.

Lemma fold_Qmin_le_In (v : vec) (a x : Q) :
  In x v -> fold_left Qmin v a <= x.
Proof.
  revert a. induction v as [|y v IH]; intros a; [intros []|].
  intros [->|Hin]; cbn [fold_left].
  - eapply Qle_trans; [apply fold_Qmin_le_acc | apply Q.le_min_r].
  - apply IH. exact Hin.
Qed.

Lemma fold_Qmin_In (v : vec) (a : Q) :
  fold_left Qmin v a = a \/ In (fold_left Qmin v a) v.
Proof.
  revert a. induction v as [|y v IH]; intros a; cbn [fold_left];
    [left; reflexivity|].
  destruct (IH (Qmin a y)) as [H|H].
  - rewrite H. unfold Qmin, GenericMinMax.gmin.
    destruct (Qcompare a y); [left | left | right; left]; reflexivity.
  - right. right. exact H.
Qed.

(** [np.min] is below every entry and is one of them. *)
Lemma min_spec (v : vec) :
  v <> [] ->
  exists m, NumPy.min v = Some m /\ (forall x, In x v -> m <= x) /\ In m v.
Proof.
  destruct v as [|a v]; [congruence|]. intros _.
  exists (fold_left Qmin v a). split; [reflexivity|]. split.
  - intros x [->|Hin]; [apply fold_Qmin_le_acc | apply fold_Qmin_le_In, Hin].
  - destruct (fold_Qmin_In v a) as [H|H]; [left; symmetry; exact H | right; exact H].
Qed.

Lemma sum_map_div (c : Q) (l : vec) :
  NumPy.sum (map (fun x => x / c) l) == NumPy.sum l / c.
Proof.
  induction l as [|x l IH]; cbn [map].
  - unfold NumPy.sum. cbn [fold_left]. unfold Qdiv. ring.
  - rewrite !sum_cons, IH. unfold Qdiv. ring.
Qed.

Lemma sum_pos (l : vec) :
  l <> [] -> (forall x, In x l -> 0 < x) -> 0 < NumPy.sum l.
Proof.
  induction l as [|x l IH]; [congruence|]. intros _ H.
  rewrite sum_cons. destruct l as [|y l].
  - unfold NumPy.sum. cbn [fold_left].
    assert (Hx := H x (or_introl eq_refl)). lra.
  - assert (Hx := H x (or_introl eq_refl)).
    assert (Hl : 0 < NumPy.sum (y :: l)).
    { apply IH; [discriminate|]. intros z Hz. apply H. right. exact Hz. }
    lra.
Qed.

Section Weights.
Variable exp : Q -> Q.
Variable infl : Q.
Variable values : vec.
Variable n : nat.

Hypothesis exp_nonneg : forall x, 0 <= exp x.
Hypothesis exp_mono : forall x y, x <= y -> exp x <= exp y.
Hypothesis Hlen : length values = n.
Hypothesis Hn : (1 <= n)%nat.

Local Abbreviation raw_weight := (Invariants.raw_weight exp infl values).

Lemma smc_weights_run :
  exists m,
    NumPy.min values = Some m /\
    (forall x, In x values -> m <= x) /\ In m values /\
    smc_weights exp infl values (Z.of_nat n)
    = Some (map (fun w => w / NumPy.sum (map (raw_weight m) (range n)))
              (map (raw_weight m) (range n))).
Proof.
  destruct (min_spec values) as (m & Hm & Hle & Hin).
  { intros ->. simpl in Hlen. lia. }
  exists m. split; [exact Hm|]. split; [exact Hle|]. split; [exact Hin|].
  unfold smc_weights.
  replace (Z.of_nat n <? 0)%Z with false by (symmetry; apply Z.ltb_ge; lia).
  rewrite Nat2Z.id.
  rewrite (map_opt_total _
             (fun i => exp (NumPy.clip_upper (- (nth i values 0 - m) * infl) 10))).
  - cbn [bind].
    rewrite (map_map
               (fun i => exp (NumPy.clip_upper
                                (- (nth i values 0 - m) * infl) 10))
               (fun w => w + (1 # 1000000))).
    reflexivity.
  - intros i Hi. apply in_seq in Hi.
    rewrite (nth_error_nth_lt values i 0) by lia. cbn [bind].
    rewrite Hm. reflexivity.
Qed.

Lemma raw_weight_pos (m : Q) (i : nat) : 0 < raw_weight m i.
Proof.
  unfold Invariants.raw_weight.
  assert (H := exp_nonneg
                 (NumPy.clip_upper (- (nth i values 0 - m) * infl) 10)).
  assert (0 < 1 # 1000000) by reflexivity. lra.
Qed.

Lemma raw_sum_pos (m : Q) : 0 < NumPy.sum (map (raw_weight m) (range n)).
Proof.
  apply sum_pos.
  - destruct n; [lia|]. unfold range. cbn. discriminate.
  - intros x Hx. apply in_map_iff in Hx. destruct Hx as (i & <- & _).
    apply raw_weight_pos.
Qed.

End Weights.

(** C7, as the code has it.  For a level holding [n >= 1] objective values,
    with [np.exp] non-negative and monotone, the weights of lines 349-355
    are strictly positive and sum to one; when the inflation factor is not
    negative, a member with the minimum objective value has a weight at
    least as large as every other. *)
Theorem C7_weights_normalised (exp : Q -> Q) (infl : Q) (values : vec)
    (n : nat) :
  (forall x, 0 <= exp x) ->
  (forall x y, x <= y -> exp x <= exp y) ->
  length values = n ->
  (1 <= n)%nat ->
  exists w,
    smc_weights exp infl values (Z.of_nat n) = Some w /\
    length w = n /\
    (forall i, (i < n)%nat -> 0 < nth i w 0) /\
    NumPy.sum w == 1 /\
    (0 <= infl ->
     forall i, (i < n)%nat ->
       (forall k, (k < n)%nat -> nth i values 0 <= nth k values 0) ->
       forall j, (j < n)%nat -> nth j w 0 <= nth i w 0).
Proof.
  intros exp_nonneg exp_mono Hlen Hn.
  destruct (smc_weights_run exp infl values n Hlen Hn)
    as (m & Hm & Hle & Hin & Hrun).
  set (raw := map (Invariants.raw_weight exp infl values m) (range n)) in *.
  assert (HS : 0 < NumPy.sum raw)
    by (apply raw_sum_pos; assumption).
  assert (Hrawlen : length raw = n)
    by (unfold raw, range; rewrite length_map, length_seq; reflexivity).
  assert (Hnth : forall i, (i < n)%nat ->
            nth i (map (fun w => w / NumPy.sum raw) raw) 0
            = Invariants.raw_weight exp infl values m i / NumPy.sum raw).
  { intros i Hi. rewrite (nth_map_lt _ raw i 0 0) by lia.
    unfold raw. rewrite (nth_map_lt _ (range n) i 0%nat 0)
      by (unfold range; rewrite length_seq; exact Hi).
    unfold range. rewrite seq_nth by exact Hi. reflexivity. }
  eexists. split; [exact Hrun|]. split; [rewrite length_map; exact Hrawlen|].
  split; [|split].
  - intros i Hi. rewrite (Hnth i Hi).
    apply Qlt_shift_div_l; [exact HS|]. rewrite Qmult_0_l.
    apply raw_weight_pos. exact exp_nonneg.
  - rewrite sum_map_div. field. intros H. rewrite H in HS.
    exact (Qlt_irrefl 0 HS).
  - intros Hinfl i Hi Hmin j Hj. rewrite (Hnth i Hi), (Hnth j Hj).
    apply Qmult_le_compat_r; [|apply Qlt_le_weak, Qinv_lt_0_compat, HS].
    unfold Invariants.raw_weight. apply Qplus_le_l. apply exp_mono.
    unfold NumPy.clip_upper. apply Q.min_le_compat_r.
    assert (Hmi : m == nth i values 0).
    { apply Qle_antisym.
      - apply Hle, nth_In. lia.
      - apply In_nth with (d := 0) in Hin. destruct Hin as (k & Hk & <-).
        apply Hmin. lia. }
    assert (Hmj : m <= nth j values 0) by (apply Hle, nth_In; lia).
    rewrite <- Hmi.
    setoid_replace (- (m - m) * infl) with 0 by ring.
    setoid_replace (- (nth j values 0 - m) * infl)
      with (- ((nth j values 0 - m) * infl)) by ring.
    assert (0 <= (nth j values 0 - m) * infl)
      by (apply Qmult_le_0_compat; lra).
    lra.
Qed.

Lemma exp_tangent_nonneg (x : Q) : 0 <= Examples.exp_tangent x.
Proof. apply Q.le_max_l. Qed.

Lemma exp_tangent_mono (x y : Q) :
  x <= y -> Examples.exp_tangent x <= Examples.exp_tangent y.
Proof.
  intros H. unfold Examples.exp_tangent. apply Q.max_le_compat_l. lra.
Qed.

(** Three members with the values [3, 1, 2] and inflation factor [1]. *)
Lemma C7_weights_normalised_witness :
  exists w,
    smc_weights Examples.exp_tangent 1 [3; 1; 2] 3 = Some w /\
    NumPy.sum w == 1 /\
    nth 0 w 0 <= nth 1 w 0 /\ nth 2 w 0 <= nth 1 w 0.
Proof.
  destruct (C7_weights_normalised Examples.exp_tangent 1 [3; 1; 2] 3
              exp_tangent_nonneg exp_tangent_mono eq_refl)
    as (w & Hw & _ & _ & Hsum & Hmax); [lia|].
  exists w. split; [exact Hw|]. split; [exact Hsum|].
  assert (Hmin : forall k, (k < 3)%nat -> nth 1 [3; 1; 2] 0 <= nth k [3; 1; 2] 0).
  { intros [|[|[|k]]] Hk; cbn; try lia; discriminate. }
  split; apply (Hmax ltac:(discriminate) 1%nat ltac:(lia) Hmin); lia.
Defined.

(** C7 fails as stated: with a negative inflation factor the exponent
    [-(J_i - min J) * inflation_factor] grows with [J_i], and the member with
    the minimum objective value gets the smallest weight. *)
Lemma C7_counterexample :
  exists w,
    smc_weights Examples.exp_tangent (-1) [0; 1] 2 = Some w /\
    NumPy.min [0; 1] = Some 0 /\
    nth 0 w 0 < nth 1 w 0.
Proof.
  eexists. split; [vm_compute; reflexivity|]. split; [reflexivity|].
  vm_compute. reflexivity.
Qed.

End SmcWeights.

(** ** The SMC loop (C6, C9, C10) *)

Module SmcLoop.
Import GaussianEnsemble.
Import GradientEstimator.

Lemma nth_error_nth_some {A} (l : list A) (i : nat) (x d : A) :
  nth_error l i = Some x -> nth i l d = x /\ (i < length l)%nat.
Proof.
  intros H. split.
  - apply nth_error_nth. exact H.
  - apply nth_error_Some. congruence.
Qed.

Lemma map_opt_length {A B} (f : A -> option B) (l : list A) (r : list B) :
  NumPy.map_opt f l = Some r -> length r = length l.
Proof.
  revert r. induction l as [|x l IH]; intros r H; cbn in H.
  - injection H as <-. reflexivity.
  - destruct (f x); [|discriminate].
    destruct (NumPy.map_opt f l) as [ys|]; [|discriminate].
    injection H as <-. cbn. f_equal. apply IH. reflexivity.
Qed.

Lemma assign_cols_length (T src R : matrix) (a b : Z) :
  NumPy.assign_cols T a b src = Some R ->
  length R = length T /\ length src = length T.
Proof.
  unfold NumPy.assign_cols. intros H.
  destruct (length src =? length T)%nat eqn:E; [|discriminate].
  apply Nat.eqb_eq in E. apply map_opt_length in H.
  rewrite length_combine in H. lia.
Qed.

Lemma cols_length (M : matrix) (a b : Z) :
  length (NumPy.cols M a b) = length M.
Proof. apply length_map. Qed.

Lemma matmul_vec_length (M : matrix) (w v : vec) :
  NumPy.matmul_vec M w = Some v -> length v = length M.
Proof.
  unfold NumPy.matmul_vec. destruct (forallb _ M); [|discriminate].
  intros H. injection H as <-. apply length_map.
Qed.

Section Loop.
Variable exp : Q -> Q.
Variable cfg : settings.
Variable o : obj.
Variables infl sf : Q.
Variable E : matrix.
Variable L : nat.
Variable N : list Z.
Variable picks : nat -> option (list nat).

(** What one pass of the loop body computes, spelled out. *)
Lemma smc_level_inv (l : nat) (s s' : smc_loop) :
  smc_level exp cfg o infl sf E L N picks l s = Some s' ->
  exists ml_ne ri J P V Pl Vl w sens idx,
    nth_error N l = Some ml_ne /\
    nth_error (s_resample_index s) l = Some ri /\
    nth_error (ens_func_values o) l = Some J /\
    update_population E J (s_start_index s) ml_ne
      (fst (fst (ml_counts cfg sf L l ml_ne (s_ml_ne_new_total s))))
      (snd (fst (ml_counts cfg sf L l ml_ne (s_ml_ne_new_total s))))
      l ri (s_particles s) (s_particle_values s) = Some (P, V) /\
    nth_error P l = Some Pl /\
    nth_error V l = Some Vl /\
    smc_weights exp infl Vl ml_ne = Some w /\
    NumPy.matmul_vec Pl w = Some sens /\
    picks l = Some idx /\
    s_start_index s'
      = (s_start_index s
         + fst (fst (ml_counts cfg sf L l ml_ne
                       (s_ml_ne_new_total s))))%Z /\
    s_ml_ne_new_total s'
      = snd (ml_counts cfg sf L l ml_ne (s_ml_ne_new_total s)) /\
    s_level_sens s' = s_level_sens s ++ [sens] /\
    s_particles s' = P /\
    s_particle_values s' = V /\
    s_resample_index s'
      = NumPy.set_nth l (Some idx) (s_resample_index s).
Proof.
  unfold smc_level. intros H.
  destruct (nth_error N l) as [ml_ne|] eqn:EN; cbn [bind] in H;
    [|discriminate].
  destruct (ml_counts cfg sf L l ml_ne (s_ml_ne_new_total s))
    as [[new surv] total] eqn:Ec.
  destruct (nth_error (s_resample_index s) l) as [ri|] eqn:Eri;
    cbn [bind] in H; [|discriminate].
  destruct (nth_error (ens_func_values o) l) as [J|] eqn:EJ; cbn [bind] in H;
    [|discriminate].
  destruct (update_population E J (s_start_index s) ml_ne new surv l
              ri (s_particles s) (s_particle_values s))
    as [[P V]|] eqn:Eu; cbn [bind] in H; [|discriminate].
  destruct (nth_error P l) as [Pl|] eqn:EP; cbn [bind] in H; [|discriminate].
  destruct (nth_error V l) as [Vl|] eqn:EV; cbn [bind] in H; [|discriminate].
  destruct (smc_weights exp infl Vl ml_ne) as [w|] eqn:Ew; cbn [bind] in H;
    [|discriminate].
  destruct (NumPy.matmul_vec Pl w) as [sens|] eqn:Es; cbn [bind] in H;
    [|discriminate].
  match type of H with
  | context [bind ?b _] => destruct b as [best|]
  end; cbn [bind] in H; [|discriminate].
  destruct (picks l) as [idx|] eqn:Epk; cbn [bind] in H; [|discriminate].
  injection H as <-.
  exists ml_ne, ri, J, P, V, Pl, Vl, w, sens, idx.
  rewrite ?Ec. cbn [fst snd].
  cbn. repeat split; try reflexivity; assumption.
Qed.

Lemma update_population_later (J : vec) (start ml_ne new surv : Z) (l : nat)
    (idx : list nat) (P0 P : list matrix) (V0 V : list vec) :
  update_population E J start ml_ne new surv l (Some idx) P0 V0 = Some (P, V) ->
  exists Pl Vl,
    P = NumPy.set_nth l Pl P0 /\ V = NumPy.set_nth l Vl V0 /\
    length Pl = length E /\
    (l < length P0)%nat /\ (l < length V0)%nat.
Proof.
  unfold update_population. intros H.
  destruct (nth_error P0 l) as [Pl0|] eqn:EP; cbn [bind] in H; [|discriminate].
  destruct (nth_error V0 l) as [Vl0|] eqn:EV; cbn [bind] in H; [|discriminate].
  destruct (NumPy.take_cols Pl0 idx) as [Ps|]; cbn [bind] in H; [|discriminate].
  destruct (NumPy.assign_cols Pl0 0 surv Ps) as [Pl1|]; cbn [bind] in H;
    [|discriminate].
  destruct (NumPy.assign_cols Pl1 surv _ _) as [Pl2|] eqn:E2; cbn [bind] in H;
    [|discriminate].
  destruct (NumPy.take Vl0 idx) as [Vs|]; cbn [bind] in H; [|discriminate].
  destruct (NumPy.assign_slice Vl0 0 surv Vs) as [Vl1|]; cbn [bind] in H;
    [|discriminate].
  destruct (NumPy.assign_slice Vl1 surv _ J) as [Vl2|]; cbn [bind] in H;
    [|discriminate].
  injection H as <- <-. exists Pl2, Vl2.
  apply assign_cols_length in E2. rewrite cols_length in E2.
  repeat split; try reflexivity.
  - lia.
  - apply nth_error_Some. congruence.
  - apply nth_error_Some. congruence.
Qed.

(** The starting point of the loop. *)
Variable ri0 : list (option (list nat)).
Variable P0 : list matrix.
Variable V0 : list vec.

Local Abbreviation first_call := (Invariants.first_call L ri0 P0 V0).
Local Abbreviation later_call := (Invariants.later_call ri0).
Local Abbreviation smc_inv := (Invariants.smc_inv exp infl E L N ri0 P0 V0).

Hypothesis Hcall : first_call \/ later_call.

Lemma smc_level_step (l : nat) (s s' : smc_loop) :
  (l < L)%nat -> smc_inv l s ->
  smc_level exp cfg o infl sf E L N picks l s = Some s' ->
  smc_inv (S l) s'.
Proof.
  intros Hl (Hlen & Hri & Hfirst & Hdone) Hstep.
  destruct (smc_level_inv l s s' Hstep)
    as (ml_ne & ri & J & P & V & Pl & Vl & w & sens & idx
        & HN & Hril & HJ & Hup & HPl & HVl & Hw & Hsens & Hpick
        & _ & _ & Hls & HP & HV & Hri').
  rewrite (Hri l (le_n l)) in Hril.
  assert (Hkeep :
    (forall m, (m < l)%nat ->
       nth m P [] = nth m (s_particles s) [] /\
       nth m V [] = nth m (s_particle_values s) []) /\
    (length (s_particles s) <= length P)%nat /\
    (length (s_particle_values s) <= length V)%nat /\
    length Pl = length E /\
    (first_call -> length P = S l /\ length V = S l)).
  { destruct Hcall as [Hf|Hlater].
    - destruct (Hfirst Hf) as [HlenP HlenV].
      destruct Hf as (_ & _ & Hnone). rewrite (Hnone l Hl) in Hril.
      injection Hril as <-. cbn [update_population] in Hup.
      injection Hup as <- <-. rewrite !length_app. cbn [length].
      split; [|split; [lia|split; [lia|split]]].
      + intros m Hm. rewrite !app_nth1 by lia. split; reflexivity.
      + rewrite nth_error_app2, HlenP, Nat.sub_diag in HPl by lia.
        injection HPl as <-. apply cols_length.
      + intros _. lia.
    - assert (Hsome : ri <> None).
      { unfold Invariants.later_call in Hlater. rewrite Forall_forall in Hlater.
        apply Hlater. eapply nth_error_In. exact Hril. }
      destruct ri as [idx0|]; [|congruence].
      destruct (update_population_later J _ _ _ _ l idx0 _ P _ V Hup)
        as (Pl' & Vl' & -> & -> & HlenPl & HlP & HlV).
      rewrite !set_nth_length.
      split; [|split; [lia|split; [lia|split]]].
      + intros m Hm. split; apply nth_error_nth; rewrite nth_error_set_nth_ne
          by lia; apply nth_error_nth_lt; [destruct (Hdone m Hm) as (H1 & _)
          | destruct (Hdone m Hm) as (_ & H2 & _)]; assumption.
      + rewrite nth_error_set_nth_eq in HPl by exact HlP.
        injection HPl as <-. exact HlenPl.
      + intros (_ & _ & Hnone). rewrite (Hnone l Hl) in Hril. discriminate. }
  destruct Hkeep as (Hsame & HleP & HleV & HlenPl & Hfirst').
  unfold Invariants.smc_inv. rewrite Hls, HP, HV, Hri'.
  split; [rewrite length_app; cbn [length]; lia|].
  split; [intros m Hm; rewrite nth_error_set_nth_ne by lia; apply Hri; lia|].
  split; [exact Hfirst'|].
  intros m Hm. destruct (Nat.eq_dec m l) as [->|Hne].
  - apply nth_error_nth_some with (d := []) in HPl.
    apply nth_error_nth_some with (d := []) in HVl.
    destruct HPl as [HPl HlP], HVl as [HVl HlV].
    split; [exact HlP|]. split; [exact HlV|]. rewrite HPl.
    split; [exact HlenPl|].
    rewrite app_nth2, Hlen, Nat.sub_diag by lia. cbn [nth].
    exists ml_ne, w. rewrite HPl, HVl. auto.
  - assert (Hm' : (m < l)%nat) by lia.
    destruct (Hdone m Hm') as (H1 & H2 & H3 & (n' & w' & H4 & H5 & H6)).
    destruct (Hsame m Hm') as [HsP HsV].
    split; [lia|]. split; [lia|]. rewrite HsP. split; [exact H3|].
    rewrite app_nth1 by lia.
    exists n', w'. rewrite HsP, HsV. auto.
Qed.

End Loop.

End SmcLoop.

(** ** [calc_ensemble_weights] as a whole *)

Module SmcWeighter.
Import GaussianEnsemble.
Import GradientEstimator.
Import SmcLoop.

Lemma bias_factors_preserves (bias_func : obj -> vec) (cfg : settings)
    (o o' : obj) (vals : list vec) (init : option state_t) :
  _bias_factors bias_func cfg o vals init = Some o' ->
  state o' = state o /\ ens_func_values o' = ens_func_values o /\
  particles o' = particles o /\ particle_values o' = particle_values o /\
  resample_index o' = resample_index o.
Proof.
  unfold _bias_factors. intros H.
  destruct (bias_factors o).
  - injection H as <-. repeat split; reflexivity.
  - destruct (forallb _ vals); [|discriminate].
    destruct (NumPy.map_opt _ vals) as [bf|]; cbn [bind] in H; [|discriminate].
    destruct (_bias_correction _) as [c|]; cbn [bind] in H; [|discriminate].
    injection H as <-. repeat split; reflexivity.
Qed.

Section Whole.
Variable function : matrix -> list vec.
Variable bias_func : obj -> vec.
Variable exp : Q -> Q.

Lemma calc_ensemble_weights_inv (cfg : settings) (o : obj) (x : vec)
    (a0 : Q) (a1 : matrix) (a2 : Q) (draws : nat -> matrix)
    (picks : nat -> option (list nat)) (sens : vec)
    (best : option (vec * Q)) (o' : obj) :
  calc_ensemble_weights function bias_func exp cfg o x a0 a1 a2 draws picks
    = Some (sens, best, o') ->
  exists ens o6 s,
    _gen_state_ensemble cfg
      (set_ne (set_smc_args (set_state o (update_optim_state x (state o)))
                 a0 a1 a2) (sampled_ne cfg o a2)) draws = Some ens /\
    state o' = EnsState ens /\
    ens_func_values o6 = function (aug_state ens) /\
    ens_func_values o' = function (aug_state ens) /\
    particles o6 = particles o /\
    particle_values o6 = particle_values o /\
    smc_levels exp cfg o6 a0 a2 (aug_state ens) picks
      (start_index_list o (length (function (aug_state ens)))) = Some s /\
    multilevel_combine NumPy.vadd vscale_r NumPy.vdiv cfg (num_samples cfg)
      (NumPy.zeros (length (aug_state ens))) (s_level_sens s)
      (length (function (aug_state ens))) = Some sens /\
    particles o' = s_particles s /\
    particle_values o' = s_particle_values s /\
    resample_index o' = Some (s_resample_index s) /\
    best = s_best s.
Proof.
  unfold calc_ensemble_weights. intros H.
  cbn [set_state set_smc_args set_ne set_ens_func_values state resample_index
       bias_factors ens_func_values] in H.
  fold (sampled_ne cfg o a2) in H.
  match type of H with
  | context [_gen_state_ensemble ?c ?oo ?d] =>
      destruct (_gen_state_ensemble c oo d) as [ens|] eqn:Egen
  end; cbn [bind] in H; [|discriminate].
  match type of H with
  | context [bind ?m _] => destruct m as [o6|] eqn:Ebias
  end; cbn [bind] in H; [|discriminate].
  fold (start_index_list o (length (function (aug_state ens)))) in H.
  destruct (smc_levels exp cfg o6 a0 a2 (aug_state ens) picks _) as [s|] eqn:Es;
    cbn [bind] in H; [|discriminate].
  destruct (multilevel_combine _ _ _ cfg _ _ _ _) as [sm|] eqn:Ec;
    cbn [bind] in H; [|discriminate].
  injection H as <- <- <-.
  assert (Hpres : state o6 = EnsState ens /\
                  ens_func_values o6 = function (aug_state ens) /\
                  particles o6 = particles o /\
                  particle_values o6 = particle_values o).
  { destruct (bias_file cfg).
    - apply bias_factors_preserves in Ebias.
      destruct Ebias as (H1 & H2 & H3 & H4 & _).
      rewrite H1, H2, H3, H4. repeat split; reflexivity.
    - injection Ebias as <-. repeat split; reflexivity. }
  destruct Hpres as (Hst & Hvals & HP & HV).
  exists ens, o6, s. split; [reflexivity|].
  cbn [set_population state ens_func_values particles particle_values
       resample_index].
  rewrite Hst, Hvals. repeat split; try assumption; reflexivity.
Qed.

Lemma smc_levels_inv (cfg : settings) (o : obj) (infl sf : Q) (E : matrix)
    (picks : nat -> option (list nat)) (ri0 : list (option (list nat)))
    (s : smc_loop) :
  let L := length (ens_func_values o) in
  Invariants.first_call L ri0 (particles o) (particle_values o)
  \/ Invariants.later_call ri0 ->
  smc_levels exp cfg o infl sf E picks ri0 = Some s ->
  Invariants.smc_inv exp infl E L (declared_en_size cfg) ri0 (particles o)
    (particle_values o) L s.
Proof.
  intros L Hcall Hrun. unfold smc_levels in Hrun. fold L in Hrun.
  apply (for_each_range_inv _
           (Invariants.smc_inv exp infl E L (declared_en_size cfg) ri0
              (particles o) (particle_values o)) L _ s Hrun).
  - unfold Invariants.smc_inv. cbn. split; [reflexivity|].
    split; [reflexivity|].
    split.
    + intros (-> & -> & _). split; reflexivity.
    + intros m Hm. lia.
  - intros l s0 s1 Hl Hinv Hstep.
    apply (smc_level_step exp cfg o infl sf E L (declared_en_size cfg) picks
             ri0 (particles o) (particle_values o) Hcall l s0 s1 Hl Hinv Hstep).
Qed.

Lemma consistent_call (o : obj) (L : nat) :
  population_consistent o ->
  Invariants.first_call L (start_index_list o L) (particles o)
    (particle_values o)
  \/ Invariants.later_call (start_index_list o L).
Proof.
  unfold population_consistent, start_index_list, Invariants.first_call,
    Invariants.later_call.
  destruct (resample_index o) as [r|].
  - intros H. right. exact H.
  - intros [HP HV]. left. split; [exact HP|]. split; [exact HV|].
    intros m Hm. rewrite (nth_error_nth_lt _ m None)
      by (rewrite repeat_length; exact Hm).
    f_equal. apply nth_repeat.
Qed.

(** The multilevel branch of the combination, component by component. *)
Lemma combine_vectors_inv (cfg : settings) (ml : multilevel) (d : Z)
    (nx : nat) (zero : vec) (levels : list vec) (L : nat) (sens : vec) :
  keys_en_multilevel cfg = Some ml ->
  multilevel_combine NumPy.vadd vscale_r NumPy.vdiv cfg d zero levels L
    = Some sens ->
  length zero = nx ->
  (forall k, (k < nx)%nat -> nth k zero 0 == 0) ->
  (forall l, (l < L)%nat -> length (nth l levels []) = nx) ->
  length sens = nx /\
  forall k, (k < nx)%nat ->
    nth k sens 0 ==
      bigsum L (fun l => nth k (nth l levels []) 0 * nth l (cov_wgt ml) 0)
      / inject_Z d.
Proof.
  intros Hml Hrun Hz Hz0 Hlv. unfold multilevel_combine in Hrun.
  rewrite Hml in Hrun.
  destruct (for_each (range L) _ zero) as [total|] eqn:Et; cbn [bind] in Hrun;
    [|discriminate].
  injection Hrun as <-.
  assert (Hinv : length total = nx /\
            forall k, (k < nx)%nat ->
              nth k total 0 ==
                bigsum L (fun l => nth k (nth l levels []) 0
                                   * nth l (cov_wgt ml) 0)).
  { apply (for_each_range_inv _
             (fun l acc => length acc = nx /\
                forall k, (k < nx)%nat ->
                  nth k acc 0 ==
                    bigsum l (fun l => nth k (nth l levels []) 0
                                       * nth l (cov_wgt ml) 0))
             L zero total Et).
    - split; [exact Hz|]. intros k Hk. cbn [bigsum]. apply Hz0. exact Hk.
    - intros l acc acc' Hl [Hlen Hsum] Hstep.
      destruct (nth_error levels l) as [x0|] eqn:Ex; cbn [bind] in Hstep;
        [|discriminate].
      destruct (nth_error (cov_wgt ml) l) as [w|] eqn:Ew; cbn [bind] in Hstep;
        [|discriminate].
      injection Hstep as <-.
      apply nth_error_nth_some with (d := []) in Ex. destruct Ex as [Ex _].
      apply nth_error_nth_some with (d := 0) in Ew. destruct Ew as [Ew _].
      assert (Hx : length x0 = nx) by (rewrite <- Ex; apply Hlv; exact Hl).
      unfold NumPy.vadd, vscale_r. split.
      + rewrite map2_length, length_map. lia.
      + intros k Hk.
        rewrite (nth_map2 Qplus acc _ k 0 0 0) by (rewrite ?length_map; lia).
        rewrite (nth_map_lt _ x0 k 0 0) by lia.
        rewrite (Hsum k Hk). cbn [bigsum]. rewrite Ex, Ew. reflexivity. }
  destruct Hinv as [Hlen Hsum]. unfold NumPy.vdiv. split.
  - rewrite length_map. exact Hlen.
  - intros k Hk. rewrite (nth_map_lt _ total k 0 0) by lia.
    rewrite (Hsum k Hk). reflexivity.
Qed.

(** The loop gives every level it visits a resample index and leaves the
    other entries alone. *)
Lemma smc_levels_resample_index (cfg : settings) (o : obj) (infl sf : Q)
    (E : matrix) (picks : nat -> option (list nat))
    (ri0 : list (option (list nat))) (s : smc_loop) :
  smc_levels exp cfg o infl sf E picks ri0 = Some s ->
  length (s_resample_index s) = length ri0 /\
  forall m x, nth_error (s_resample_index s) m = Some x ->
    x <> None \/
    ((length (ens_func_values o) <= m)%nat /\ nth_error ri0 m = Some x).
Proof.
  intros Hrun. unfold smc_levels in Hrun.
  assert (Hinv :
    length (s_resample_index s) = length ri0 /\
    forall m x, nth_error (s_resample_index s) m = Some x ->
      ((m < length (ens_func_values o))%nat /\ x <> None) \/
      ((length (ens_func_values o) <= m)%nat /\ nth_error ri0 m = Some x)).
  { apply (for_each_range_inv _
             (fun l s =>
                length (s_resample_index s) = length ri0 /\
                forall m x, nth_error (s_resample_index s) m = Some x ->
                  ((m < l)%nat /\ x <> None) \/
                  ((l <= m)%nat /\ nth_error ri0 m = Some x))
             _ _ s Hrun).
    - cbn. split; [reflexivity|]. intros m x Hx. right. split; [lia | exact Hx].
    - intros l s0 s1 Hl [Hlen Hidx] Hstep.
      destruct (smc_level_inv exp cfg o infl sf E _ _ picks l s0 s1 Hstep)
        as (ml_ne & ri & J & P & V & Pl & Vl & w & sens & idx
            & _ & Hril & _ & _ & _ & _ & _ & _ & _ & _ & _ & _ & _ & _ & Hri').
      rewrite Hri', set_nth_length. split; [exact Hlen|].
      intros m x Hx. destruct (Nat.eq_dec m l) as [->|Hne].
      + rewrite nth_error_set_nth_eq in Hx
          by (apply nth_error_Some; congruence).
        injection Hx as <-. left. split; [lia | discriminate].
      + rewrite nth_error_set_nth_ne in Hx by lia.
        destruct (Hidx m x Hx) as [[H1 H2]|[H1 H2]].
        * left. split; [lia | exact H2].
        * right. split; [lia | exact H2]. }
  destruct Hinv as [Hlen Hidx]. split; [exact Hlen|].
  intros m x Hx. destruct (Hidx m x Hx) as [[_ H]|H]; [left | right]; exact H.
Qed.

(** The constructor leaves a consistent population, and every successful
    call of [calc_ensemble_weights] keeps it consistent. *)
Lemma calc_ensemble_weights_consistent (cfg : settings) (o : obj) (x : vec)
    (a0 : Q) (a1 : matrix) (a2 : Q) (draws : nat -> matrix)
    (picks : nat -> option (list nat)) (sens : vec)
    (best : option (vec * Q)) (o' : obj) :
  population_consistent o ->
  calc_ensemble_weights function bias_func exp cfg o x a0 a1 a2 draws picks
    = Some (sens, best, o') ->
  population_consistent o'.
Proof.
  intros Hcons Hrun.
  destruct (calc_ensemble_weights_inv _ _ _ _ _ _ _ _ _ _ _ Hrun)
    as (ens & o6 & s & _ & _ & Hv6 & _ & _ & _ & Hlev & _ & _ & _ & Hri & _).
  destruct (smc_levels_resample_index _ _ _ _ _ _ _ _ Hlev) as [Hlen Hidx].
  unfold population_consistent. rewrite Hri. apply Forall_forall.
  intros y Hy. apply In_nth_error in Hy. destruct Hy as [m Hm].
  destruct (Hidx m y Hm) as [H|[Hge H]]; [exact H|].
  rewrite Hv6 in Hge. unfold start_index_list, population_consistent in *.
  destruct (resample_index o) as [r|].
  - rewrite Forall_forall in Hcons. apply Hcons. eapply nth_error_In. exact H.
  - assert (Hlt : (m < length (repeat (@None (list nat))
                                  (length (function (aug_state ens)))))%nat)
      by (apply nth_error_Some; congruence).
    rewrite repeat_length in Hlt. lia.
Qed.

(** C9.  In a multilevel configuration [calc_ensemble_weights] returns the
    [cov_wgt]-weighted sum of the level sensitivities (the particle matrix of
    the level times its normalised weights) divided by the declared
    [num_samples].  This holds on the first call and on every later one,
    where the fresh ensemble has only [round(num_samples * survival_factor)]
    members, and whatever the sizes of the levels are. *)
Theorem C9_sensitivity_divided_by_num_samples (cfg : settings)
    (ml : multilevel) (o : obj) (x : vec) (a0 : Q) (a1 : matrix) (a2 : Q)
    (draws : nat -> matrix) (picks : nat -> option (list nat)) (sens : vec)
    (best : option (vec * Q)) (o' : obj) :
  keys_en_multilevel cfg = Some ml ->
  population_consistent o ->
  calc_ensemble_weights function bias_func exp cfg o x a0 a1 a2 draws picks
    = Some (sens, best, o') ->
  exists ens level_sens,
    _gen_state_ensemble cfg
      (set_ne (set_smc_args (set_state o (update_optim_state x (state o)))
                 a0 a1 a2) (sampled_ne cfg o a2)) draws = Some ens /\
    state o' = EnsState ens /\
    length level_sens = length (ens_func_values o') /\
    (forall l, (l < length (ens_func_values o'))%nat ->
       level_sens_of exp a0 (en_size ml) (particles o') (particle_values o')
         l (nth l level_sens [])) /\
    forall k, (k < length (aug_state ens))%nat ->
      nth k sens 0 ==
        bigsum (length (ens_func_values o'))
          (fun l => nth k (nth l level_sens []) 0 * nth l (cov_wgt ml) 0)
        / inject_Z (num_samples cfg).
Proof.
  intros Hml Hcons Hrun.
  destruct (calc_ensemble_weights_inv _ _ _ _ _ _ _ _ _ _ _ Hrun)
    as (ens & o6 & s & Hgen & Hst & Hv6 & Hv' & HP6 & HV6 & Hlev & Hcomb
        & HP' & HV' & _ & _).
  assert (Hinv := smc_levels_inv cfg o6 a0 a2 (aug_state ens) picks
                    (start_index_list o (length (function (aug_state ens))))
                    s).
  cbv zeta in Hinv. rewrite Hv6, HP6, HV6 in Hinv.
  specialize (Hinv (consistent_call o _ Hcons) Hlev).
  destruct Hinv as (Hlen & _ & _ & Hdone).
  unfold declared_en_size in Hdone. rewrite Hml in Hdone.
  exists ens, (s_level_sens s). rewrite Hv', HP', HV'.
  split; [exact Hgen|]. split; [exact Hst|]. split; [exact Hlen|].
  split; [intros l Hl; apply (Hdone l Hl)|].
  apply (combine_vectors_inv cfg ml (num_samples cfg) (length (aug_state ens))
           (NumPy.zeros (length (aug_state ens))) (s_level_sens s) _ sens Hml
           Hcomb).
  - apply zeros_length.
  - intros k Hk. rewrite nth_zeros. reflexivity.
  - intros l Hl. destruct (Hdone l Hl) as (_ & _ & HlenP & (n' & w' & _ & _ & Hm)).
    apply matmul_vec_length in Hm. rewrite Hm. exact HlenP.
Qed.

(** C6.  Without a multilevel configuration the three methods return the
    result of level 0 as it is: the level gradient of [gradient], the level
    hessian of [hessian], and for [calc_ensemble_weights] the particle matrix
    of level 0 times its normalised weights.  No division by an ensemble
    size or a level count follows. *)
Theorem C6_single_level_direct (_aux_input : settings -> obj -> nat)
    (cfg : settings) :
  keys_en_multilevel cfg = None ->
  (forall o nr g o',
     gradient_estimate cfg o nr = Some (g, o') ->
     exists s, gradient_levels cfg o nr = Some s /\
               nth_error (g_level_gradient s) 0 = Some g) /\
  (forall o H o',
     hessian _aux_input cfg o = Some (H, o') ->
     exists lv, hessian_levels _aux_input cfg o = Some lv /\
                nth_error lv 0 = Some H) /\
  (forall o x a0 a1 a2 draws picks sens best o',
     population_consistent o ->
     calc_ensemble_weights function bias_func exp cfg o x a0 a1 a2 draws picks
       = Some (sens, best, o') ->
     level_sens_of exp a0 [num_samples cfg] (particles o')
       (particle_values o') 0 sens).
Proof.
  intros Hml. split; [|split].
  - intros o nr g o' H. unfold gradient_estimate in H.
    destruct (aug_state_ens (state o)) as [E|]; cbn [bind] in H;
      [|discriminate].
    destruct (gradient_levels cfg o nr) as [s|]; cbn [bind] in H;
      [|discriminate].
    unfold multilevel_combine in H. rewrite Hml in H.
    destruct (nth_error (g_level_gradient s) 0) as [g0|] eqn:Eg;
      cbn [bind] in H; [|discriminate].
    injection H as <- <-. exists s. split; [reflexivity | exact Eg].
  - intros o H o' Hh. unfold hessian in Hh.
    destruct (hessian_levels _aux_input cfg o) as [lv|]; cbn [bind] in Hh;
      [|discriminate].
    unfold multilevel_combine in Hh. rewrite Hml in Hh.
    destruct (nth_error lv 0) as [H0|] eqn:EH; cbn [bind] in Hh;
      [|discriminate].
    injection Hh as <- <-. exists lv. split; [reflexivity | exact EH].
  - intros o x a0 a1 a2 draws picks sens best o' Hcons Hrun.
    destruct (calc_ensemble_weights_inv _ _ _ _ _ _ _ _ _ _ _ Hrun)
      as (ens & o6 & s & _ & _ & Hv6 & _ & HP6 & HV6 & Hlev & Hcomb
          & HP' & HV' & _ & _).
    assert (Hinv := smc_levels_inv cfg o6 a0 a2 (aug_state ens) picks
                      (start_index_list o (length (function (aug_state ens))))
                      s).
    cbv zeta in Hinv. rewrite Hv6, HP6, HV6 in Hinv.
    specialize (Hinv (consistent_call o _ Hcons) Hlev).
    destruct Hinv as (Hlen & _ & _ & Hdone).
    unfold multilevel_combine in Hcomb. rewrite Hml in Hcomb.
    apply nth_error_nth_some with (d := []) in Hcomb.
    destruct Hcomb as [Hs0 Hlt]. rewrite Hlen in Hlt.
    destruct (Hdone 0%nat Hlt) as (_ & _ & _ & Hsens).
    unfold declared_en_size in Hsens. rewrite Hml, Hs0 in Hsens.
    rewrite HP', HV'. exact Hsens.
Qed.

End Whole.

(** The second of two rounds on two levels: the fresh ensemble has two
    members, the divisor is the declared four. *)
Lemma C9_sensitivity_divided_by_num_samples_witness :
  calc_ensemble_weights Examples.objective_half Examples.no_bias
    Examples.exp_tangent Examples.cfg_ml Examples.o_round1 [0] 1 [[1]] (1 # 2)
    Examples.draws2 Examples.picks0
  = Some (Examples.sens_round2, Examples.best_round2, Examples.o_round2)
  /\ exists ens level_sens,
       state Examples.o_round2 = EnsState ens /\
       Forall (fun r => length r = 2%nat) (aug_state ens) /\
       nth 0 Examples.sens_round2 0 ==
         bigsum 2 (fun l => nth 0 (nth l level_sens []) 0 * 1) / 4.
Proof.
  assert (Hrun : calc_ensemble_weights Examples.objective_half
                   Examples.no_bias Examples.exp_tangent Examples.cfg_ml
                   Examples.o_round1 [0] 1 [[1]] (1 # 2) Examples.draws2
                   Examples.picks0
                 = Some (Examples.sens_round2, Examples.best_round2,
                         Examples.o_round2))
    by (vm_compute; reflexivity).
  split; [exact Hrun|].
  destruct (C9_sensitivity_divided_by_num_samples Examples.objective_half
              Examples.no_bias Examples.exp_tangent Examples.cfg_ml
              {| en_size := [2; 2]%Z; cov_wgt := [1; 1] |}
              Examples.o_round1 [0] 1 [[1]] (1 # 2) Examples.draws2
              Examples.picks0 Examples.sens_round2
              Examples.best_round2 Examples.o_round2)
    as (ens & ls & Hgen & Hst & _ & _ & Hsum).
  - reflexivity.
  - vm_compute. repeat constructor; discriminate.
  - exact Hrun.
  - exists ens, ls. split; [exact Hst|].
    vm_compute in Hgen. injection Hgen as <-.
    split; [repeat constructor|].
    rewrite (Hsum 0%nat) by (vm_compute; lia).
    apply Qmult_comp; [|reflexivity].
    apply bigsum_ext. intros [|[|i]] Hi; try lia; reflexivity.
Defined.

(** The single-level runs: the estimator returns the level-0 gradient, and
    the sensitivity is the particle matrix times its weights. *)
Lemma C6_single_level_direct_witness :
  gradient_estimate Examples.cfg_single Examples.o_single 1
    = Some (Examples.g_single, Examples.o_single) /\
  (exists s,
     gradient_levels Examples.cfg_single Examples.o_single 1 = Some s /\
     nth_error (g_level_gradient s) 0 = Some Examples.g_single) /\
  level_sens_of Examples.exp_tangent 1 [4%Z]
    (particles Examples.o_smc_single) (particle_values Examples.o_smc_single)
    0 Examples.sens_smc_single.
Proof.
  assert (Hrun : gradient_estimate Examples.cfg_single Examples.o_single 1
                 = Some (Examples.g_single, Examples.o_single))
    by (vm_compute; reflexivity).
  assert (Hsmc : calc_ensemble_weights Examples.objective1 Examples.no_bias
                   Examples.exp_tangent Examples.cfg_single Examples.o_init
                   [0] 1 [[1]] (1 # 2) Examples.draws4 Examples.picks01
                 = Some (Examples.sens_smc_single, Examples.best_smc_single,
                         Examples.o_smc_single))
    by (vm_compute; reflexivity).
  split; [exact Hrun|].
  destruct (C6_single_level_direct Examples.objective1 Examples.no_bias
              Examples.exp_tangent Examples.nr1 Examples.cfg_single eq_refl)
    as (Hg & _ & Hs).
  split; [exact (Hg _ _ _ _ Hrun)|].
  apply (Hs Examples.o_init [0] 1 [[1]] (1 # 2) Examples.draws4
           Examples.picks01 Examples.sens_smc_single Examples.best_smc_single
           Examples.o_smc_single); [|exact Hsmc].
  split; reflexivity.
Defined.

End SmcWeighter.

(** ** The member counts of the SMC levels (C5) *)

Module SmcCounts.
Import GaussianEnsemble.
Import GradientEstimator.
Import SmcLoop.
Import SmcWeighter.

Section Counts.
Variable exp : Q -> Q.
Variable cfg : settings.
Variable o : obj.
Variables infl sf : Q.
Variable E : matrix.
Variable picks : nat -> option (list nat).
Variable ri0 : list (option (list nat)).

Local Abbreviation L := (length (ens_func_values o)).
Local Abbreviation N := (declared_en_size cfg).
Local Abbreviation rnd := (Invariants.level_round sf N).
Local Abbreviation target := (NumPy.round (NumPy.fmul (num_samples cfg) sf)).
Local Abbreviation new_count := (Invariants.new_count cfg sf N L).
Local Abbreviation entry := (smc_entry exp cfg o infl sf E picks ri0).

Local Abbreviation counts_inv := (Invariants.counts_inv cfg sf L).

Lemma ml_counts_new (l : nat) (s : smc_loop) :
  (l < L)%nat -> counts_inv l s ->
  ml_counts cfg sf L l (nth l N 0%Z) (s_ml_ne_new_total s)
  = (new_count l, (nth l N 0 - new_count l)%Z,
     bigsumZ (if (1 <? L)%nat then Nat.min (S l) (L - 1) else S l) rnd).
Proof.
  intros Hl [_ Htot]. unfold ml_counts, Invariants.new_count.
  fold (rnd l). rewrite Htot.
  destruct (1 <? L)%nat eqn:E1; cbn [andb].
  - destruct (l =? L - 1)%nat eqn:E2.
    + apply Nat.eqb_eq in E2. rewrite E2, Nat.min_id.
      replace (Nat.min (S (L - 1)) (L - 1)) with (L - 1)%nat by lia.
      reflexivity.
    + apply Nat.eqb_neq in E2.
      replace (Nat.min (S l) (L - 1)) with (S l) by lia.
      replace (Nat.min l (L - 1)) with l by lia. reflexivity.
  - reflexivity.
Qed.

Lemma counts_step (l : nat) (s s' : smc_loop) :
  (l < L)%nat -> counts_inv l s ->
  smc_level exp cfg o infl sf E L N picks l s = Some s' ->
  counts_inv (S l) s'.
Proof.
  intros Hl Hinv Hstep.
  destruct (smc_level_inv exp cfg o infl sf E L N picks l s s' Hstep)
    as (ml_ne & ri & J & P & V & Pl & Vl & w & sens & idx
        & HN & _ & _ & _ & _ & _ & _ & _ & _ & Hst' & Htot' & _).
  apply nth_error_nth_some with (d := 0%Z) in HN. destruct HN as [HN _].
  rewrite <- HN, (ml_counts_new l s Hl Hinv) in Hst', Htot'.
  cbn [fst snd] in Hst', Htot'. destruct Hinv as [Hstart _].
  split; [|exact Htot']. rewrite Hst', Hstart. reflexivity.
Qed.

Lemma entry_counts (l : nat) (s : smc_loop) :
  (l <= L)%nat -> entry l = Some s -> counts_inv l s.
Proof.
  intros Hl Hrun. unfold smc_entry in Hrun.
  apply (for_each_range_inv _ counts_inv l _ s Hrun).
  - split; [reflexivity|]. cbn [s_ml_ne_new_total].
    destruct (1 <? L)%nat; reflexivity.
  - intros k s0 s1 Hk Hinv Hstep. apply (counts_step k s0 s1); [lia | |];
      assumption.
Qed.

(** The counts with which the pass for level [l] updates the population. *)
Lemma pass_counts (l : nat) (s s' : smc_loop) :
  (l < L)%nat -> entry l = Some s ->
  smc_level exp cfg o infl sf E L N picks l s = Some s' ->
  s_start_index s = bigsumZ l new_count /\
  s_start_index s' = bigsumZ (S l) new_count /\
  exists ri,
    nth_error (s_resample_index s) l = Some ri /\
    update_population E (nth l (ens_func_values o) []) (bigsumZ l new_count)
      (nth l N 0%Z) (new_count l) (nth l N 0 - new_count l)%Z l ri
      (s_particles s) (s_particle_values s)
    = Some (s_particles s', s_particle_values s').
Proof.
  intros Hl Hentry Hstep.
  assert (Hinv := entry_counts l s (Nat.lt_le_incl _ _ Hl) Hentry).
  assert (Hinv' := counts_step l s s' Hl Hinv Hstep).
  destruct (smc_level_inv exp cfg o infl sf E L N picks l s s' Hstep)
    as (ml_ne & ri & J & P & V & Pl & Vl & w & sens & idx
        & HN & Hri & HJ & Hup & _ & _ & _ & _ & _ & _ & _ & _ & HP & HV & _).
  apply nth_error_nth_some with (d := 0%Z) in HN. destruct HN as [HN _].
  apply nth_error_nth_some with (d := []) in HJ. destruct HJ as [HJ _].
  rewrite <- HN, (ml_counts_new l s Hl Hinv) in Hup. cbn [fst snd] in Hup.
  destruct Hinv as [Hstart _]. destruct Hinv' as [Hstart' _].
  split; [exact Hstart|]. split; [exact Hstart'|].
  exists ri. split; [exact Hri|].
  rewrite HJ, <- Hstart, HP, HV. exact Hup.
Qed.

End Counts.

Section Closed.
Variable cfg : settings.
Variable sf : Q.
Variable L : nat.

Local Abbreviation N := (declared_en_size cfg).
Local Abbreviation rnd := (Invariants.level_round sf N).
Local Abbreviation target := (NumPy.round (NumPy.fmul (num_samples cfg) sf)).
Local Abbreviation new_count := (Invariants.new_count cfg sf N L).

Lemma new_count_inner (l : nat) : (l < L - 1)%nat -> new_count l = rnd l.
Proof.
  intros Hl. unfold Invariants.new_count.
  replace (l =? L - 1)%nat with false; [rewrite andb_false_r; reflexivity|].
  symmetry. apply Nat.eqb_neq. lia.
Qed.

Lemma new_count_last :
  (1 <= L)%nat -> bigsumZ L (fun l => nth l N 0%Z) = num_samples cfg ->
  new_count (L - 1) = (target - bigsumZ (L - 1) rnd)%Z.
Proof.
  intros HL Hsum. unfold Invariants.new_count. rewrite Nat.eqb_refl.
  destruct (1 <? L)%nat eqn:E1; cbn [andb]; [reflexivity|].
  apply Nat.ltb_ge in E1. assert (HL1 : L = 1%nat) by lia.
  rewrite HL1 in *. cbn [bigsumZ Nat.sub] in *. unfold Invariants.level_round.
  replace (nth 0 N 0%Z) with (num_samples cfg) by lia. lia.
Qed.

Lemma new_count_total :
  (1 <= L)%nat -> bigsumZ L (fun l => nth l N 0%Z) = num_samples cfg ->
  bigsumZ L new_count = target.
Proof.
  intros HL Hsum.
  replace L with (S (L - 1)) at 1 by lia. cbn [bigsumZ].
  rewrite (bigsumZ_ext (L - 1) new_count rnd)
    by (intros i Hi; apply new_count_inner; exact Hi).
  rewrite (new_count_last HL Hsum). lia.
Qed.

End Closed.

(** C5.  In a call of [calc_ensemble_weights] with survival fraction [sf]
    on [L] levels whose declared sizes sum to [num_samples], the pass of the
    loop for level [l] starts at the column that the new-sample counts of
    the levels before it add up to, and updates the population with the
    level size, the new-sample count and the surviving count
    [en_size[l] - new]; the new-sample count is [round(en_size[l] * sf)] for
    every level but the last and [round(num_samples * sf)] minus the counts
    of the other levels for the last, so the counts add up to
    [round(num_samples * sf)], the column at which the loop ends.  The
    products under [round] are double products. *)
Theorem C5_new_sample_counts (function : matrix -> list vec)
    (bias_func : obj -> vec) (exp : Q -> Q) (cfg : settings) (o : obj)
    (x : vec) (a0 : Q) (a1 : matrix) (sf : Q) (draws : nat -> matrix)
    (picks : nat -> option (list nat)) (sens : vec)
    (best : option (vec * Q)) (o' : obj) :
  calc_ensemble_weights function bias_func exp cfg o x a0 a1 sf draws picks
    = Some (sens, best, o') ->
  let N := declared_en_size cfg in
  let L := length (ens_func_values o') in
  let new := Invariants.new_count cfg sf N L in
  (1 <= L)%nat ->
  bigsumZ L (fun l => nth l N 0%Z) = num_samples cfg ->
  (exists ens o6,
     state o' = EnsState ens /\
     ens_func_values o6 = ens_func_values o' /\
     particles o6 = particles o /\
     particle_values o6 = particle_values o /\
     let entry :=
       smc_entry exp cfg o6 a0 sf (aug_state ens) picks
         (start_index_list o L) in
     (forall l, (l < L)%nat ->
        exists s s' ri,
          entry l = Some s /\
          smc_level exp cfg o6 a0 sf (aug_state ens) L N picks l s = Some s' /\
          entry (S l) = Some s' /\
          s_start_index s = bigsumZ l new /\
          nth_error (s_resample_index s) l = Some ri /\
          update_population (aug_state ens) (nth l (ens_func_values o') [])
            (bigsumZ l new) (nth l N 0%Z) (new l) (nth l N 0%Z - new l)%Z l ri
            (s_particles s) (s_particle_values s)
          = Some (s_particles s', s_particle_values s')) /\
     exists s_end,
       entry L = Some s_end /\
       particles o' = s_particles s_end /\
       particle_values o' = s_particle_values s_end /\
       s_start_index s_end = bigsumZ L new) /\
  (forall l, (l < L - 1)%nat ->
     new l = NumPy.round (NumPy.fmul (nth l N 0%Z) sf)) /\
  new (L - 1)%nat
    = (NumPy.round (NumPy.fmul (num_samples cfg) sf)
       - bigsumZ (L - 1)
           (fun l => NumPy.round (NumPy.fmul (nth l N 0%Z) sf)))%Z /\
  bigsumZ L new = NumPy.round (NumPy.fmul (num_samples cfg) sf).
Proof.
  intros Hrun N L new HL Hsum.
  split; [|split; [|split]].
  - destruct (calc_ensemble_weights_inv _ _ _ _ _ _ _ _ _ _ _ _ _ _ Hrun)
      as (ens & o6 & s & _ & Hst & Hv6 & Hv' & HP6 & HV6 & Hlev & _
          & HP' & HV' & _ & _).
    assert (HL6 : length (ens_func_values o6) = L)
      by (unfold L; rewrite Hv6, Hv'; reflexivity).
    rewrite <- Hv' in Hlev. fold L in Hlev.
    unfold smc_levels in Hlev. rewrite HL6 in Hlev.
    assert (Hend : smc_entry exp cfg o6 a0 sf (aug_state ens) picks
                     (start_index_list o L) L = Some s).
    { unfold smc_entry. rewrite HL6. exact Hlev. }
    exists ens, o6. split; [exact Hst|].
    split; [rewrite Hv6, Hv'; reflexivity|].
    split; [exact HP6|]. split; [exact HV6|]. cbv zeta. split.
    + intros l Hl.
      destruct (for_each_range_prefix _ L _ s Hlev l Hl)
        as (s0 & s1 & Hs0 & Hs1 & Hs01).
      assert (Hentry : smc_entry exp cfg o6 a0 sf (aug_state ens) picks
                         (start_index_list o L) l = Some s0).
      { unfold smc_entry. rewrite HL6. exact Hs0. }
      assert (Hl6 : (l < length (ens_func_values o6))%nat)
        by (rewrite HL6; exact Hl).
      rewrite <- HL6 in Hs1.
      destruct (pass_counts exp cfg o6 a0 sf (aug_state ens) picks
                  (start_index_list o L) l s0 s1 Hl6 Hentry Hs1)
        as (Hstart & _ & ri & Hri & Hup).
      rewrite HL6 in Hs1, Hstart, Hup.
      exists s0, s1, ri. split; [exact Hentry|]. split; [exact Hs1|].
      split; [unfold smc_entry; rewrite HL6; exact Hs01|].
      split; [exact Hstart|]. split; [exact Hri|].
      replace (ens_func_values o') with (ens_func_values o6)
        by (rewrite Hv6, Hv'; reflexivity).
      exact Hup.
    + exists s. split; [exact Hend|]. split; [exact HP'|].
      split; [exact HV'|].
      assert (Hinv := entry_counts exp cfg o6 a0 sf (aug_state ens) picks
                        (start_index_list o L) L s).
      rewrite HL6 in Hinv. destruct (Hinv (le_n L) Hend) as [Hstart _].
      exact Hstart.
  - intros l Hl. apply (new_count_inner cfg sf L l Hl).
  - apply (new_count_last cfg sf L HL Hsum).
  - apply (new_count_total cfg sf L HL Hsum).
Qed.

(** The second round of the two-level run with survival fraction one half:
    one new sample per level, the loop ends at column [2 = round(4 / 2)]. *)
Lemma C5_new_sample_counts_witness :
  exists ens o6 s_end,
    smc_entry Examples.exp_tangent Examples.cfg_ml o6 1 (1 # 2)
      (aug_state ens) Examples.picks0
      (start_index_list Examples.o_round1 2) 2 = Some s_end /\
    particles Examples.o_round2 = s_particles s_end /\
    s_start_index s_end = 2%Z /\
    Invariants.new_count Examples.cfg_ml (1 # 2) [2; 2]%Z 2 0 = 1%Z /\
    Invariants.new_count Examples.cfg_ml (1 # 2) [2; 2]%Z 2 1 = 1%Z.
Proof.
  destruct (C5_new_sample_counts Examples.objective_half Examples.no_bias
              Examples.exp_tangent Examples.cfg_ml Examples.o_round1 [0] 1
              [[1]] (1 # 2) Examples.draws2 Examples.picks0
              Examples.sens_round2 Examples.best_round2 Examples.o_round2)
    as ((ens & o6 & _ & _ & _ & _ & _ & (s_end & H1 & H2 & _ & H3))
        & Hinner & Hlast & Htot).
  - vm_compute. reflexivity.
  - vm_compute. lia.
  - reflexivity.
  - exists ens, o6, s_end. split; [exact H1|]. split; [exact H2|].
    split; [rewrite H3; exact Htot|].
    split; [apply (Hinner 0%nat); vm_compute; lia | exact Hlast].
Defined.

End SmcCounts.

(** ** The seeding of the particle population on the first call (C10) *)

Module SmcFirstCall.
Import GaussianEnsemble.
Import GradientEstimator.
Import SmcLoop.
Import SmcWeighter.
Import Doubles.

(** The seeding offset against the level's own first column. *)
Lemma seed_before_own (sf : Q) (N : list Z) (l : nat) :
  (forall k, (k < l)%nat -> (0 <= nth k N 0 < 2 ^ 53)%Z) -> sf <= 1 ->
  (seed_offset sf N l <= own_offset N l)%Z /\
  ((seed_offset sf N l < own_offset N l)%Z <->
   exists k, (k < l)%nat /\
     (NumPy.round (NumPy.fmul (nth k N 0%Z) sf) < nth k N 0)%Z).
Proof.
  intros Hpos Hsf. unfold seed_offset, own_offset.
  induction l as [|l IH]; cbn [bigsumZ].
  - split; [lia|]. split; [lia|]. intros (k & Hk & _). lia.
  - destruct IH as [IHle IHlt]; [intros k Hk; apply Hpos; lia|].
    assert (Hl := round_fmul_le (nth l N 0%Z) sf
                    (Hpos l (Nat.lt_succ_diag_r l)) Hsf).
    split; [lia|]. split.
    + intros Hlt.
      destruct (Z_lt_dec (NumPy.round (NumPy.fmul (nth l N 0%Z) sf))
                  (nth l N 0%Z)) as [Hnew|Hnew].
      * exists l. split; [lia | exact Hnew].
      * destruct IHlt as [IHlt _].
        destruct IHlt as (k & Hk & Hklt); [lia|].
        exists k. split; [lia | exact Hklt].
    + intros (k & Hk & Hlt).
      destruct (Nat.eq_dec k l) as [->|Hne]; [lia|].
      assert (Hk' : (k < l)%nat) by lia.
      destruct IHlt as [_ IHlt].
      specialize (IHlt (ex_intro _ k (conj Hk' Hlt))). lia.
Qed.

Section FirstCall.
Variable exp : Q -> Q.
Variable cfg : settings.
Variable o : obj.
Variables infl sf : Q.
Variable E : matrix.
Variable picks : nat -> option (list nat).

Local Abbreviation L := (length (ens_func_values o)).
Local Abbreviation N := (declared_en_size cfg).
Local Abbreviation seed_inv := (Invariants.seed_inv cfg o sf E).

Lemma seed_step (l : nat) (s s' : smc_loop) :
  (l < L)%nat -> seed_inv l s ->
  smc_level exp cfg o infl sf E L N picks l s = Some s' ->
  seed_inv (S l) s'.
Proof.
  intros Hl (Hstart & HlenP & HlenV & Hri & Hdone) Hstep.
  destruct (smc_level_inv exp cfg o infl sf E L N picks l s s' Hstep)
    as (ml_ne & ri & J & P & V & Pl & Vl & w & sens & idx
        & HN & Hril & HJ & Hup & _ & _ & _ & _ & _
        & Hst' & Htot' & _ & HP & HV & Hri').
  rewrite (Hri l (le_n l) Hl) in Hril. injection Hril as <-.
  cbn [update_population] in Hup. injection Hup as <- <-.
  destruct (Hstart (or_introl Hl)) as [Hs Ht].
  apply nth_error_nth_some with (d := 0%Z) in HN. destruct HN as [HN _].
  apply nth_error_nth_some with (d := []) in HJ. destruct HJ as [HJ _].
  unfold Invariants.seed_inv. rewrite HP, HV, Hri', Hst', Htot'.
  split; [|split; [|split; [|split]]].
  - intros Hcase. unfold ml_counts.
    replace ((1 <? L)%nat && (l =? L - 1)%nat) with false.
    + cbn [fst snd]. unfold seed_offset in *. cbn [bigsumZ].
      rewrite HN, Hs, Ht. split; reflexivity.
    + symmetry. apply andb_false_iff. destruct Hcase as [H|H].
      * right. apply Nat.eqb_neq. lia.
      * left. apply Nat.ltb_ge. exact H.
  - rewrite length_app. cbn [length]. lia.
  - rewrite length_app. cbn [length]. lia.
  - intros m Hm HmL. rewrite nth_error_set_nth_ne by lia. apply Hri; lia.
  - intros m Hm. destruct (Nat.eq_dec m l) as [->|Hne].
    + rewrite !nth_error_app2, HlenP, HlenV, Nat.sub_diag by lia.
      cbn [nth_error]. rewrite Hs, HN, HJ. split; reflexivity.
    + rewrite !nth_error_app1 by lia. apply Hdone. lia.
Qed.

Lemma seed_run (s : smc_loop) :
  particles o = [] -> particle_values o = [] ->
  smc_levels exp cfg o infl sf E picks (repeat None L) = Some s ->
  seed_inv L s.
Proof.
  intros HP HV Hrun. unfold smc_levels in Hrun.
  apply (for_each_range_inv _ seed_inv L _ s Hrun).
  - unfold Invariants.seed_inv. cbn [s_start_index s_ml_ne_new_total s_particles
      s_particle_values s_resample_index]. rewrite HP, HV.
    split; [intros _; split; reflexivity|].
    split; [reflexivity|]. split; [reflexivity|]. split.
    + intros m _ Hm. rewrite (nth_error_nth_lt _ m None)
        by (rewrite repeat_length; exact Hm).
      f_equal. apply nth_repeat.
    + intros m Hm. lia.
  - intros l s0 s1 Hl Hinv Hstep. apply (seed_step l s0 s1 Hl Hinv Hstep).
Qed.

End FirstCall.

(** C10, as the code has it.  On the first call the particle matrix of
    level [l] is the slice of the fresh ensemble that starts at the sum of
    [round(en_size[k] * f)] over the levels [k < l] and has the width
    [en_size[l]], while [particle_values[l]] holds the objective values of
    level [l]; the product under [round] is the double product.  With
    [f <= 1] and level sizes from [0] to below [2 ** 53] this start never
    lies behind the level's own first column, and it lies before it exactly
    when one earlier level has [round(en_size[k] * f) < en_size[k]]; the
    slices of levels [l] and [l + 1] overlap as soon as
    [0 <= round(en_size[l] * f) < en_size[l]] and level [l + 1] is not
    empty. *)
Theorem C10_first_call_seed (function : matrix -> list vec)
    (bias_func : obj -> vec) (exp : Q -> Q) (cfg : settings) (o : obj)
    (x : vec) (a0 : Q) (a1 : matrix) (sf : Q) (draws : nat -> matrix)
    (picks : nat -> option (list nat)) (sens : vec)
    (best : option (vec * Q)) (o' : obj) :
  resample_index o = None ->
  particles o = [] ->
  particle_values o = [] ->
  calc_ensemble_weights function bias_func exp cfg o x a0 a1 sf draws picks
    = Some (sens, best, o') ->
  let N := declared_en_size cfg in
  let L := length (ens_func_values o') in
  (exists ens,
     state o' = EnsState ens /\
     forall l, (l < L)%nat ->
       nth_error (particles o') l
         = Some (NumPy.cols (aug_state ens) (seed_offset sf N l)
                   (seed_offset sf N l + nth l N 0%Z)%Z) /\
       nth_error (particle_values o') l
         = Some (nth l (ens_func_values o') [])) /\
  (forall l,
     (forall k, (k < l)%nat -> (0 <= nth k N 0 < 2 ^ 53)%Z) -> sf <= 1 ->
     (seed_offset sf N l <= own_offset N l)%Z /\
     ((seed_offset sf N l < own_offset N l)%Z <->
      exists k, (k < l)%nat /\
        (NumPy.round (NumPy.fmul (nth k N 0%Z) sf) < nth k N 0)%Z)) /\
  (forall l,
     (0 <= NumPy.round (NumPy.fmul (nth l N 0%Z) sf) < nth l N 0)%Z ->
     (0 < nth (S l) N 0)%Z ->
     (seed_offset sf N l <= seed_offset sf N (S l)
      < seed_offset sf N l + nth l N 0)%Z).
Proof.
  intros Hri HP HV Hrun N L. split; [|split].
  - destruct (calc_ensemble_weights_inv _ _ _ _ _ _ _ _ _ _ _ _ _ _ Hrun)
      as (ens & o6 & s & _ & Hst & Hv6 & Hv' & HP6 & HV6 & Hlev & _
          & HP' & HV' & _ & _).
    unfold start_index_list in Hlev. rewrite Hri, <- Hv6 in Hlev.
    assert (Hinv := seed_run exp cfg o6 a0 sf (aug_state ens) picks s).
    rewrite HP6, HV6 in Hinv. specialize (Hinv HP HV Hlev).
    destruct Hinv as (_ & _ & _ & _ & Hdone).
    exists ens. split; [exact Hst|].
    intros l Hl. unfold L in Hl. rewrite Hv', <- Hv6 in Hl.
    destruct (Hdone l Hl) as [H1 H2].
    rewrite HP', HV', Hv', <- Hv6. split; [exact H1 | exact H2].
  - intros l Hpos Hsf. apply seed_before_own; assumption.
  - intros l Hnew Hnext. unfold seed_offset. cbn [bigsumZ]. lia.
Qed.

(** The two-level run with survival fraction one half: level 1 is seeded
    from column [round(2 / 2) = 1], one column before its own. *)
Lemma C10_first_call_seed_witness :
  nth_error (particles Examples.o_round1) 1
    = Some (NumPy.cols [[4 # 4; -4 # 4; 8 # 4; -8 # 4]] 1 3) /\
  (seed_offset (1 # 2) [2; 2]%Z 1 < own_offset [2; 2]%Z 1)%Z.
Proof.
  destruct (C10_first_call_seed Examples.objective_half Examples.no_bias
              Examples.exp_tangent Examples.cfg_ml Examples.o_init [0] 1
              [[1]] (1 # 2) Examples.draws4 Examples.picks0
              Examples.sens_round1 Examples.best_round1 Examples.o_round1)
    as ((ens & Hst & Hseed) & Hbefore & _).
  - reflexivity.
  - reflexivity.
  - reflexivity.
  - vm_compute. reflexivity.
  - split.
    + destruct (Hseed 1%nat) as [H1 _]; [vm_compute; lia|].
      vm_compute in Hst. injection Hst as <-. exact H1.
    + destruct (Hbefore 1%nat) as [_ [_ Hlt]].
      * intros [|k] Hk; [cbn; lia | lia].
      * discriminate.
      * apply Hlt. exists 0%nat. split; [lia | vm_compute; reflexivity].
Defined.

(** C10 fails as stated: with two levels of two members and the survival
    fraction [9/10 < 1], [round(2 * 9/10) = 2], so level 1 is seeded from
    column 2, its own first column: the slices [0:2] and [2:4] do not
    overlap, and the seeded columns of level 1 are the states its objective
    values were computed from. *)
Lemma C10_counterexample :
  (9 # 10) < 1 /\
  (1 < length (ens_func_values Examples.o_ninety))%nat /\
  Examples.smc_ninety <> None /\
  resample_index Examples.o_init = None /\
  nth_error (particles Examples.o_ninety) 0
    = Some (NumPy.cols [[4 # 4; -4 # 4; 8 # 4; -8 # 4]] 0 2) /\
  nth_error (particles Examples.o_ninety) 1
    = Some (NumPy.cols [[4 # 4; -4 # 4; 8 # 4; -8 # 4]] 2 4) /\
  seed_offset (9 # 10) [2; 2]%Z 1 = own_offset [2; 2]%Z 1.
Proof.
  repeat split; try reflexivity.
  - vm_compute. lia.
  - discriminate.
Qed.

End SmcFirstCall.

(** * Further properties of the two classes

    Error and edge behaviour, invariants and laws that the code of the
    methods shows beyond the statements above. *)

(** ** The generated ensemble: bounds, shape and the degenerate sizes *)

Module SamplerBounds.
Import GaussianEnsemble.

Lemma clip_le_hi (x lo hi : Q) : NumPy.clip x lo hi <= hi.
Proof. unfold NumPy.clip. apply Q.le_min_r. Qed.

Lemma clip_ge_lo (x lo hi : Q) : lo <= hi -> lo <= NumPy.clip x lo hi.
Proof.
  intros H. unfold NumPy.clip. apply Q.min_glb; [apply Q.le_max_r | exact H].
Qed.

(** What a successful run of the loop of lines 383-393 has done for every
    state variable. *)
Lemma gen_blocks_trace (cfg : settings) (draws : nat -> matrix)
    (s : list (String.string * vec)) :
  forall (i0 : nat) (ens : list (String.string * matrix)),
    gen_blocks cfg draws i0 s = Some ens ->
    length ens = length s /\
    forall i, (i < length s)%nat ->
      fst (nth i ens ("", [])) = fst (nth i s ("", [])) /\
      clip_ensemble cfg (i0 + i)
        (shifted_ensemble (snd (nth i s ("", []))) (draws (i0 + i)%nat))
      = Some (snd (nth i ens ("", []))).
Proof.
  induction s as [|[name mean] s IH]; intros i0 ens H.
  - cbn in H. injection H as <-. split; [reflexivity|]. intros i Hi.
    cbn in Hi. lia.
  - cbn [gen_blocks] in H.
    destruct (clip_ensemble cfg i0 (shifted_ensemble mean (draws i0)))
      as [blk|] eqn:Hblk; [|discriminate H].
    cbn [bind] in H.
    destruct (gen_blocks cfg draws (S i0) s) as [rest|] eqn:Hrest;
      [|discriminate H].
    cbn [bind] in H. injection H as <-.
    destruct (IH _ _ Hrest) as [Hlen Hall].
    split; [cbn [length]; rewrite Hlen; reflexivity|].
    intros [|i] Hi.
    + cbn [nth fst snd]. rewrite Nat.add_0_r. split; [reflexivity|exact Hblk].
    + cbn [nth]. cbn [length] in Hi.
      destruct (Hall i ltac:(lia)) as [Hn Hc].
      rewrite Nat.add_succ_r. split; assumption.
Qed.

(** X1.  When both bounds are configured, every entry of every block that
    [_gen_state_ensemble] returns lies within them: within [[0, 1]] when the
    controls are transformed, and otherwise at or below [ub[i]] and, when
    [lb[i] <= ub[i]], at or above [lb[i]] for state variable [i]. *)
Theorem ensemble_within_bounds (cfg : settings) (o : obj)
    (draws : nat -> matrix) (ens : list (String.string * matrix)) :
  truthy (lb cfg) && truthy (ub cfg) = true ->
  _gen_state_ensemble cfg o draws = Some ens ->
  forall i, (i < length ens)%nat ->
    if transform cfg
    then Forall (Forall (fun x => 0 <= x /\ x <= 1))
           (snd (nth i ens ("", [])))
    else exists lo hi,
        nth_error (lb cfg) i = Some lo /\ nth_error (ub cfg) i = Some hi /\
        Forall (Forall (fun x => x <= hi /\ (lo <= hi -> lo <= x)))
          (snd (nth i ens ("", []))).
Proof.
  intros Hb Hgen i Hi. unfold _gen_state_ensemble in Hgen.
  destruct (state o) as [s|s]; [|discriminate Hgen].
  destruct (gen_blocks_trace _ _ _ _ _ Hgen) as [Hlen Hall].
  destruct (Hall i ltac:(lia)) as [_ Hclip]. cbn [Nat.add] in Hclip.
  unfold clip_ensemble in Hclip. rewrite Hb in Hclip.
  destruct (transform cfg).
  - injection Hclip as <-.
    apply Forall_forall. intros r Hr. apply in_map_iff in Hr.
    destruct Hr as (r0 & <- & _).
    apply Forall_forall. intros x Hx. apply in_map_iff in Hx.
    destruct Hx as (x0 & <- & _).
    split; [apply clip_ge_lo; discriminate | apply clip_le_hi].
  - destruct (nth_error (lb cfg) i) as [lo|]; [|discriminate Hclip].
    destruct (nth_error (ub cfg) i) as [hi|]; [|discriminate Hclip].
    cbn [bind] in Hclip. injection Hclip as <-.
    exists lo, hi. split; [reflexivity|]. split; [reflexivity|].
    apply Forall_forall. intros r Hr. apply in_map_iff in Hr.
    destruct Hr as (r0 & <- & _).
    apply Forall_forall. intros x Hx. apply in_map_iff in Hx.
    destruct Hx as (x0 & <- & _).
    split; [apply clip_le_hi | intros H; apply clip_ge_lo; exact H].
Qed.

(** The bounds [[0, 1]] around the mean [9/10]: both members end within
    them. *)
Lemma ensemble_within_bounds_witness :
  exists ens,
    _gen_state_ensemble Examples.cfg_clip Examples.o_clip Examples.draws_clip
      = Some ens /\
    Forall (Forall (fun x => 0 <= x /\ x <= 1)) (snd (nth 0 ens ("", []))).
Proof.
  eexists. split; [vm_compute; reflexivity|].
  exact (ensemble_within_bounds Examples.cfg_clip Examples.o_clip
           Examples.draws_clip _ eq_refl eq_refl 0%nat
           ltac:(simpl; lia)).
Defined.

Lemma clip_ensemble_shape (cfg : settings) (i n m : nat) (M B : matrix) :
  clip_ensemble cfg i M = Some B -> wf_matrix n m M -> wf_matrix n m B.
Proof.
  intros H HM. unfold clip_ensemble in H.
  destruct (truthy (lb cfg) && truthy (ub cfg)).
  - destruct (transform cfg).
    + injection H as <-. apply HessianEstimator.wf_map. exact HM.
    + destruct (nth_error (lb cfg) i); [|discriminate H].
      destruct (nth_error (ub cfg) i); [|discriminate H].
      cbn [bind] in H. injection H as <-.
      apply HessianEstimator.wf_map. exact HM.
  - injection H as <-. exact HM.
Qed.

Lemma wf_shifted_ensemble (mean : vec) (D : matrix) (m : nat) :
  wf_matrix (length mean) m D ->
  wf_matrix (length mean) m (shifted_ensemble mean D).
Proof.
  intros [Hrows Hcols]. unfold shifted_ensemble. split.
  - rewrite map2_length, Hrows. apply Nat.min_id.
  - clear Hrows. revert D Hcols.
    induction mean as [|x mean IH]; intros D Hcols; [constructor|].
    destruct D as [|r D]; [constructor|].
    cbn [NumPy.map2]. inversion Hcols as [|? ? Hr HD]; subst.
    constructor; [rewrite length_map; reflexivity | apply IH; exact HD].
Qed.

Lemma wf_matrix_app (n1 n2 m : nat) (A B : matrix) :
  wf_matrix n1 m A -> wf_matrix n2 m B -> wf_matrix (n1 + n2) m (A ++ B).
Proof.
  intros [HA1 HA2] [HB1 HB2]. split.
  - rewrite length_app, HA1, HB1. reflexivity.
  - apply Forall_app. split; assumption.
Qed.

Lemma gen_blocks_shape (cfg : settings) (draws : nat -> matrix) (ne_ : nat)
    (s : list (String.string * vec)) :
  forall (i0 : nat) (ens : list (String.string * matrix)),
    gen_blocks cfg draws i0 s = Some ens ->
    (forall i, (i < length s)%nat ->
       wf_matrix (length (snd (nth i s ("", [])))) ne_ (draws (i0 + i)%nat)) ->
    map fst ens = map fst s /\
    wf_matrix (length (aug_state s)) ne_ (aug_state ens).
Proof.
  induction s as [|[name mean] s IH]; intros i0 ens H Hd.
  - cbn in H. injection H as <-. split; [reflexivity|].
    split; [reflexivity | constructor].
  - cbn [gen_blocks] in H.
    destruct (clip_ensemble cfg i0 (shifted_ensemble mean (draws i0)))
      as [blk|] eqn:Hblk; [|discriminate H].
    cbn [bind] in H.
    destruct (gen_blocks cfg draws (S i0) s) as [rest|] eqn:Hrest;
      [|discriminate H].
    cbn [bind] in H. injection H as <-.
    destruct (IH _ _ Hrest) as [Hk Hwf].
    { intros i Hi. specialize (Hd (S i) ltac:(cbn [length]; lia)).
      rewrite Nat.add_succ_r in Hd. exact Hd. }
    split; [cbn [map fst]; rewrite Hk; reflexivity|].
    unfold aug_state in *. cbn [map snd concat]. rewrite length_app.
    apply wf_matrix_app; [|exact Hwf].
    apply (clip_ensemble_shape _ _ _ _ _ _ Hblk).
    apply wf_shifted_ensemble.
    specialize (Hd 0%nat ltac:(cbn [length]; lia)).
    rewrite Nat.add_0_r in Hd. exact Hd.
Qed.

Lemma gen_blocks_total (cfg : settings) (draws : nat -> matrix)
    (s : list (String.string * vec)) :
  forall i0 : nat,
    (truthy (lb cfg) && truthy (ub cfg) = true -> transform cfg = false ->
     (i0 + length s <= length (lb cfg))%nat /\
     (i0 + length s <= length (ub cfg))%nat) ->
    exists ens, gen_blocks cfg draws i0 s = Some ens.
Proof.
  induction s as [|[name mean] s IH]; intros i0 Hb.
  - exists []. reflexivity.
  - cbn [gen_blocks].
    assert (Hc : exists blk,
               clip_ensemble cfg i0 (shifted_ensemble mean (draws i0))
               = Some blk).
    { unfold clip_ensemble.
      destruct (truthy (lb cfg) && truthy (ub cfg)); [|eexists; reflexivity].
      destruct (transform cfg); [eexists; reflexivity|].
      destruct (Hb eq_refl eq_refl) as [Hl Hu]. cbn [length] in Hl, Hu.
      destruct (nth_error (lb cfg) i0) as [lo|] eqn:Elo.
      - destruct (nth_error (ub cfg) i0) as [hi|] eqn:Ehi.
        + eexists; reflexivity.
        + apply nth_error_None in Ehi. lia.
      - apply nth_error_None in Elo. lia. }
    destruct Hc as [blk ->]. cbn [bind].
    destruct (IH (S i0)) as [rest ->].
    { intros H1 H2. destruct (Hb H1 H2) as [Hl Hu]. cbn [length] in Hl, Hu.
      split; lia. }
    eexists; reflexivity.
Qed.

(** X2.  From a mean state whose draws have one row per component and
    [ne] columns, [_gen_state_ensemble] returns (provided every state
    variable has its entry in [lb] and [ub] when these are used untransformed)
    a dictionary with the names of the state in their order, whose flattened
    matrix has one row per control and [ne] columns. *)
Theorem ensemble_shape (cfg : settings) (o : obj) (draws : nat -> matrix)
    (s : list (String.string * vec)) (ne_ : nat) :
  state o = MeanState s ->
  (forall i, (i < length s)%nat ->
     wf_matrix (length (snd (nth i s ("", [])))) ne_ (draws i)) ->
  (truthy (lb cfg) && truthy (ub cfg) = true -> transform cfg = false ->
   (length s <= length (lb cfg))%nat /\ (length s <= length (ub cfg))%nat) ->
  exists ens,
    _gen_state_ensemble cfg o draws = Some ens /\
    map fst ens = map fst s /\
    wf_matrix (length (aug_state s)) ne_ (aug_state ens).
Proof.
  intros Hstate Hd Hb. unfold _gen_state_ensemble. rewrite Hstate.
  destruct (gen_blocks_total cfg draws s 0 Hb) as [ens Hens].
  exists ens. split; [exact Hens|].
  apply (gen_blocks_shape cfg draws ne_ s 0 ens Hens). exact Hd.
Qed.

Lemma ensemble_shape_witness :
  exists ens,
    _gen_state_ensemble Examples.cfg_clip Examples.o_clip Examples.draws_clip
      = Some ens /\
    map fst ens = ["x"] /\ wf_matrix 1 2 (aug_state ens).
Proof.
  apply (ensemble_shape Examples.cfg_clip Examples.o_clip Examples.draws_clip
           [("x", [9 # 10])] 2).
  - reflexivity.
  - intros i Hi. simpl in Hi. assert (i = 0%nat) as -> by lia.
    split; [reflexivity | repeat constructor].
  - intros _ H. discriminate H.
Defined.

(** X3.  With both bounds configured and the controls not transformed, a
    state variable without an entry in [lb] or in [ub] makes
    [_gen_state_ensemble] fail (the [IndexError] of line 392). *)
Theorem missing_bound_raises (cfg : settings) (o : obj)
    (draws : nat -> matrix) (s : list (String.string * vec)) :
  state o = MeanState s ->
  truthy (lb cfg) && truthy (ub cfg) = true ->
  transform cfg = false ->
  (length (lb cfg) < length s)%nat \/ (length (ub cfg) < length s)%nat ->
  _gen_state_ensemble cfg o draws = None.
Proof.
  intros Hstate Hb Ht Hshort. unfold _gen_state_ensemble. rewrite Hstate.
  destruct (gen_blocks cfg draws 0 s) as [ens|] eqn:Hgen; [|reflexivity].
  exfalso. destruct (gen_blocks_trace _ _ _ _ _ Hgen) as [_ Hall].
  assert (Hi : exists i, (i < length s)%nat /\
                 (nth_error (lb cfg) i = None \/ nth_error (ub cfg) i = None)).
  { destruct Hshort as [H|H].
    - exists (length (lb cfg)). split; [exact H|]. left.
      apply nth_error_None. lia.
    - exists (length (ub cfg)). split; [exact H|]. right.
      apply nth_error_None. lia. }
  destruct Hi as (i & Hi & Hnone).
  destruct (Hall i Hi) as [_ Hclip]. cbn [Nat.add] in Hclip.
  unfold clip_ensemble in Hclip. rewrite Hb, Ht in Hclip.
  destruct Hnone as [Hn|Hn].
  - rewrite Hn in Hclip. discriminate Hclip.
  - rewrite Hn in Hclip. destruct (nth_error (lb cfg) i); discriminate Hclip.
Qed.

(** Two state variables and bounds for the first one only. *)
Lemma missing_bound_raises_witness :
  _gen_state_ensemble
    {| keys_en_multilevel := None; num_samples := 2; lb := [0]; ub := [1];
       transform := false; bias_file := None |}
    (set_state Examples.o_clip (MeanState [("x", [1 # 2]); ("y", [1 # 2])]))
    Examples.draws_clip = None.
Proof.
  apply (missing_bound_raises _ _ _ [("x", [1 # 2]); ("y", [1 # 2])]).
  - reflexivity.
  - reflexivity.
  - reflexivity.
  - left. simpl. lia.
Defined.

(** X4.  With a single member and no clipping the generated ensemble is the
    mean itself: the draw cancels against its own row mean (line 387), so
    no control is perturbed. *)
Theorem single_member_is_mean (cfg : settings) (o : obj)
    (draws : nat -> matrix) (s : list (String.string * vec)) :
  state o = MeanState s ->
  truthy (lb cfg) && truthy (ub cfg) = false ->
  (forall i, (i < length s)%nat ->
     wf_matrix (length (snd (nth i s ("", [])))) 1 (draws i)) ->
  exists ens,
    _gen_state_ensemble cfg o draws = Some ens /\
    length ens = length s /\
    forall i k, (i < length s)%nat ->
      (k < length (snd (nth i s ("", []))))%nat ->
      exists v, nth k (snd (nth i ens ("", []))) [] = [v] /\
                v == nth k (snd (nth i s ("", []))) 0.
Proof.
  intros Hstate Hb Hd. unfold _gen_state_ensemble. rewrite Hstate.
  rewrite (EnsembleSampler.gen_blocks_unclipped cfg draws 1 s 0).
  2:{ intros i Hi. split; [apply Hd; exact Hi|].
      intros H. cbn [Nat.add] in H. rewrite Hb in H. discriminate H. }
  eexists. split; [reflexivity|].
  split; [rewrite length_map, length_combine, length_seq; lia|].
  intros i k Hi Hk.
  rewrite (nth_map_lt _ _ i (0%nat, ("", [])) ("", []))
    by (rewrite length_combine, length_seq; lia).
  rewrite combine_nth by (rewrite length_seq; reflexivity).
  rewrite seq_nth by exact Hi. cbn [fst snd Nat.add].
  destruct (Hd i Hi) as [Hrows Hcols].
  unfold shifted_ensemble.
  rewrite (nth_map2 _ _ _ k 0 [] []) by lia.
  assert (Hr : length (nth k (draws i) []) = 1%nat).
  { rewrite Forall_forall in Hcols. apply Hcols. apply nth_In. lia. }
  destruct (nth k (draws i) []) as [|t [|t' r]]; try discriminate Hr.
  eexists. split; [reflexivity|].
  unfold NumPy.mean, NumPy.sum. cbn [fold_left length Z.of_nat].
  field.
Qed.

Lemma single_member_is_mean_witness :
  exists ens,
    _gen_state_ensemble Examples.cfg_single
      (set_state Examples.o_clip (MeanState [("x", [9 # 10])]))
      (fun _ => [[5]]) = Some ens /\
    exists v, nth 0 (snd (nth 0 ens ("", []))) [] = [v] /\ v == 9 # 10.
Proof.
  destruct (single_member_is_mean Examples.cfg_single
              (set_state Examples.o_clip (MeanState [("x", [9 # 10])]))
              (fun _ => [[5]]) [("x", [9 # 10])])
    as (ens & Hens & _ & Hv).
  - reflexivity.
  - reflexivity.
  - intros i Hi. simpl in Hi. assert (i = 0%nat) as -> by lia.
    split; [reflexivity | repeat constructor].
  - exists ens. split; [exact Hens|].
    apply (Hv 0%nat 0%nat); simpl; lia.
Defined.

End SamplerBounds.

(** ** Runs of the gradient estimator: what a successful run implies *)

Module GradientRuns.
Import GaussianEnsemble.

(** A loop whose body raises at position [i] raises. *)
Lemma for_each_fails {S} (body : nat -> S -> option S) (n i : nat) (s0 : S) :
  (i < n)%nat -> (forall s, body i s = None) ->
  for_each (range n) body s0 = None.
Proof.
  intros Hi Hfail. induction n as [|n IH]; [lia|].
  rewrite range_S, for_each_app.
  destruct (Nat.eq_dec i n) as [->|Hne].
  - destruct (for_each (range n) body s0) as [s|]; [|reflexivity].
    cbn [bind for_each]. rewrite Hfail. reflexivity.
  - rewrite IH by lia. reflexivity.
Qed.

Lemma multilevel_combine_short {A} (add : A -> A -> A) (scale_r : A -> Q -> A)
    (div : A -> Q -> A) (cfg : settings) (ml : multilevel) (d : Z) (zero : A)
    (levels : list A) (L : nat) :
  keys_en_multilevel cfg = Some ml ->
  (length (cov_wgt ml) < L)%nat ->
  multilevel_combine add scale_r div cfg d zero levels L = None.
Proof.
  intros Hml Hshort. unfold multilevel_combine. rewrite Hml.
  rewrite (for_each_fails _ L (length (cov_wgt ml))); [reflexivity|exact Hshort|].
  intros s. destruct (nth_error levels (length (cov_wgt ml))); [|reflexivity].
  cbn [bind]. replace (nth_error (cov_wgt ml) (length (cov_wgt ml))) with (@None Q).
  - reflexivity.
  - symmetry. apply nth_error_None. lia.
Qed.

Lemma pert_state_inv (n : Z) (E P : matrix) :
  pert_state n E = Some P ->
  length P = length E /\ Forall (fun r => length r = Z.to_nat n) E.
Proof.
  unfold pert_state. intros H.
  destruct (forallb (fun r => (length r =? Z.to_nat n)%nat) E) eqn:Hall;
    [|discriminate H].
  injection H as <-. split; [apply length_map|].
  apply Forall_forall. intros r Hr.
  rewrite forallb_forall in Hall. apply Nat.eqb_eq, Hall, Hr.
Qed.

Lemma pert_obj_func_inv (cfg : settings) (o : obj) (nr : nat) (J J' dJ : vec) :
  pert_obj_func cfg o nr J = Some (J', dJ) -> length J' = length J.
Proof.
  unfold pert_obj_func. intros H. destruct (bias_file cfg).
  - destruct (_bias_correction o); [|discriminate H]. cbn [bind] in H.
    injection H as <- _. apply length_map.
  - destruct (NumPy.bcast2 _ _ _); [|discriminate H]. cbn [bind] in H.
    injection H as <- _. reflexivity.
Qed.

(** Lines 187-189 keep the length of the accumulator and read the columns
    [start .. start + n - 1], which must exist. *)
Lemma gradient_sum_inv (n_e : Z) (P : matrix) (dJ g0 g : vec)
    (start n : nat) :
  gradient_sum n_e P dJ start n g0 = Some g ->
  length g0 = length P ->
  length g = length P /\ ((1 <= n)%nat -> (start + n <= Z.to_nat n_e)%nat).
Proof.
  intros H Hg0. unfold gradient_sum in H.
  apply (for_each_range_inv _
           (fun i g => length g = length P /\
                       ((1 <= i)%nat -> (start + i <= Z.to_nat n_e)%nat))
           _ _ _ H).
  - split; [exact Hg0 | lia].
  - intros i a a' Hi [Hlen _] Hbody.
    destruct (nth_error dJ i) as [d|]; [|discriminate Hbody].
    cbn [bind] in Hbody. unfold NumPy.col in Hbody.
    destruct (start + i <? Z.to_nat n_e)%nat eqn:Hlt; [|discriminate Hbody].
    cbn [bind] in Hbody. injection Hbody as <-.
    apply Nat.ltb_lt in Hlt. split; [|lia].
    unfold NumPy.vadd, NumPy.vscale.
    rewrite map2_length, !length_map. lia.
Qed.

Lemma vdiv_zeros_minus_one (n : nat) :
  NumPy.vdiv (NumPy.zeros n) (inject_Z (Z.of_nat 0 - 1)) = NumPy.zeros n.
Proof.
  unfold NumPy.vdiv, NumPy.zeros. induction n as [|n IH]; [reflexivity|].
  cbn [repeat map]. rewrite IH. reflexivity.
Qed.

(** What a successful run of the loop over the levels (lines 177-192)
    implies: every level has its gradient, of the length of the control
    vector; the levels do not reach past the last member; an empty level
    has the gradient zero. *)
Lemma gradient_levels_trace (cfg : settings) (o : obj) (nr : nat)
    (s : grad_loop) :
  gradient_levels cfg o nr = Some s ->
  exists E,
    aug_state_ens (state o) = Some E /\
    Forall (fun r => length r = Z.to_nat (ne o)) E /\
    length (g_level_gradient s) = length (ens_func_values o) /\
    (level_start (ens_func_values o) (length (ens_func_values o))
     <= Z.to_nat (ne o))%nat /\
    forall l, (l < length (ens_func_values o))%nat ->
      length (nth l (g_level_gradient s) []) = length E /\
      (nth l (ens_func_values o) [] = [] ->
       nth l (g_level_gradient s) [] = NumPy.zeros (length E)).
Proof.
  unfold gradient_levels. intros H.
  destruct (aug_state_ens (state o)) as [E|] eqn:HE; [|discriminate H].
  cbn [bind] in H.
  destruct (pert_state (ne o) E) as [P|] eqn:HP; [|discriminate H].
  cbn [bind] in H.
  destruct (pert_state_inv _ _ _ HP) as [HPlen Hrows].
  exists E. split; [reflexivity|]. split; [exact Hrows|].
  set (Js := ens_func_values o) in *.
  set (Inv := fun (l : nat) (s : grad_loop) =>
       g_start_index s = level_start Js l /\
       length (g_level_gradient s) = l /\
       length (g_ens_func_values s) = length Js /\
       (forall m, (l <= m)%nat ->
          nth_error (g_ens_func_values s) m = nth_error Js m) /\
       (level_start Js l <= Z.to_nat (ne o))%nat /\
       forall m, (m < l)%nat ->
         length (nth m (g_level_gradient s) []) = length E /\
         (nth m Js [] = [] ->
          nth m (g_level_gradient s) [] = NumPy.zeros (length E))).
  assert (Hinv : Inv (length Js) s).
  { apply (for_each_range_inv _ Inv _ _ _ H); unfold Inv.
    - cbn. repeat split; try reflexivity; try lia.
      all: intros m Hm; lia.
    - intros l a a' Hl (Hstart & Hglen & Hvlen & Hrest & Hbound & Hdone) Hbody.
      unfold gradient_level in Hbody.
      rewrite (Hrest l (le_n l)), (nth_error_nth_lt Js l []) in Hbody
        by exact Hl.
      cbn [bind] in Hbody.
      destruct (pert_obj_func cfg o nr (nth l Js [])) as [[J' dJ]|] eqn:Hpo;
        [|discriminate Hbody].
      cbn [bind] in Hbody.
      destruct (gradient_sum (ne o) P dJ (g_start_index a) (length J')
                  (NumPy.zeros (length P))) as [g_m|] eqn:Hsum;
        [|discriminate Hbody].
      cbn [bind] in Hbody. injection Hbody as <-.
      cbn [g_start_index g_level_gradient g_ens_func_values].
      pose proof (pert_obj_func_inv _ _ _ _ _ _ Hpo) as HJ'.
      destruct (gradient_sum_inv _ _ _ _ _ _ _ Hsum (zeros_length _))
        as [Hgm Hreach].
      assert (Hnext : level_start Js (S l)
                      = (level_start Js l + length (nth l Js []))%nat)
        by (apply GradientEstimator.level_start_S; exact Hl).
      split; [rewrite Hstart, HJ'; symmetry; exact Hnext|].
      split; [rewrite length_app; simpl; lia|].
      split; [rewrite GradientEstimator.set_nth_length; exact Hvlen|].
      split.
      { intros m Hm. rewrite GradientEstimator.nth_error_set_nth_ne by lia.
        apply Hrest. lia. }
      split.
      { rewrite Hnext. rewrite HJ', Hstart in Hreach.
        destruct (length (nth l Js [])) as [|k]; [lia|]. apply Hreach. lia. }
      intros m Hm. destruct (Nat.eq_dec m l) as [->|Hml].
      + rewrite app_nth2, Hglen, Nat.sub_diag by lia. cbn [nth].
        split.
        * unfold NumPy.vdiv. rewrite length_map, Hgm. exact HPlen.
        * intros Hempty. rewrite Hempty in HJ'. cbn [length] in HJ'.
          rewrite HJ' in Hsum |- *. unfold gradient_sum in Hsum.
          cbn [range seq for_each] in Hsum. injection Hsum as <-.
          rewrite HPlen. apply vdiv_zeros_minus_one.
      + rewrite app_nth1 by lia. apply Hdone. lia. }
  destruct Hinv as (_ & Hglen & _ & _ & Hbound & Hdone).
  split; [exact Hglen|]. split; [exact Hbound|]. exact Hdone.
Qed.

(** X5.  With the [multilevel] key, the vector [gradient] returns is, in
    every component, the sum over the levels of the level gradient times
    [cov_wgt[l]], divided by [self.ne] (lines 194-198). *)
Theorem gradient_multilevel_combination (cfg : settings) (ml : multilevel)
    (o : obj) (nr : nat) (g : vec) (o' : obj) :
  keys_en_multilevel cfg = Some ml ->
  ne o <> 0%Z ->
  gradient_estimate cfg o nr = Some (g, o') ->
  exists E s,
    aug_state_ens (state o) = Some E /\
    gradient_levels cfg o nr = Some s /\
    length g = length E /\
    forall k, (k < length E)%nat ->
      nth k g 0 ==
        bigsum (length (ens_func_values o))
          (fun l => nth k (nth l (g_level_gradient s) []) 0
                    * nth l (cov_wgt ml) 0)
        / inject_Z (ne o).
Proof.
  intros Hml _ H. unfold gradient_estimate in H.
  destruct (aug_state_ens (state o)) as [E|] eqn:HE; [|discriminate H].
  cbn [bind] in H.
  destruct (gradient_levels cfg o nr) as [s|] eqn:Hs; [|discriminate H].
  cbn [bind] in H.
  destruct (multilevel_combine _ _ _ cfg _ _ _ _) as [g0|] eqn:Hc;
    [|discriminate H].
  cbn [bind] in H. injection H as <- _.
  destruct (gradient_levels_trace _ _ _ _ Hs) as (E' & HE' & _ & _ & _ & Hlv).
  rewrite HE in HE'. injection HE' as <-.
  exists E, s. split; [reflexivity|]. split; [reflexivity|].
  apply (SmcWeighter.combine_vectors_inv cfg ml (ne o) (length E) _ _ _ _
           Hml Hc).
  - apply zeros_length.
  - intros k _. rewrite nth_zeros. reflexivity.
  - intros l Hl. apply Hlv. exact Hl.
Qed.

(** The two-level run: the level gradients [2] and [8], the weights
    [1] and [1], four members. *)
Lemma gradient_multilevel_combination_witness :
  exists g o',
    gradient_estimate Examples.cfg_ml Examples.o_after_gradient 1
      = Some (g, o') /\
    nth 0 g 0 == (2 * 1 + 8 * 1) / 4.
Proof.
  destruct (gradient_estimate Examples.cfg_ml Examples.o_after_gradient 1)
    as [[g o']|] eqn:Hg; [|vm_compute in Hg; discriminate Hg].
  exists g, o'. split; [reflexivity|].
  destruct (gradient_multilevel_combination Examples.cfg_ml _
              Examples.o_after_gradient 1 g o' eq_refl)
    as (E & s & HE & Hs & _ & Hk); [discriminate | exact Hg |].
  vm_compute in HE. injection HE as <-.
  vm_compute in Hs. injection Hs as <-.
  rewrite (Hk 0%nat) by (simpl; lia). vm_compute. reflexivity.
Defined.

(** X6.  With the [multilevel] key and fewer entries in [cov_wgt] than
    there are levels of objective values, the three estimators fail (the
    [IndexError] of lines 197, 259 and 369). *)
Theorem short_cov_wgt_raises (function : matrix -> list vec)
    (_aux_input : settings -> obj -> nat) (bias_func : obj -> vec)
    (exp : Q -> Q) (cfg : settings) (ml : multilevel) :
  keys_en_multilevel cfg = Some ml ->
  (forall o nr, (length (cov_wgt ml) < length (ens_func_values o))%nat ->
     gradient_estimate cfg o nr = None) /\
  (forall o, (length (cov_wgt ml) < length (ens_func_values o))%nat ->
     hessian _aux_input cfg o = None) /\
  (forall o x a0 a1 a2 draws picks,
     (forall E, (length (cov_wgt ml) < length (function E))%nat) ->
     calc_ensemble_weights function bias_func exp cfg o x a0 a1 a2 draws picks
     = None).
Proof.
  intros Hml. split; [|split].
  - intros o nr Hshort. unfold gradient_estimate.
    destruct (aug_state_ens (state o)); [|reflexivity]. cbn [bind].
    destruct (gradient_levels cfg o nr); [|reflexivity]. cbn [bind].
    rewrite (multilevel_combine_short _ _ _ cfg ml) by assumption.
    reflexivity.
  - intros o Hshort. unfold hessian.
    destruct (hessian_levels _aux_input cfg o); [|reflexivity]. cbn [bind].
    rewrite (multilevel_combine_short _ _ _ cfg ml) by assumption.
    reflexivity.
  - intros o x a0 a1 a2 draws picks Hshort.
    destruct (calc_ensemble_weights function bias_func exp cfg o x a0 a1 a2
                draws picks) as [[[sens best] o']|] eqn:H; [|reflexivity].
    exfalso.
    destruct (SmcWeighter.calc_ensemble_weights_inv _ _ _ _ _ _ _ _ _ _ _ _ _
                _ H)
      as (ens & o6 & s & _ & _ & _ & _ & _ & _ & _ & Hc & _).
    rewrite (multilevel_combine_short _ _ _ cfg ml) in Hc;
      [discriminate Hc | exact Hml | apply Hshort].
Qed.

(** Two weights and three levels of objective values. *)
Lemma short_cov_wgt_raises_witness :
  gradient_estimate Examples.cfg_ml
    (set_ens_func_values Examples.o_after_gradient [[1]; [2]; [3]]) 1 = None.
Proof.
  apply (proj1 (short_cov_wgt_raises Examples.objective2 Examples.nr1
                  Examples.no_bias Examples.exp_tangent Examples.cfg_ml _
                  eq_refl)).
  simpl. lia.
Defined.

(** X7.  A level without members does not stop [gradient]: its level
    gradient is the zero vector (the sum is empty and the divisor is
    [-1], not [0]). *)
Theorem empty_level_zero_gradient (cfg : settings) (o : obj) (nr : nat)
    (s : grad_loop) (l : nat) :
  gradient_levels cfg o nr = Some s ->
  (l < length (ens_func_values o))%nat ->
  nth l (ens_func_values o) [] = [] ->
  exists E,
    aug_state_ens (state o) = Some E /\
    nth l (g_level_gradient s) [] = NumPy.zeros (length E).
Proof.
  intros Hs Hl Hempty.
  destruct (gradient_levels_trace _ _ _ _ Hs) as (E & HE & _ & _ & _ & Hlv).
  exists E. split; [exact HE|]. apply Hlv; assumption.
Qed.

Lemma empty_level_zero_gradient_witness :
  exists s,
    gradient_levels Examples.cfg_ml Scenarios.o_empty_level 1 = Some s /\
    nth 0 (g_level_gradient s) [] = [0].
Proof.
  destruct (gradient_levels Examples.cfg_ml Scenarios.o_empty_level 1)
    as [s|] eqn:Hs; [|vm_compute in Hs; discriminate Hs].
  exists s. split; [reflexivity|].
  destruct (empty_level_zero_gradient _ _ _ _ 0%nat Hs) as (E & HE & Hz).
  - simpl. lia.
  - reflexivity.
  - vm_compute in HE. injection HE as <-. exact Hz.
Defined.

(** X8.  On an ensemble with [self.ne] columns, when the levels together
    hold more objective values than there are members, the loop over the
    levels fails (the [IndexError] of line 189). *)
Theorem more_values_than_members_raises (cfg : settings) (o : obj) (nr : nat) :
  (forall E, aug_state_ens (state o) = Some E ->
     Forall (fun r => length r = Z.to_nat (ne o)) E) ->
  (Z.to_nat (ne o)
   < level_start (ens_func_values o) (length (ens_func_values o)))%nat ->
  gradient_levels cfg o nr = None.
Proof.
  intros _ Hmore.
  destruct (gradient_levels cfg o nr) as [s|] eqn:Hs; [|reflexivity].
  destruct (gradient_levels_trace _ _ _ _ Hs) as (E & _ & _ & _ & Hb & _).
  lia.
Qed.

(** Four members and five objective values. *)
Lemma more_values_than_members_raises_witness :
  gradient_levels Examples.cfg_ml
    (set_ens_func_values Examples.o_after_gradient [[1; 2]; [3; 4; 5]]) 1
  = None.
Proof.
  apply more_values_than_members_raises.
  - intros E HE. vm_compute in HE. injection HE as <-. repeat constructor.
  - vm_compute. lia.
Defined.

End GradientRuns.

(** ** The hessian estimator: symmetry *)

Module HessianSymmetry.
Import GaussianEnsemble.

Lemma level_hessian_formula_sym (E C : matrix) (dJ : nat -> Q)
    (start n a b : nat) :
  entry C a b == entry C b a ->
  level_hessian_formula E C dJ start n a b
  == level_hessian_formula E C dJ start n b a.
Proof.
  intros HC. unfold level_hessian_formula.
  apply Qmult_comp; [|reflexivity].
  apply bigsum_ext. intros i _. unfold entry in HC. rewrite HC. ring.
Qed.

(** X9.  On a rectangular ensemble with a symmetric covariance of the
    size of the control vector, [hessian] returns a square matrix of that
    size which is symmetric: every level hessian is, and so is their weighted
    combination.  (No level has exactly one member, which would divide by
    zero.) *)
Theorem hessian_symmetric (_aux_input : settings -> obj -> nat)
    (cfg : settings) (o : obj) (ens : list (String.string * matrix))
    (nx ne_ : nat) :
  state o = EnsState ens ->
  wf_matrix nx ne_ (aug_state ens) ->
  ne o = Z.of_nat ne_ ->
  (1 <= ne_)%nat ->
  (level_start (ens_func_values o) (length (ens_func_values o)) <= ne_)%nat ->
  Forall (fun J => length J <> 1%nat) (ens_func_values o) ->
  wf_matrix nx nx (cov o) ->
  Forall (fun J =>
            bcast_ok (length J)
              (length (NumPy.repeat_each (state_func_values o)
                         (_aux_input cfg o))))
    (ens_func_values o) ->
  (forall a b, (a < nx)%nat -> (b < nx)%nat ->
     entry (cov o) a b == entry (cov o) b a) ->
  match keys_en_multilevel cfg with
  | Some ml => (length (ens_func_values o) <= length (cov_wgt ml))%nat
  | None => (1 <= length (ens_func_values o))%nat
  end ->
  exists H,
    hessian _aux_input cfg o = Some (H, o) /\
    wf_matrix nx nx H /\
    forall a b, (a < nx)%nat -> (b < nx)%nat -> entry H a b == entry H b a.
Proof.
  intros Hstate Hwf Hne Hpos Hsizes Hdiv HC Hbase Hsym Hkeys.
  destruct (HessianEstimator.hessian_levels_spec _aux_input cfg o ens nx ne_
              Hstate Hwf Hne Hsizes HC Hbase) as (lv & Hlv & Hlen & Hform).
  assert (Hlsym : forall l, (l < length (ens_func_values o))%nat ->
            forall a b, (a < nx)%nat -> (b < nx)%nat ->
              entry (nth l lv []) a b == entry (nth l lv []) b a).
  { intros l Hl a b Ha Hb. destruct (Hform l Hl) as [_ Hent].
    rewrite (Hent a b Ha Hb), (Hent b a Hb Ha).
    apply level_hessian_formula_sym. apply Hsym; assumption. }
  unfold hessian. rewrite Hlv. cbn [bind].
  destruct (keys_en_multilevel cfg) as [ml|] eqn:Hml.
  - destruct (HessianEstimator.combine_matrices cfg ml (ne o) nx nx
                (NumPy.zeros_like (cov o)) lv (length (ens_func_values o)) Hml)
      as (H & HH & HHwf & Hent).
    + apply HessianEstimator.wf_zeros_like. exact HC.
    + intros a b Ha Hb.
      rewrite (HessianEstimator.entry_zeros_like nx nx) by assumption.
      reflexivity.
    + lia.
    + exact Hkeys.
    + intros l Hl. apply (Hform l Hl).
    + rewrite HH. cbn [bind]. exists H. split; [reflexivity|].
      split; [exact HHwf|]. intros a b Ha Hb.
      rewrite (Hent a b Ha Hb), (Hent b a Hb Ha).
      apply Qmult_comp; [|reflexivity].
      apply bigsum_ext. intros l Hl. rewrite (Hlsym l Hl a b Ha Hb).
      reflexivity.
  - unfold multilevel_combine. rewrite Hml.
    rewrite (nth_error_nth_lt lv 0 []) by lia. cbn [bind].
    exists (nth 0 lv []). split; [reflexivity|].
    destruct (Hform 0%nat ltac:(lia)) as [Hwf0 _].
    split; [exact Hwf0|]. intros a b Ha Hb. apply Hlsym; [lia|exact Ha|exact Hb].
Qed.

(** Two controls, four members on two levels, and a symmetric covariance
    with off-diagonal entries. *)
Lemma hessian_symmetric_witness :
  exists H,
    hessian Examples.nr1 Examples.cfg_ml Scenarios.o_two_controls
      = Some (H, Scenarios.o_two_controls) /\
    entry H 0 1 == entry H 1 0.
Proof.
  destruct (hessian_symmetric Examples.nr1 Examples.cfg_ml
              Scenarios.o_two_controls
              [("x", [[1; -1; 2; -2]]); ("y", [[0; 3; -3; 0]])] 2 4)
    as (H & HH & _ & Hsym).
  - reflexivity.
  - split; [reflexivity | repeat constructor].
  - reflexivity.
  - lia.
  - vm_compute. lia.
  - repeat constructor; discriminate.
  - split; [reflexivity | repeat constructor].
  - repeat constructor; right; left; reflexivity.
  - intros a b Ha Hb.
    assert (Ha' : a = 0%nat \/ a = 1%nat) by lia.
    assert (Hb' : b = 0%nat \/ b = 1%nat) by lia.
    destruct Ha' as [-> | ->], Hb' as [-> | ->]; reflexivity.
  - simpl. lia.
  - exists H. split; [exact HH|]. apply Hsym; lia.
Defined.

End HessianSymmetry.

(** ** Runs of the line-search controller *)

Module ControllerRuns.
Import LineSearch.

Section Runs.
Variable W : Type.
Variable fun_ : vec -> matrix -> W -> vec * W.
Variable jac : vec -> matrix -> W -> vec * W.
Variable hess : W -> matrix * W.
Variable clip_state : vec -> vec.
Variable line_search :
  (vec -> closure_state W -> Q * closure_state W) ->
  (vec -> closure_state W -> vec * closure_state W) ->
  vec -> vec -> vec -> Q -> Q -> Q -> Q -> nat ->
  closure_state W -> ls_result * closure_state W.
Variable get_sym_pos_semidef : matrix -> matrix.

Local Abbreviation calc_update :=
  (calc_update W fun_ jac hess clip_state line_search get_sym_pos_semidef).
Local Abbreviation search := (search W fun_ jac hess clip_state line_search).
Local Abbreviation accept := (accept W clip_state get_sym_pos_semidef).
Local Abbreviation shrink := (shrink W).
Local Abbreviation info := (info W).
Local Abbreviation after_retries :=
  (after_retries W fun_ jac hess clip_state line_search).
Local Abbreviation calc_update_unfold :=
  (Controller.calc_update_unfold W fun_ jac hess clip_state line_search
     get_sym_pos_semidef).
Local Abbreviation search_inv :=
  (Controller.search_inv W fun_ jac hess clip_state line_search).

Local Ltac run_line_search H :=
  match type of H with
  | context [line_search ?f ?g ?a ?b ?c ?d ?e1 ?e2 ?e3 ?e4 ?k] =>
      let Els := fresh "Els" in
      let Hfst := fresh "Hfst" in
      destruct (line_search f g a b c d e1 e2 e3 e4 k)
        as [res [[nf nj] w1]] eqn:Els;
      injection H as <- <-; cbn;
      repeat split; try reflexivity; try assumption;
      exists f, g; eexists; rewrite ?Z.add_0_r;
      pose proof (f_equal fst Els) as Hfst; cbn [fst] in Hfst;
      symmetry; exact Hfst
  end.

(** What one search (lines 85-113) reads and hands to the line search: the
    iterate is untouched; the gradient is the one carried over, or [jac] at
    the clipped mean state, counted once; the direction is the negative
    gradient divided by its infinity norm when [normalize] is set. *)
Lemma search_frame (o : options) (st : ls_state W) (r : search_result)
    (st1 : ls_state W) :
  search o st = Some (r, st1) ->
  mean_state st1 = mean_state st /\
  obj_func_values st1 = obj_func_values st /\
  alpha st1 = alpha st /\
  iteration st1 = iteration st /\
  (if normalize o then NumPy.norm_inf (sr_pk r) = Some (sr_pk_norm r)
   else sr_pk_norm r = 1) /\
  match pk_from_ls st with
  | Some pk => sr_pk r = pk
  | None => sr_pk r = fst (jac (clip_state (mean_state st)) (cov st) (ext st))
  end /\
  exists f g w,
    sr_ls r
    = fst (line_search f g (mean_state st)
             (map (fun v => - v / sr_pk_norm r) (sr_pk r)) (sr_pk r)
             (NumPy.mean (obj_func_values st)) (c1 o) (c2 o) (alpha_max o)
             (alpha_iter_max o)
             (nfev st,
              (njev st + match pk_from_ls st with
                         | Some _ => 0
                         | None => 1
                         end)%Z, w)).
Proof.
  unfold LineSearch.search. intros H.
  destruct (pk_from_ls st) as [pk0|] eqn:Epk.
  - destruct (hess (ext st)) as [H0 w0] eqn:Eh.
    destruct (normalize o) eqn:En.
    + destruct (normalized H0) as [Hn|] eqn:EHn; cbn [bind] in H;
        [|discriminate].
      destruct (NumPy.norm_inf pk0) as [n|] eqn:En0; cbn [bind] in H;
        [|discriminate].
      run_line_search H.
    + cbn [bind] in H. run_line_search H.
  - unfold _jac, closure_of in H.
    destruct (jac (clip_state (mean_state st)) (cov st) (ext st))
      as [g0 wj] eqn:Ej.
    cbn [with_closure ext nfev njev] in H.
    destruct (hess wj) as [H0 w0] eqn:Eh.
    destruct (normalize o) eqn:En.
    + destruct (normalized H0) as [Hn|] eqn:EHn; cbn [bind] in H;
        [|discriminate].
      destruct (NumPy.norm_inf g0) as [n|] eqn:En0; cbn [bind] in H;
        [|discriminate].
      run_line_search H.
    + cbn [bind] in H. run_line_search H.
Qed.

(** What an accepted step (lines 116-143) assigns. *)
Lemma accept_frame (o : options) (st1 st2 : ls_state W) (r : search_result)
    (step : Q) :
  accept o st1 r step = Some st2 ->
  ~ sr_pk_norm r == 0 /\
  (exists x,
     NumPy.bcast2 Qminus (mean_state st1)
       (map (fun v => step * v / sr_pk_norm r) (sr_pk r)) = Some x /\
     mean_state st2 = clip_state x) /\
  obj_func_values st2 = [fnew (sr_ls r)] /\
  alpha st2 = step /\
  pk_from_ls st2 = slope (sr_ls r) /\
  iteration st2 = (iteration st1 + 1)%Z /\
  exists c00,
    GaussianEnsemble.entry (cov st2) 0 0 = c00 /\
    log st2
    = log st1 ++ [Info msg_satisfied;
                  IterInfo (iteration st1) (NumPy.mean [fnew (sr_ls r)]) step
                    c00].
Proof.
  unfold LineSearch.accept. intros H.
  cbn [LineSearch.info mean_state cov] in H.
  destruct (Qeq_bool (sr_pk_norm r) 0) eqn:E0; [discriminate|].
  destruct (NumPy.bcast2 Qminus _ _) as [x|] eqn:Ex; cbn [bind] in H;
    [|discriminate].
  destruct (NumPy.msub_chk _ _) as [C'|]; cbn [bind] in H; [|discriminate].
  destruct (nth_error (get_sym_pos_semidef C') 0) as [row0|] eqn:Erow;
    cbn [bind] in H; [|discriminate].
  destruct (nth_error row0 0) as [c00|] eqn:Ec; cbn [bind] in H;
    [|discriminate].
  injection H as <-. cbn.
  split; [intros Heq; apply Qeq_bool_iff in Heq; congruence|].
  split; [exists x; split; reflexivity|].
  repeat split. exists c00. split.
  - unfold GaussianEnsemble.entry.
    destruct (get_sym_pos_semidef C') as [|row M]; [discriminate Erow|].
    cbn in Erow. injection Erow as ->. cbn [nth].
    destruct row0 as [|c row0]; [discriminate Ec|].
    cbn in Ec. injection Ec as ->. reflexivity.
  - rewrite <- app_assoc. reflexivity.
Qed.

Lemma search_attempts_app2 (l m : list log_entry) :
  search_attempts (l ++ m) = (search_attempts l + search_attempts m)%nat.
Proof. unfold search_attempts. rewrite filter_app, length_app. reflexivity. Qed.

Lemma retries_app2 (l m : list log_entry) :
  retries (l ++ m) = (retries l + retries m)%nat.
Proof. unfold retries. rewrite filter_app, length_app. reflexivity. Qed.

(** A call of [calc_update], whatever the line search answers: [j] retries
    and [j + 1] searches, [j] within the budget left; a failure has used
    the whole budget and left the iterate alone; a success has moved the
    iterate once, by the step of the search that follows the [j] retries. *)
Lemma calc_update_run (o : options) (k : nat) :
  forall (st st' : ls_state W) (i : nat) (b : bool),
    (iter_resamp_max o - i = k)%nat ->
    calc_update o st i = Some (b, st') ->
    exists j,
      (j <= k)%nat /\
      retries (log st') = (retries (log st) + j)%nat /\
      search_attempts (log st') = (search_attempts (log st) + j + 1)%nat /\
      (b = false ->
       j = k /\
       mean_state st' = mean_state st /\
       obj_func_values st' = obj_func_values st /\
       alpha st' = alpha st /\
       iteration st' = iteration st) /\
      (b = true ->
       exists st_j r st1 step x,
         after_retries o j st = Some st_j /\
         search o st_j = Some (r, st1) /\
         step_size (sr_ls r) = Some step /\
         accept o st1 r step = Some st' /\
         ~ sr_pk_norm r == 0 /\
         NumPy.bcast2 Qminus (mean_state st)
           (map (fun v => step * v / sr_pk_norm r) (sr_pk r)) = Some x /\
         mean_state st' = clip_state x /\
         alpha st' = step /\
         obj_func_values st' = [fnew (sr_ls r)] /\
         pk_from_ls st' = slope (sr_ls r) /\
         iteration st' = (iteration st + 1)%Z).
Proof.
  induction k as [|k IH]; intros st st' i b Hk Hrun;
    rewrite calc_update_unfold in Hrun;
    destruct (search o st) as [[r st1]|] eqn:Hs; try discriminate;
    destruct (search_inv o st r st1 Hs) as (_ & Hlog & _);
    destruct (search_frame o st r st1 Hs)
      as (Hm & Hv & Ha & Hit & _);
    destruct (step_size (sr_ls r)) as [step|] eqn:Estep.
  - destruct (accept o st1 r step) as [st2|] eqn:Hacc; [|discriminate].
    injection Hrun as <- <-.
    destruct (accept_frame o st1 st2 r step Hacc)
      as (Hn0 & (x & Hx & Hm2) & Hv2 & Ha2 & Hp2 & Hi2 & (c00 & _ & Hlog2)).
    exists 0%nat. split; [lia|].
    rewrite Hlog2, Hlog, !retries_app2, !search_attempts_app2. cbn.
    split; [lia|]. split; [lia|]. split; [discriminate|]. intros _.
    exists st, r, st1, step, x. rewrite <- Hm, <- Hit.
    repeat split; assumption.
  - replace (i <? iter_resamp_max o)%nat with false in Hrun
      by (symmetry; apply Nat.ltb_ge; lia).
    injection Hrun as <- <-. cbn [LineSearch.info log mean_state
      obj_func_values alpha iteration].
    exists 0%nat. split; [lia|].
    rewrite Hlog, !retries_app2, !search_attempts_app2. cbn.
    split; [lia|]. split; [lia|]. split; [|discriminate]. intros _.
    repeat split; assumption.
  - destruct (accept o st1 r step) as [st2|] eqn:Hacc; [|discriminate].
    injection Hrun as <- <-.
    destruct (accept_frame o st1 st2 r step Hacc)
      as (Hn0 & (x & Hx & Hm2) & Hv2 & Ha2 & Hp2 & Hi2 & (c00 & _ & Hlog2)).
    exists 0%nat. split; [lia|].
    rewrite Hlog2, Hlog, !retries_app2, !search_attempts_app2. cbn.
    split; [lia|]. split; [lia|]. split; [discriminate|]. intros _.
    exists st, r, st1, step, x. rewrite <- Hm, <- Hit.
    repeat split; assumption.
  - replace (i <? iter_resamp_max o)%nat with true in Hrun
      by (symmetry; apply Nat.ltb_lt; lia).
    assert (Hk1 : (iter_resamp_max o - S i = k)%nat) by lia.
    destruct (IH _ st' (S i) b Hk1 Hrun) as (j & Hj & Hret & Hatt & Hf & Ht).
    cbn [LineSearch.shrink LineSearch.info LineSearch.set_cov
         LineSearch.set_pk_from_ls log mean_state obj_func_values alpha
         iteration] in Hret, Hatt, Hf, Ht.
    rewrite Hlog, !retries_app2 in Hret.
    rewrite Hlog, !search_attempts_app2 in Hatt.
    cbn in Hret, Hatt.
    exists (S j). split; [lia|]. split; [lia|]. split; [lia|]. split.
    + intros Hb. destruct (Hf Hb) as (-> & H1 & H2 & H3 & H4).
      split; [reflexivity|]. rewrite H1, H2, H3, H4.
      repeat split; assumption.
    + intros Hb.
      destruct (Ht Hb) as (st_j & r' & st1' & step' & x' & Hafter & H2).
      exists st_j, r', st1', step', x'. split.
      * cbn [LineSearch.after_retries]. rewrite Hs. cbn [bind].
        rewrite Estep. exact Hafter.
      * rewrite <- Hm, <- Hit. exact H2.
Qed.

(** X10.  A call of [calc_update] that returns [False] has left the
    iterate alone: the mean state, the objective value, the step size and the
    iteration counter are those of the start, however many retries there
    were. *)
Theorem failed_update_keeps_iterate (o : options) (st st' : ls_state W)
    (i : nat) :
  calc_update o st i = Some (false, st') ->
  mean_state st' = mean_state st /\
  obj_func_values st' = obj_func_values st /\
  alpha st' = alpha st /\
  iteration st' = iteration st.
Proof.
  intros Hrun.
  destruct (calc_update_run o (iter_resamp_max o - i) st st' i false eq_refl
              Hrun) as (j & _ & _ & _ & Hf & _).
  destruct (Hf eq_refl) as (_ & H). exact H.
Qed.


(** X12.  Whatever the line search answers, a call of [calc_update] that
    returns has made [j + 1] line searches and [j] retries with
    [j <= iter_resamp_max]; it returns [False] only after all
    [iter_resamp_max] retries. *)
Theorem line_searches_bounded (o : options) (st st' : ls_state W) (b : bool) :
  calc_update o st 0 = Some (b, st') ->
  exists j,
    (j <= iter_resamp_max o)%nat /\
    retries (log st') = (retries (log st) + j)%nat /\
    search_attempts (log st') = (search_attempts (log st) + j + 1)%nat /\
    (b = false -> j = iter_resamp_max o).
Proof.
  intros Hrun.
  destruct (calc_update_run o (iter_resamp_max o - 0) st st' 0 b eq_refl Hrun)
    as (j & Hj & Hret & Hatt & Hf & _).
  exists j. split; [lia|]. split; [exact Hret|]. split; [exact Hatt|].
  intros Hb. destruct (Hf Hb) as [-> _]. lia.
Qed.

(** X13.  With the options left at their defaults ([resample] absent, so
    [iter_resamp_max = 0]) a call of [calc_update] makes exactly one line
    search and no retry; when that search fails the covariance is not
    shrunk and the carried-over gradient is kept. *)
Theorem default_options_search_once (kw : kwargs) (st st' : ls_state W)
    (b : bool) :
  kw_resample kw = None ->
  calc_update (init_options kw) st 0 = Some (b, st') ->
  search_attempts (log st') = (search_attempts (log st) + 1)%nat /\
  retries (log st') = retries (log st) /\
  (b = false -> cov st' = cov st /\ pk_from_ls st' = pk_from_ls st).
Proof.
  intros Hkw Hrun.
  assert (Hmax : iter_resamp_max (init_options kw) = 0%nat).
  { unfold init_options. cbn [iter_resamp_max]. rewrite Hkw. reflexivity. }
  destruct (calc_update_run (init_options kw)
              (iter_resamp_max (init_options kw) - 0) st st' 0 b eq_refl Hrun)
    as (j & Hj & Hret & Hatt & _).
  rewrite Hmax in Hj. assert (j = 0%nat) as -> by lia.
  split; [lia|]. split; [lia|]. intros ->.
  rewrite calc_update_unfold in Hrun.
  destruct (search (init_options kw) st) as [[r st1]|] eqn:Hs;
    [|discriminate].
  destruct (search_inv (init_options kw) st r st1 Hs)
    as (Hcov & _ & Hpk & _).
  destruct (step_size (sr_ls r)).
  - destruct (accept (init_options kw) st1 r q); discriminate.
  - rewrite Hmax in Hrun. cbn [Nat.ltb Nat.leb] in Hrun.
    injection Hrun as <-. cbn [LineSearch.info cov pk_from_ls].
    split; assumption.
Qed.

End Runs.

(** The one-dimensional problem with a line search that never accepts. *)
Lemma failed_update_keeps_iterate_witness :
  mean_state Scenarios.ls_failed = [0] /\
  iteration Scenarios.ls_failed = 0%Z.
Proof.
  destruct (failed_update_keeps_iterate unit Examples.ls_fun Examples.ls_jac
              Examples.ls_hess Examples.ls_clip Examples.ls_never
              Examples.psd1 Examples.ls_options Examples.ls_start
              Scenarios.ls_failed 0) as (H1 & _ & _ & H4).
  - vm_compute. reflexivity.
  - split; [exact H1 | exact H4].
Defined.


Lemma line_searches_bounded_witness :
  exists j,
    (j <= 2)%nat /\
    search_attempts (log Scenarios.ls_failed) = (0 + j + 1)%nat.
Proof.
  destruct (line_searches_bounded unit Examples.ls_fun Examples.ls_jac
              Examples.ls_hess Examples.ls_clip Examples.ls_never
              Examples.psd1 Examples.ls_options Examples.ls_start
              Scenarios.ls_failed false) as (j & Hj & _ & Hatt & _).
  - vm_compute. reflexivity.
  - exists j. split; [exact Hj | exact Hatt].
Defined.

Lemma default_options_search_once_witness :
  search_attempts (log Scenarios.ls_default_failed) = 1%nat /\
  cov Scenarios.ls_default_failed = [[1]].
Proof.
  destruct (default_options_search_once unit Examples.ls_fun Examples.ls_jac
              Examples.ls_hess Examples.ls_clip Examples.ls_never
              Examples.psd1 Scenarios.kw_empty Examples.ls_start
              Scenarios.ls_default_failed false) as (H1 & _ & H3).
  - reflexivity.
  - vm_compute. reflexivity.
  - split; [exact H1|]. destruct (H3 eq_refl) as [Hc _]. exact Hc.
Defined.

End ControllerRuns.

(** ** The normalisations of the line-search controller (lines 95, 96, 105) *)

Module Normalisation.
Import LineSearch.

Lemma fold_Qmax_ge_acc (v : vec) (a : Q) : a <= fold_left Qmax v a.
Proof.
  revert a. induction v as [|x v IH]; intros a; cbn [fold_left].
  - apply Qle_refl.
  - eapply Qle_trans; [apply Q.le_max_l | apply IH].
Qed.

Lemma fold_Qmax_ge_In (v : vec) (a x : Q) :
  In x v -> x <= fold_left Qmax v a.
Proof.
  revert a. induction v as [|y v IH]; intros a; [intros []|].
  intros [->|Hin]; cbn [fold_left].
  - eapply Qle_trans; [apply Q.le_max_r | apply fold_Qmax_ge_acc].
  - apply IH. exact Hin.
Qed.

Lemma fold_Qmax_In (v : vec) (a : Q) :
  fold_left Qmax v a = a \/ In (fold_left Qmax v a) v.
Proof.
  revert a. induction v as [|y v IH]; intros a; cbn [fold_left];
    [left; reflexivity|].
  destruct (IH (Qmax a y)) as [H|H].
  - rewrite H. unfold Qmax, GenericMinMax.gmax.
    destruct (Qcompare a y); [left | right; left | left]; reflexivity.
  - right. right. exact H.
Qed.

(** The maximum of the images of a list that is not empty: above every
    image, and the image of a member. *)
Lemma max_of_spec {A} (f : A -> Q) (x : A) (l : list A) :
  let n := fold_left Qmax (map f l) (f x) in
  (forall y, In y (x :: l) -> f y <= n) /\
  exists y, In y (x :: l) /\ n = f y.
Proof.
  cbn zeta. split.
  - intros y [->|Hy]; [apply fold_Qmax_ge_acc|].
    apply fold_Qmax_ge_In. apply in_map. exact Hy.
  - destruct (fold_Qmax_In (map f l) (f x)) as [H|H].
    + exists x. split; [left; reflexivity | exact H].
    + apply in_map_iff in H. destruct H as (y & Hy & Hin).
      exists y. split; [right; exact Hin | symmetry; exact Hy].
Qed.

Lemma Qabs_div_pos (x d : Q) : 0 < d -> Qabs (x / d) == Qabs x / d.
Proof.
  intros Hd. unfold Qdiv. rewrite Qabs_Qmult.
  rewrite (Qabs_pos (/ d)); [reflexivity|].
  apply Qlt_le_weak, Qinv_lt_0_compat, Hd.
Qed.

Lemma sum_abs_nonneg (r : vec) : 0 <= NumPy.sum (map Qabs r).
Proof.
  induction r as [|x r IH]; [apply Qle_refl|].
  cbn [map]. rewrite sum_cons.
  pose proof (Qabs_nonneg x). lra.
Qed.

Lemma sum_abs_div (r : vec) (d : Q) :
  0 < d ->
  NumPy.sum (map Qabs (NumPy.vdiv r d)) == NumPy.sum (map Qabs r) / d.
Proof.
  intros Hd. unfold NumPy.vdiv. induction r as [|x r IH].
  - unfold NumPy.sum. cbn. unfold Qdiv. ring.
  - cbn [map]. rewrite !sum_cons, IH, Qabs_div_pos by exact Hd.
    unfold Qdiv. ring.
Qed.

Lemma Qdiv_le_1 (a d : Q) : 0 < d -> a <= d -> a / d <= 1.
Proof.
  intros Hd Ha. apply Qle_shift_div_r; [exact Hd|]. lra.
Qed.

Lemma Qdiv_le_div (a b d : Q) : 0 < d -> a <= b -> a / d <= b / d.
Proof.
  intros Hd Hab. unfold Qdiv. apply Qmult_le_compat_r; [exact Hab|].
  apply Qlt_le_weak, Qinv_lt_0_compat, Hd.
Qed.

(** X14.  The normalisation of line 95 never divides by zero and scales
    the hessian to infinity norm [n / max(n, 1e-12)], [n] being the infinity
    norm of the hessian: at most one, and exactly one as soon as
    [n >= 1e-12]. *)
Theorem normalized_hessian_norm (H H' : matrix) :
  normalized H = Some H' ->
  exists n n',
    NumPy.norm_inf_mat H = Some n /\
    NumPy.norm_inf_mat H' = Some n' /\
    0 < Qmax n (1 # 1000000000000) /\
    n' == n / Qmax n (1 # 1000000000000) /\
    n' <= 1 /\
    ((1 # 1000000000000) <= n -> n' == 1).
Proof.
  unfold normalized. intros Hn.
  destruct (NumPy.norm_inf_mat H) as [n|] eqn:En; [|discriminate Hn].
  cbn [bind] in Hn. injection Hn as <-.
  destruct H as [|r0 M]; [discriminate En|].
  cbn [NumPy.norm_inf_mat] in En. injection En as En.
  set (d := Qmax n (1 # 1000000000000)).
  assert (Hd : 0 < d).
  { apply Qlt_le_trans with (1 # 1000000000000); [reflexivity|].
    apply Q.le_max_r. }
  assert (Hnd : n <= d) by apply Q.le_max_l.
  destruct (max_of_spec (fun r => NumPy.sum (map Qabs r)) r0 M)
    as [Hub (rm & Hrm & Hmax)].
  rewrite En in Hub, Hmax.
  exists n. eexists. split; [reflexivity|].
  unfold NumPy.mdiv. cbn [map NumPy.norm_inf_mat].
  split; [reflexivity|]. split; [exact Hd|].
  destruct (max_of_spec (fun r => NumPy.sum (map Qabs r)) (NumPy.vdiv r0 d)
              (map (fun r => NumPy.vdiv r d) M)) as [Hub' (rm' & Hrm' & Hmax')].
  set (n' := fold_left Qmax
               (map (fun r => NumPy.sum (map Qabs r))
                  (map (fun r => NumPy.vdiv r d) M))
               (NumPy.sum (map Qabs (NumPy.vdiv r0 d)))) in *.
  assert (Heq : n' == n / d).
  { apply Qle_antisym.
    - rewrite Hmax'.
      assert (Hin : exists r, In r (r0 :: M) /\ rm' = NumPy.vdiv r d).
      { destruct Hrm' as [<-|Hin]; [exists r0; split; [left|]; reflexivity|].
        apply in_map_iff in Hin. destruct Hin as (r & <- & Hr).
        exists r. split; [right; exact Hr | reflexivity]. }
      destruct Hin as (r & Hr & ->).
      rewrite sum_abs_div by exact Hd.
      apply Qdiv_le_div; [exact Hd | apply Hub; exact Hr].
    - rewrite Hmax, <- sum_abs_div by exact Hd.
      apply Hub'. destruct Hrm as [<-|Hin]; [left; reflexivity|].
      right. apply (in_map (fun r => NumPy.vdiv r d)). exact Hin. }
  split; [exact Heq|]. split.
  - rewrite Heq. apply Qdiv_le_1; assumption.
  - intros Hbig. rewrite Heq.
    assert (Hdn : d == n) by (apply Q.max_l; exact Hbig).
    rewrite Hdn. field. intros Hz. rewrite Hz in Hdn. rewrite Hdn in Hd.
    apply (Qlt_irrefl 0), Hd.
Qed.

Lemma normalized_hessian_norm_witness :
  exists H' n',
    normalized [[2; -2]; [1; 0]] = Some H' /\
    NumPy.norm_inf_mat H' = Some n' /\ n' == 1.
Proof.
  destruct (normalized [[2; -2]; [1; 0]]) as [H'|] eqn:HH;
    [|vm_compute in HH; discriminate HH].
  destruct (normalized_hessian_norm [[2; -2]; [1; 0]] H' HH)
    as (n & n' & Hn & Hn' & _ & _ & _ & Hone).
  exists H', n'. split; [reflexivity|]. split; [exact Hn'|]. apply Hone.
  vm_compute in Hn. injection Hn as <-. vm_compute. discriminate.
Defined.

Lemma Qabs_direction (y n : Q) : 0 < n -> Qabs (- y / n) == Qabs y / n.
Proof.
  intros Hn. rewrite Qabs_div_pos by exact Hn. rewrite Qabs_opp. reflexivity.
Qed.

(** Lines 96 and 105: a gradient divided by its own infinity norm has
    infinity norm one. *)
Lemma norm_inf_direction (pk : vec) (n : Q) :
  NumPy.norm_inf pk = Some n -> 0 < n ->
  exists n',
    NumPy.norm_inf (map (fun v => - v / n) pk) = Some n' /\ n' == 1.
Proof.
  intros Hnorm Hn. destruct pk as [|x v]; [discriminate Hnorm|].
  cbn [NumPy.norm_inf] in Hnorm. injection Hnorm as Hnorm.
  destruct (max_of_spec Qabs x v) as [Hub (xm & Hxm & Hmax)].
  rewrite Hnorm in Hub, Hmax.
  cbn [map NumPy.norm_inf]. eexists. split; [reflexivity|].
  destruct (max_of_spec Qabs (- x / n) (map (fun v => - v / n) v))
    as [Hub' (ym & Hym & Hmax')].
  set (n' := fold_left Qmax (map Qabs (map (fun v => - v / n) v))
               (Qabs (- x / n))) in *.
  apply Qle_antisym.
  - rewrite Hmax'.
    assert (Hin : exists y, In y (x :: v) /\ ym = - y / n).
    { destruct Hym as [<-|Hin]; [exists x; split; [left|]; reflexivity|].
      apply in_map_iff in Hin. destruct Hin as (y & <- & Hy).
      exists y. split; [right; exact Hy | reflexivity]. }
    destruct Hin as (y & Hy & ->).
    rewrite Qabs_direction by exact Hn.
    apply Qdiv_le_1; [exact Hn | apply Hub; exact Hy].
  - assert (H1 : 1 == Qabs (- xm / n)).
    { rewrite Qabs_direction by exact Hn. rewrite <- Hmax. field.
      intros Hz. rewrite Hz in Hn. apply (Qlt_irrefl 0), Hn. }
    rewrite H1. apply Hub'.
    destruct Hxm as [<-|Hin]; [left; reflexivity|].
    right. apply (in_map (fun v => - v / n)). exact Hin.
Qed.

Section Direction.
Variable W : Type.
Variable fun_ : vec -> matrix -> W -> vec * W.
Variable jac : vec -> matrix -> W -> vec * W.
Variable hess : W -> matrix * W.
Variable clip_state : vec -> vec.
Variable line_search :
  (vec -> closure_state W -> Q * closure_state W) ->
  (vec -> closure_state W -> vec * closure_state W) ->
  vec -> vec -> vec -> Q -> Q -> Q -> Q -> nat ->
  closure_state W -> ls_result * closure_state W.

Local Abbreviation search := (search W fun_ jac hess clip_state line_search).

(** X15.  With [normalize] set and a gradient that is not zero, the
    direction [-pk / pk_norm] that [calc_update] hands to the line search
    has infinity norm one; the gradient itself is handed on unscaled as
    [gfk]. *)
Theorem search_direction_unit_norm (o : options) (st : ls_state W)
    (r : search_result) (st1 : ls_state W) :
  search o st = Some (r, st1) ->
  normalize o = true ->
  0 < sr_pk_norm r ->
  exists f g k d n',
    sr_ls r
    = fst (line_search f g (mean_state st) d (sr_pk r)
             (NumPy.mean (obj_func_values st)) (c1 o) (c2 o) (alpha_max o)
             (alpha_iter_max o) k) /\
    d = map (fun v => - v / sr_pk_norm r) (sr_pk r) /\
    NumPy.norm_inf (sr_pk r) = Some (sr_pk_norm r) /\
    NumPy.norm_inf d = Some n' /\
    n' == 1.
Proof.
  intros Hs Hnorm Hpos.
  destruct (ControllerRuns.search_frame W fun_ jac hess clip_state
              line_search o st r st1 Hs)
    as (_ & _ & _ & _ & Hn & _ & (f & g & w & Hls)).
  rewrite Hnorm in Hn.
  destruct (norm_inf_direction (sr_pk r) (sr_pk_norm r) Hn Hpos)
    as (n' & Hn' & Hone).
  exists f, g. eexists. eexists. exists n'.
  split; [exact Hls|]. split; [reflexivity|]. split; [exact Hn|].
  split; [exact Hn' | exact Hone].
Qed.

End Direction.

(** The one-dimensional problem: the gradient [2] gives the direction
    [-1]. *)
Lemma search_direction_unit_norm_witness :
  sr_pk Scenarios.ls_search_result = [2] /\
  exists n',
    NumPy.norm_inf
      (map (fun v => - v / sr_pk_norm Scenarios.ls_search_result)
         (sr_pk Scenarios.ls_search_result)) = Some n' /\
    n' == 1.
Proof.
  split; [reflexivity|].
  destruct (search_direction_unit_norm unit Examples.ls_fun Examples.ls_jac
              Examples.ls_hess Examples.ls_clip Examples.ls_never
              Examples.ls_options Examples.ls_start
              Scenarios.ls_search_result Scenarios.ls_search_state)
    as (f & g & k & d & n' & _ & Hd & _ & Hn' & Hone).
  - vm_compute. reflexivity.
  - reflexivity.
  - vm_compute. reflexivity.
  - exists n'. rewrite <- Hd. split; [exact Hn' | exact Hone].
Defined.

End Normalisation.

(** ** Laws of the SMC weights (lines 349-357) *)

Module SmcWeightLaws.
Import GaussianEnsemble.

Lemma sum_all_eq (l : vec) (c : Q) :
  (forall x, In x l -> x == c) ->
  NumPy.sum l == inject_Z (Z.of_nat (length l)) * c.
Proof.
  induction l as [|x l IH]; intros H.
  - unfold NumPy.sum. cbn. ring.
  - rewrite sum_cons, EnsembleSampler.inject_Z_length_cons.
    rewrite (H x) by (left; reflexivity).
    rewrite IH by (intros y Hy; apply H; right; exact Hy). ring.
Qed.

Lemma sum_pointwise (f g : nat -> Q) (l : list nat) :
  (forall i, In i l -> f i == g i) ->
  NumPy.sum (map f l) == NumPy.sum (map g l).
Proof.
  induction l as [|i l IH]; intros H; [reflexivity|].
  cbn [map]. rewrite !sum_cons, (H i) by (left; reflexivity).
  rewrite IH by (intros j Hj; apply H; right; exact Hj). reflexivity.
Qed.

Lemma dot_all_eq (r w : vec) (c : Q) :
  length w = length r ->
  (forall x, In x w -> x == c) ->
  NumPy.dot r w == c * NumPy.sum r.
Proof.
  revert w. induction r as [|x r IH]; intros [|y w] Hlen H;
    try discriminate Hlen.
  - unfold NumPy.dot, NumPy.sum. cbn. ring.
  - rewrite Controller.dot_cons, sum_cons.
    rewrite (H y) by (left; reflexivity).
    rewrite (IH w) by
      (try (cbn [length] in Hlen; lia); intros z Hz; apply H; right; exact Hz).
    ring.
Qed.

Lemma inject_nat_pos (n : nat) : (1 <= n)%nat -> 0 < inject_Z (Z.of_nat n).
Proof. intros H. unfold Qlt. cbn [Qnum Qden inject_Z]. lia. Qed.

Lemma nth_raw (exp : Q -> Q) (infl : Q) (values : vec) (m : Q) (S : Q)
    (n i : nat) :
  (i < n)%nat ->
  nth i (map (fun w => w / S)
           (map (Invariants.raw_weight exp infl values m) (range n))) 0
  = Invariants.raw_weight exp infl values m i / S.
Proof.
  intros Hi.
  rewrite (nth_map_lt _ _ i 0 0)
    by (unfold range; rewrite length_map, length_seq; exact Hi).
  rewrite (nth_map_lt _ (range n) i 0%nat 0)
    by (unfold range; rewrite length_seq; exact Hi).
  unfold range. rewrite seq_nth by exact Hi. reflexivity.
Qed.

(** X16.  With the inflation factor zero every member of a level gets
    the weight [1 / n], whatever the objective values, and the level
    sensitivity [particles @ weights] is the plain mean of the particles. *)
Theorem zero_inflation_uniform_weights (exp : Q -> Q) (values : vec)
    (Pl : matrix) (n : nat) :
  (forall x y, x == y -> exp x == exp y) ->
  0 <= exp 0 ->
  length values = n ->
  (1 <= n)%nat ->
  Forall (fun r => length r = n) Pl ->
  exists w sens,
    smc_weights exp 0 values (Z.of_nat n) = Some w /\
    length w = n /\
    (forall i, (i < n)%nat -> nth i w 0 == 1 / inject_Z (Z.of_nat n)) /\
    NumPy.matmul_vec Pl w = Some sens /\
    forall k, (k < length Pl)%nat -> nth k sens 0 == NumPy.mean (nth k Pl []).
Proof.
  intros Hexp Hexp0 Hlen Hn HPl.
  destruct (SmcWeights.smc_weights_run exp 0 values n Hlen Hn)
    as (m & _ & _ & _ & Hrun).
  set (c := exp 0 + (1 # 1000000)).
  assert (Hc : 0 < c) by (unfold c; assert (0 < 1 # 1000000) by reflexivity; lra).
  assert (Hraw : forall i, Invariants.raw_weight exp 0 values m i == c).
  { intros i. unfold Invariants.raw_weight, c, NumPy.clip_upper.
    apply Qplus_comp; [|reflexivity]. apply Hexp.
    setoid_replace (- (nth i values 0 - m) * 0) with 0 by ring.
    apply Q.min_l. discriminate. }
  set (raw := map (Invariants.raw_weight exp 0 values m) (range n)) in *.
  assert (Hrawlen : length raw = n)
    by (unfold raw, range; rewrite length_map, length_seq; reflexivity).
  assert (HS : NumPy.sum raw == inject_Z (Z.of_nat n) * c).
  { transitivity (inject_Z (Z.of_nat (length raw)) * c);
      [|rewrite Hrawlen; reflexivity].
    apply sum_all_eq. intros x Hx.
    apply in_map_iff in Hx. destruct Hx as (i & <- & _). apply Hraw. }
  pose proof (inject_nat_pos n Hn) as Hnpos.
  assert (Hcne : ~ c == 0).
  { intros Hz. rewrite Hz in Hc. apply (Qlt_irrefl 0), Hc. }
  assert (Hnne : ~ inject_Z (Z.of_nat n) == 0).
  { intros Hz. rewrite Hz in Hnpos. apply (Qlt_irrefl 0), Hnpos. }
  assert (Hw : forall i, (i < n)%nat ->
            nth i (map (fun w => w / NumPy.sum raw) raw) 0
            == 1 / inject_Z (Z.of_nat n)).
  { intros i Hi. unfold raw. rewrite nth_raw by exact Hi.
    fold raw. rewrite HS, Hraw. field. split; assumption. }
  exists (map (fun w => w / NumPy.sum raw) raw). eexists.
  split; [exact Hrun|]. split; [rewrite length_map; exact Hrawlen|].
  split; [exact Hw|].
  unfold NumPy.matmul_vec.
  replace (forallb _ Pl) with true.
  2:{ symmetry. apply forallb_forall. intros r Hr. apply Nat.eqb_eq.
      rewrite Forall_forall in HPl. rewrite (HPl r Hr), length_map.
      symmetry. exact Hrawlen. }
  split; [reflexivity|]. intros k Hk. unfold NumPy.matvec.
  rewrite (nth_map_lt (A:=vec) _ Pl k [] 0) by exact Hk.
  assert (Hrk : length (nth k Pl []) = n).
  { rewrite Forall_forall in HPl. apply HPl, nth_In, Hk. }
  rewrite (dot_all_eq _ _ (1 / inject_Z (Z.of_nat n))).
  - unfold NumPy.mean. rewrite Hrk. field. exact Hnne.
  - rewrite length_map, Hrawlen, Hrk. reflexivity.
  - intros x Hx. apply (In_nth _ _ 0) in Hx.
    destruct Hx as (i & Hi & <-). apply Hw.
    rewrite length_map, Hrawlen in Hi. exact Hi.
Qed.

Lemma exp_tangent_proper (x y : Q) :
  x == y -> Examples.exp_tangent x == Examples.exp_tangent y.
Proof.
  intros H. unfold Examples.exp_tangent. rewrite H. reflexivity.
Qed.

(** Three members with the values [3], [1], [2]: each weighs a third, and
    the particles [3; 6; 9] give the sensitivity [6]. *)
Lemma zero_inflation_uniform_weights_witness :
  exists w sens,
    smc_weights Examples.exp_tangent 0 [3; 1; 2] 3 = Some w /\
    nth 1 w 0 == 1 # 3 /\
    NumPy.matmul_vec [[3; 6; 9]] w = Some sens /\
    nth 0 sens 0 == 6.
Proof.
  destruct (zero_inflation_uniform_weights Examples.exp_tangent [3; 1; 2]
              [[3; 6; 9]] 3)
    as (w & sens & Hw & _ & Hu & Hs & Hm).
  - exact exp_tangent_proper.
  - vm_compute. discriminate.
  - reflexivity.
  - lia.
  - repeat constructor.
  - exists w, sens. split; [exact Hw|]. split.
    + rewrite (Hu 1%nat) by lia. reflexivity.
    + split; [exact Hs|]. rewrite (Hm 0%nat) by (simpl; lia).
      vm_compute. reflexivity.
Defined.

(** X17.  The weights depend on the objective values only through their
    differences: adding one constant to every value of the level leaves
    every weight unchanged. *)
Theorem weights_shift_invariant (exp : Q -> Q) (infl : Q) (values : vec)
    (n : nat) (c : Q) :
  (forall x y, x == y -> exp x == exp y) ->
  length values = n ->
  (1 <= n)%nat ->
  exists w w',
    smc_weights exp infl values (Z.of_nat n) = Some w /\
    smc_weights exp infl (map (fun v => v + c) values) (Z.of_nat n)
    = Some w' /\
    length w = n /\ length w' = n /\
    forall i, (i < n)%nat -> nth i w' 0 == nth i w 0.
Proof.
  intros Hexp Hlen Hn.
  destruct (SmcWeights.smc_weights_run exp infl values n Hlen Hn)
    as (m & _ & Hle & Hin & Hrun).
  destruct (SmcWeights.smc_weights_run exp infl (map (fun v => v + c) values)
              n) as (m' & _ & Hle' & Hin' & Hrun');
    [rewrite length_map; exact Hlen | exact Hn |].
  assert (Hm : m' == m + c).
  { apply Qle_antisym.
    - apply Hle'. apply (in_map (fun v => v + c)). exact Hin.
    - apply in_map_iff in Hin'. destruct Hin' as (v & <- & Hv).
      apply Qplus_le_l. apply Hle. exact Hv. }
  assert (Hraw : forall i, (i < n)%nat ->
            Invariants.raw_weight exp infl (map (fun v => v + c) values) m' i
            == Invariants.raw_weight exp infl values m i).
  { intros i Hi. unfold Invariants.raw_weight, NumPy.clip_upper.
    apply Qplus_comp; [|reflexivity]. apply Hexp.
    apply Q.min_compat; [|reflexivity].
    rewrite (nth_map_lt _ values i 0 0) by lia. rewrite Hm. ring. }
  assert (HS : NumPy.sum
                 (map (Invariants.raw_weight exp infl
                         (map (fun v => v + c) values) m') (range n))
               == NumPy.sum
                    (map (Invariants.raw_weight exp infl values m) (range n))).
  { apply sum_pointwise. intros i Hi. apply in_seq in Hi. apply Hraw. lia. }
  eexists. eexists. split; [exact Hrun|]. split; [exact Hrun'|].
  split; [unfold range; rewrite !length_map, length_seq; reflexivity|].
  split; [unfold range; rewrite !length_map, length_seq; reflexivity|].
  intros i Hi. rewrite !nth_raw by exact Hi.
  rewrite HS, (Hraw i Hi). reflexivity.
Qed.

(** The values [3], [1], [2] and the same values moved by [10]. *)
Lemma weights_shift_invariant_witness :
  exists w w',
    smc_weights Examples.exp_tangent 1 [3; 1; 2] 3 = Some w /\
    smc_weights Examples.exp_tangent 1 [13; 11; 12] 3 = Some w' /\
    nth 0 w' 0 == nth 0 w 0.
Proof.
  destruct (weights_shift_invariant Examples.exp_tangent 1 [3; 1; 2] 3 10)
    as (w & w' & Hw & Hw' & _ & _ & Heq).
  - exact exp_tangent_proper.
  - reflexivity.
  - lia.
  - exists w, w'. split; [exact Hw|]. split.
    + rewrite <- Hw'. vm_compute. reflexivity.
    + apply Heq. lia.
Defined.

End SmcWeightLaws.

(** ** The best member that [calc_ensemble_weights] returns (lines 358-361) *)

Module SmcBest.
Import GaussianEnsemble.

(** [np.argmin] returns the first position of a smallest entry. *)
Lemma argmin_from_spec (v : vec) :
  forall (pre : vec) (i best : nat) (bv : Q),
    length pre = i -> (best < i)%nat ->
    nth best (pre ++ v) 0 = bv ->
    (forall j, (j < i)%nat -> bv <= nth j (pre ++ v) 0) ->
    (forall j, (j < best)%nat -> bv < nth j (pre ++ v) 0) ->
    let r := NumPy.argmin_from v i best bv in
    (r < length (pre ++ v))%nat /\
    (forall j, (j < length (pre ++ v))%nat ->
       nth r (pre ++ v) 0 <= nth j (pre ++ v) 0) /\
    (forall j, (j < r)%nat -> nth r (pre ++ v) 0 < nth j (pre ++ v) 0).
Proof.
  induction v as [|x v IH]; intros pre i best bv Hlen Hbest Hbv Hle Hlt.
  - cbn [NumPy.argmin_from]. rewrite app_nil_r in *. rewrite Hlen, Hbv.
    split; [exact Hbest|]. split; assumption.
  - cbn [NumPy.argmin_from].
    assert (Happ : pre ++ x :: v = (pre ++ [x]) ++ v)
      by (rewrite <- app_assoc; reflexivity).
    assert (Hx : nth i (pre ++ x :: v) 0 = x)
      by (rewrite app_nth2, Hlen, Nat.sub_diag by lia; reflexivity).
    destruct (Qcompare x bv) eqn:Ecmp.
    + rewrite Happ in *.
      apply (IH (pre ++ [x]) (S i) best bv);
        [rewrite length_app; cbn [length]; lia | lia | exact Hbv | | exact Hlt].
      intros j Hj. destruct (Nat.eq_dec j i) as [->|Hne].
      * rewrite Hx. apply Qeq_alt in Ecmp. rewrite Ecmp. apply Qle_refl.
      * apply Hle. lia.
    + apply Qlt_alt in Ecmp. rewrite Happ in *.
      apply (IH (pre ++ [x]) (S i) i x);
        [rewrite length_app; cbn [length]; lia | lia | exact Hx | |].
      * intros j Hj. destruct (Nat.eq_dec j i) as [->|Hne].
        -- rewrite Hx. apply Qle_refl.
        -- apply Qlt_le_weak. eapply Qlt_le_trans; [exact Ecmp|].
           apply Hle. lia.
      * intros j Hj. eapply Qlt_le_trans; [exact Ecmp|]. apply Hle. exact Hj.
    + apply Qgt_alt in Ecmp. rewrite Happ in *.
      apply (IH (pre ++ [x]) (S i) best bv);
        [rewrite length_app; cbn [length]; lia | lia | exact Hbv | | exact Hlt].
      intros j Hj. destruct (Nat.eq_dec j i) as [->|Hne].
      * rewrite Hx. apply Qlt_le_weak. exact Ecmp.
      * apply Hle. lia.
Qed.

Lemma argmin_spec (v : vec) (r : nat) :
  NumPy.argmin v = Some r ->
  (r < length v)%nat /\
  (forall j, (j < length v)%nat -> nth r v 0 <= nth j v 0) /\
  (forall j, (j < r)%nat -> nth r v 0 < nth j v 0).
Proof.
  destruct v as [|x v]; [discriminate|]. cbn [NumPy.argmin].
  intros H. injection H as <-.
  apply (argmin_from_spec v [x] 1 0 x).
  - reflexivity.
  - lia.
  - reflexivity.
  - intros j Hj. assert (j = 0%nat) as -> by lia. apply Qle_refl.
  - intros j Hj. lia.
Qed.

(** The pass of the loop over the last level sets the best member. *)
Lemma smc_level_best (exp : Q -> Q) (cfg : settings) (o : obj) (infl sf : Q)
    (E : matrix) (L : nat) (N : list Z) (picks : nat -> option (list nat))
    (s s' : smc_loop) :
  smc_level exp cfg o infl sf E L N picks (L - 1) s = Some s' ->
  exists index best_func,
    NumPy.argmin (nth (L - 1) (s_particle_values s') []) = Some index /\
    nth_error (nth (L - 1) (s_particle_values s') []) index
    = Some best_func /\
    s_best s'
    = Some (map (fun r => nth index r 0) (nth (L - 1) (s_particles s') []),
            best_func).
Proof.
  unfold smc_level. intros H.
  destruct (nth_error N (L - 1)) as [ml_ne|] eqn:EN; cbn [bind] in H;
    [|discriminate].
  destruct (ml_counts cfg sf L (L - 1) ml_ne (s_ml_ne_new_total s))
    as [[new surv] total] eqn:Ec.
  destruct (nth_error (s_resample_index s) (L - 1)) as [ri|] eqn:Eri;
    cbn [bind] in H; [|discriminate].
  destruct (nth_error (ens_func_values o) (L - 1)) as [J|] eqn:EJ;
    cbn [bind] in H; [|discriminate].
  destruct (update_population E J (s_start_index s) ml_ne new surv (L - 1)
              ri (s_particles s) (s_particle_values s))
    as [[P V]|] eqn:Eu; cbn [bind] in H; [|discriminate].
  destruct (nth_error P (L - 1)) as [Pl|] eqn:EP; cbn [bind] in H;
    [|discriminate].
  destruct (nth_error V (L - 1)) as [Vl|] eqn:EV; cbn [bind] in H;
    [|discriminate].
  destruct (smc_weights exp infl Vl ml_ne) as [w|] eqn:Ew; cbn [bind] in H;
    [|discriminate].
  destruct (NumPy.matmul_vec Pl w) as [sens|] eqn:Es; cbn [bind] in H;
    [|discriminate].
  rewrite Nat.eqb_refl in H.
  destruct (NumPy.argmin Vl) as [index|] eqn:Ea; cbn [bind] in H;
    [|discriminate].
  unfold NumPy.col in H.
  destruct (index <? length w)%nat; cbn [bind] in H; [|discriminate].
  destruct (nth_error Vl index) as [best_func|] eqn:Eb; cbn [bind] in H;
    [|discriminate].
  destruct (picks (L - 1)%nat) as [idx|] eqn:Epk; cbn [bind] in H;
    [|discriminate].
  injection H as <-. cbn [s_best s_particles s_particle_values].
  apply SmcLoop.nth_error_nth_some with (d := []) in EP.
  apply SmcLoop.nth_error_nth_some with (d := []) in EV.
  destruct EP as [-> _]. destruct EV as [-> _].
  exists index, best_func. repeat split; assumption.
Qed.

Section Whole.
Variable function : matrix -> list vec.
Variable bias_func : obj -> vec.
Variable exp : Q -> Q.

(** X18.  When there is at least one level, the best member that
    [calc_ensemble_weights] returns is taken from the population of the
    last level as the call leaves it: [best_func] is the smallest objective
    value stored there, at its first position, and [best_ens] is the
    particle in that column. *)
Theorem best_member_is_finest_minimum (cfg : settings) (o : obj) (x : vec)
    (a0 : Q) (a1 : matrix) (a2 : Q) (draws : nat -> matrix)
    (picks : nat -> option (list nat)) (sens : vec)
    (best : option (vec * Q)) (o' : obj) :
  calc_ensemble_weights function bias_func exp cfg o x a0 a1 a2 draws picks
    = Some (sens, best, o') ->
  (1 <= length (ens_func_values o'))%nat ->
  let Vl := nth (length (ens_func_values o') - 1) (particle_values o') [] in
  let Pl := nth (length (ens_func_values o') - 1) (particles o') [] in
  exists index best_func,
    best = Some (map (fun r => nth index r 0) Pl, best_func) /\
    nth_error Vl index = Some best_func /\
    (forall v, In v Vl -> best_func <= v) /\
    (forall j, (j < index)%nat -> best_func < nth j Vl 0).
Proof.
  intros Hrun HL Vl Pl.
  destruct (SmcWeighter.calc_ensemble_weights_inv function bias_func exp _ _ _
              _ _ _ _ _ _ _ _ Hrun)
    as (ens & o6 & s & _ & _ & Hv6 & Hv' & _ & _ & Hs & _ & HP & HV & _ & Hb).
  unfold smc_levels in Hs. rewrite Hv6 in Hs.
  unfold Vl, Pl. rewrite Hv', HP, HV, Hb in *.
  set (L := length (function (aug_state ens))) in *.
  replace L with (S (L - 1)) in Hs at 1 by lia.
  rewrite range_S, for_each_app in Hs.
  destruct (for_each (range (L - 1)) _ _) as [s0|]; cbn [bind for_each] in Hs;
    [|discriminate].
  destruct (smc_level exp cfg o6 a0 a2 (aug_state ens) L
              (declared_en_size cfg) picks (L - 1) s0) as [s1|] eqn:Hlast;
    cbn [bind] in Hs; [|discriminate].
  injection Hs as <-.
  destruct (smc_level_best _ _ _ _ _ _ _ _ _ _ _ Hlast)
    as (index & best_func & Ha & Hbf & Hbest).
  destruct (argmin_spec _ _ Ha) as (Hidx & Hmin & Hfirst).
  apply SmcLoop.nth_error_nth_some with (d := 0) in Hbf as Hbf'.
  destruct Hbf' as [Hval _].
  exists index, best_func. split; [exact Hbest|]. split; [exact Hbf|]. split.
  - intros v Hv. apply (In_nth _ _ 0) in Hv. destruct Hv as (j & Hj & <-).
    rewrite <- Hval. apply Hmin. exact Hj.
  - intros j Hj. rewrite <- Hval. apply Hfirst. exact Hj.
Qed.

End Whole.

(** The second round of the two-level run: the last level holds the
    values [0] and [12], and the best member is the first one. *)
Lemma best_member_is_finest_minimum_witness :
  exists index best_func,
    Examples.best_round2
    = Some (map (fun r => nth index r 0)
              (nth 1 (particles Examples.o_round2) []), best_func) /\
    forall v, In v (nth 1 (particle_values Examples.o_round2) []) ->
      best_func <= v.
Proof.
  destruct (best_member_is_finest_minimum Examples.objective_half
              Examples.no_bias Examples.exp_tangent Examples.cfg_ml
              Examples.o_round1 [0] 1 [[1]] (1 # 2) Examples.draws2
              Examples.picks0 Examples.sens_round2 Examples.best_round2
              Examples.o_round2)
    as (index & best_func & Hb & _ & Hmin & _).
  - vm_compute. reflexivity.
  - vm_compute. lia.
  - exists index, best_func. split; [exact Hb | exact Hmin].
Defined.

End SmcBest.

(** ** The population in the later rounds (lines 343-346) *)

Module SmcPopulation.
Import GaussianEnsemble.

Lemma take_total (v : vec) (idx : list nat) :
  Forall (fun i => (i < length v)%nat) idx ->
  NumPy.take v idx = Some (map (fun i => nth i v 0) idx).
Proof.
  intros H. unfold NumPy.take. apply SmcWeights.map_opt_total.
  intros i Hi. rewrite Forall_forall in H.
  apply nth_error_nth_lt. apply H. exact Hi.
Qed.

Lemma slice_bound_zero (len : nat) : NumPy.slice_bound len 0 = 0%nat.
Proof. reflexivity. Qed.

Lemma slice_bound_within (len : nat) (i : Z) :
  (0 <= i)%Z -> (Z.to_nat i <= len)%nat ->
  NumPy.slice_bound len i = Z.to_nat i.
Proof.
  intros H0 Hle. unfold NumPy.slice_bound.
  replace (i <? 0)%Z with false by (symmetry; apply Z.ltb_ge; exact H0).
  lia.
Qed.

(** [t[:s] = src] with [len(src) = s]. *)
Lemma assign_slice_prefix (t src : vec) (s : Z) :
  (0 <= s)%Z -> (Z.to_nat s <= length t)%nat -> length src = Z.to_nat s ->
  NumPy.assign_slice t 0 s src = Some (src ++ skipn (Z.to_nat s) t).
Proof.
  intros H0 Hle Hsrc. unfold NumPy.assign_slice.
  rewrite slice_bound_zero, slice_bound_within by assumption.
  rewrite Nat.sub_0_r, Hsrc, Nat.eqb_refl. reflexivity.
Qed.

(** [t[s:] = src] with [len(src) = len(t) - s]. *)
Lemma assign_slice_suffix (t src : vec) (s : Z) :
  (0 <= s)%Z -> (Z.to_nat s <= length t)%nat ->
  length src = (length t - Z.to_nat s)%nat ->
  NumPy.assign_slice t s (Z.of_nat (length t)) src
  = Some (firstn (Z.to_nat s) t ++ src).
Proof.
  intros H0 Hle Hsrc. unfold NumPy.assign_slice.
  rewrite (slice_bound_within _ s) by assumption.
  rewrite (slice_bound_within _ (Z.of_nat (length t)))
    by (rewrite ?Nat2Z.id; lia).
  rewrite Nat2Z.id, Hsrc, Nat.eqb_refl.
  rewrite skipn_all2 by lia. rewrite app_nil_r. reflexivity.
Qed.

(** The two assignments of lines 345-346 on one array: the gathered
    survivors, then the new values. *)
Lemma refill_row (t vs src : vec) (s : Z) :
  (0 <= s)%Z -> (Z.to_nat s <= length t)%nat -> length vs = Z.to_nat s ->
  length src = (length t - Z.to_nat s)%nat ->
  exists t1,
    NumPy.assign_slice t 0 s vs = Some t1 /\
    length t1 = length t /\
    NumPy.assign_slice t1 s (Z.of_nat (length t)) src = Some (vs ++ src).
Proof.
  intros H0 Hle Hvs Hsrc.
  exists (vs ++ skipn (Z.to_nat s) t).
  split; [apply assign_slice_prefix; assumption|].
  assert (Hlen : length (vs ++ skipn (Z.to_nat s) t) = length t)
    by (rewrite length_app, length_skipn; lia).
  split; [exact Hlen|].
  rewrite <- Hlen at 1. rewrite assign_slice_suffix; try lia.
  rewrite <- Hvs. rewrite firstn_app, firstn_all, Nat.sub_diag.
  cbn [firstn]. rewrite app_nil_r. reflexivity.
Qed.

Lemma assign_cols_cons (r : vec) (T : matrix) (a b : Z) (x : vec)
    (src : matrix) :
  NumPy.assign_cols (r :: T) a b (x :: src)
  = match NumPy.assign_slice r a b x with
    | Some y =>
        match NumPy.assign_cols T a b src with
        | Some Y => Some (y :: Y)
        | None => None
        end
    | None => None
    end.
Proof.
  unfold NumPy.assign_cols.
  cbn [length combine NumPy.map_opt fst snd Nat.eqb].
  destruct (length src =? length T)%nat;
    destruct (NumPy.assign_slice r a b x); reflexivity.
Qed.

Section Refill.
Variable idx : list nat.
Variable s : Z.
Variable len : nat.
Hypothesis Hs0 : (0 <= s)%Z.
Hypothesis Hslen : (Z.to_nat s <= len)%nat.
Hypothesis Hidx : length idx = Z.to_nat s.
Hypothesis Hrange : Forall (fun i => (i < len)%nat) idx.

Local Abbreviation gather := (fun r : vec => map (fun i => nth i r 0) idx).

(** Lines 343-344 on the rows of a particle matrix. *)
Lemma refill_rows :
  forall (Pl0 Enew : matrix),
    length Enew = length Pl0 ->
    Forall (fun r => length r = len) Pl0 ->
    Forall (fun e => length e = (len - Z.to_nat s)%nat) Enew ->
    exists Pl1,
      NumPy.take_cols Pl0 idx = Some (map gather Pl0) /\
      NumPy.assign_cols Pl0 0 s (map gather Pl0) = Some Pl1 /\
      Forall (fun r => length r = len) Pl1 /\
      length Pl1 = length Pl0 /\
      NumPy.assign_cols Pl1 s (Z.of_nat len) Enew
      = Some (NumPy.map2 (fun r e => gather r ++ e) Pl0 Enew).
Proof.
  induction Pl0 as [|r Pl0 IH]; intros [|e Enew] Hlen HP HE;
    try discriminate Hlen.
  - exists []. repeat split; try reflexivity. constructor.
  - apply Forall_cons_iff in HP. destruct HP as [Hr HP'].
    apply Forall_cons_iff in HE. destruct HE as [He HE'].
    cbn [length] in Hlen.
    destruct (IH Enew ltac:(lia) HP' HE')
      as (Pl1 & Htake & Ha1 & Hwf1 & Hlen1 & Ha2).
    assert (Hrow : NumPy.take r idx = Some (gather r)).
    { apply take_total. rewrite Hr. exact Hrange. }
    destruct (refill_row r (gather r) e s Hs0)
      as (t1 & Ht1 & Ht1len & Ht2).
    { rewrite Hr. exact Hslen. }
    { rewrite length_map. exact Hidx. }
    { rewrite Hr. exact He. }
    exists (t1 :: Pl1). split; [|split; [|split; [|split]]].
    + unfold NumPy.take_cols in *. cbn [NumPy.map_opt map].
      rewrite Hrow, Htake. reflexivity.
    + cbn [map]. rewrite assign_cols_cons, Ht1, Ha1. reflexivity.
    + constructor; [rewrite Ht1len; exact Hr | exact Hwf1].
    + cbn [length]. rewrite Hlen1. reflexivity.
    + rewrite assign_cols_cons. rewrite Hr in Ht2. rewrite Ht2, Ha2.
      reflexivity.
Qed.

End Refill.

(** X19.  In a later round, when the resample index of a level of [len]
    members holds [ml_ne_surv >= 0] positions and [len - ml_ne_surv] new
    samples come in, the population of the level becomes the resampled
    survivors followed by the new samples, for the particles and for their
    objective values alike; the level keeps its size and the other levels
    are untouched. *)
Theorem later_round_population (E : matrix) (J : vec)
    (start ml_ne new surv : Z) (l : nat) (idx : list nat)
    (P0 : list matrix) (V0 : list vec) (Pl0 : matrix) (Vl0 : vec)
    (len : nat) :
  nth_error P0 l = Some Pl0 ->
  nth_error V0 l = Some Vl0 ->
  Forall (fun r => length r = len) Pl0 ->
  length Vl0 = len ->
  (0 <= surv)%Z ->
  (Z.to_nat surv <= len)%nat ->
  length idx = Z.to_nat surv ->
  Forall (fun i => (i < len)%nat) idx ->
  length J = (len - Z.to_nat surv)%nat ->
  length E = length Pl0 ->
  Forall (fun e => length e = (len - Z.to_nat surv)%nat)
    (NumPy.cols E start (start + new)) ->
  update_population E J start ml_ne new surv l (Some idx) P0 V0
  = Some (NumPy.set_nth l
            (NumPy.map2 (fun r e => map (fun i => nth i r 0) idx ++ e)
               Pl0 (NumPy.cols E start (start + new))) P0,
          NumPy.set_nth l (map (fun i => nth i Vl0 0) idx ++ J) V0).
Proof.
  intros HP HV Hwf HVlen Hs0 Hslen Hidx Hrange HJ HE HEnew.
  unfold update_population. rewrite HP, HV. cbn [bind].
  destruct (refill_rows idx surv len Hs0 Hslen Hidx Hrange Pl0
              (NumPy.cols E start (start + new)))
    as (Pl1 & Htake & Ha1 & Hwf1 & Hlen1 & Ha2).
  { rewrite SmcLoop.cols_length. exact HE. }
  { exact Hwf. }
  { exact HEnew. }
  rewrite Htake. cbn [bind]. rewrite Ha1. cbn [bind].
  assert (Hend : NumPy.assign_cols Pl1 surv (Z.of_nat (length (hd [] Pl1)))
                   (NumPy.cols E start (start + new))
                 = NumPy.assign_cols Pl1 surv (Z.of_nat len)
                     (NumPy.cols E start (start + new))).
  { destruct Pl1 as [|r1 Pl1].
    - unfold NumPy.assign_cols. cbn [length combine NumPy.map_opt].
      reflexivity.
    - apply Forall_cons_iff in Hwf1. destruct Hwf1 as [Hr1 _].
      cbn [hd]. rewrite Hr1. reflexivity. }
  rewrite Hend, Ha2. cbn [bind].
  rewrite take_total by (rewrite HVlen; exact Hrange). cbn [bind].
  destruct (refill_row Vl0 (map (fun i => nth i Vl0 0) idx) J surv Hs0)
    as (t1 & Ht1 & Ht1len & Ht2).
  { rewrite HVlen. exact Hslen. }
  { rewrite length_map. exact Hidx. }
  { rewrite HVlen. exact HJ. }
  rewrite Ht1. cbn [bind]. rewrite Ht1len, Ht2. cbn [bind]. reflexivity.
Qed.

(** A level of two members: member [1] survives and one new sample comes
    in. *)
Lemma later_round_population_witness :
  update_population [[7; 8]] [5] 0 2 1 1 0 (Some [1%nat]) [[[1; 2]]]
    [[10; 20]]
  = Some ([[[2; 7]]], [[20; 5]]).
Proof.
  apply (later_round_population [[7; 8]] [5] 0 2 1 1 0 [1%nat] [[[1; 2]]]
           [[10; 20]] [[1; 2]] [10; 20] 2).
  - reflexivity.
  - reflexivity.
  - repeat constructor.
  - reflexivity.
  - lia.
  - simpl. lia.
  - reflexivity.
  - repeat constructor.
  - reflexivity.
  - reflexivity.
  - repeat constructor.
Defined.

(** X20.  With a survival factor between [0] and [1], a level that is not
    the last of several splits its [ml_ne] members ([0 <= ml_ne < 2 ** 53])
    into [round(ml_ne * f)] new ones, the product being the double product,
    and the rest surviving, both counts within [0 .. ml_ne]; and a later
    round draws [round(num_samples * f)] members, at most [num_samples]. *)
Theorem counts_within_level (cfg : settings) (o : obj) (sf : Q) (L l : nat)
    (ml_ne total : Z) :
  0 <= sf -> sf <= 1 ->
  ((0 <= ml_ne < 2 ^ 53)%Z ->
   (1 <? L)%nat && (l =? L - 1)%nat = false ->
   exists ml_ne_new ml_ne_surv,
     ml_counts cfg sf L l ml_ne total
     = (ml_ne_new, ml_ne_surv, (total + ml_ne_new)%Z) /\
     ml_ne_new = NumPy.round (NumPy.fmul ml_ne sf) /\
     (0 <= ml_ne_new <= ml_ne)%Z /\
     (0 <= ml_ne_surv <= ml_ne)%Z /\
     (ml_ne_new + ml_ne_surv = ml_ne)%Z) /\
  ((0 <= num_samples cfg < 2 ^ 53)%Z ->
   (0 <= sampled_ne cfg o sf <= num_samples cfg)%Z).
Proof.
  intros Hsf0 Hsf1.
  assert (Hround : forall n, (0 <= n < 2 ^ 53)%Z ->
            (0 <= NumPy.round (NumPy.fmul n sf) <= n)%Z).
  { intros n Hn. split.
    - apply Doubles.round_fmul_nonneg; [lia | exact Hsf0].
    - apply Doubles.round_fmul_le; assumption. }
  split.
  - intros Hne Hlast. unfold ml_counts. rewrite Hlast.
    eexists. eexists. split; [reflexivity|]. split; [reflexivity|].
    specialize (Hround ml_ne Hne). lia.
  - intros Hn. unfold sampled_ne. destruct (resample_index o).
    + apply Hround. exact Hn.
    + lia.
Qed.

(** A level of 45 members and the survival factor [0.7]: the double
    product is just below [31.5], so 31 members are new and 14 survive. *)
Lemma counts_within_level_witness :
  (exists ml_ne_new ml_ne_surv,
     ml_counts Examples.cfg_ml (7 # 10) 2 0 45 0
     = (ml_ne_new, ml_ne_surv, (0 + ml_ne_new)%Z) /\
     ml_ne_new = 31%Z /\
     (0 <= ml_ne_new <= 45)%Z /\
     (0 <= ml_ne_surv <= 45)%Z /\
     (ml_ne_new + ml_ne_surv = 45)%Z) /\
  (0 <= sampled_ne Examples.cfg_ml Examples.o_round1 (7 # 10) <= 4)%Z.
Proof.
  destruct (counts_within_level Examples.cfg_ml Examples.o_round1 (7 # 10) 2 0
              45 0) as [Hc Hs].
  - discriminate.
  - discriminate.
  - split.
    + apply Hc; [lia | reflexivity].
    + apply Hs. vm_compute. split; [discriminate | reflexivity].
Defined.

End SmcPopulation.

(** ** The bias correction (lines 85, 397-424) *)

Module BiasCorrection.
Import GaussianEnsemble.



Lemma sum_map_pointwise {A} (f g : A -> Q) (l : list A) :
  (forall x, In x l -> f x == g x) ->
  NumPy.sum (map f l) == NumPy.sum (map g l).
Proof.
  induction l as [|x l IH]; intros H; [reflexivity|].
  cbn [map]. rewrite !sum_cons, (H x) by (left; reflexivity).
  rewrite IH by (intros y Hy; apply H; right; exact Hy). reflexivity.
Qed.

Lemma weighted_sum_all_eq (w r : vec) (c : Q) :
  length w = length r ->
  (forall x, In x w -> x == c) ->
  NumPy.sum (NumPy.map2 Qmult w r) == c * NumPy.sum r.
Proof.
  revert r. induction w as [|y w IH]; intros [|x r] Hlen H;
    try discriminate Hlen.
  - unfold NumPy.sum. cbn. ring.
  - cbn [NumPy.map2]. rewrite !sum_cons.
    rewrite (H y) by (left; reflexivity).
    rewrite (IH r) by
      (try (cbn [length] in Hlen; lia); intros z Hz; apply H; right; exact Hz).
    ring.
Qed.

(** X22.  The constructor gives every sample the bias weight
    [1 / num_samples]; the weights sum to one.  As long as no bias factors
    are stored the bias correction is [1]; with these weights and stored
    factors it is the sum, over the levels, of the mean bias factor of the
    level: the plain mean when there is one level. *)
Theorem initial_bias_correction (n : Z)
    (input_dict : list (String.string * String.string)) (a : init_attrs)
    (o : obj) (bfs : list vec) :
  __init__ n input_dict = Some a ->
  (1 <= n)%Z ->
  bias_weights o = i_bias_weights a ->
  Forall (fun r => length r = Z.to_nat n) bfs ->
  length (i_bias_weights a) = Z.to_nat n /\
  NumPy.sum (i_bias_weights a) == 1 /\
  (bias_factors o = i_bias_factors a -> _bias_correction o = Some 1) /\
  (bias_factors o = Some bfs ->
   exists c, _bias_correction o = Some c /\
             c == NumPy.sum (map NumPy.mean bfs)).
Proof.
  intros Hinit Hn Hw Hrows. unfold __init__, NumPy.ones in Hinit.
  replace (n <? 0)%Z with false in Hinit by (symmetry; apply Z.ltb_ge; lia).
  cbn [bind] in Hinit. injection Hinit as <-.
  cbn [i_bias_weights i_bias_factors] in *.
  set (k := Z.to_nat n) in *.
  assert (Hk : inject_Z (Z.of_nat k) == inject_Z n)
    by (unfold k; rewrite Z2Nat.id by lia; reflexivity).
  assert (Hnne : ~ inject_Z n == 0).
  { intros Hz. assert (Hpos : 0 < inject_Z n)
      by (unfold Qlt; cbn [Qnum Qden inject_Z]; lia).
    rewrite Hz in Hpos. apply (Qlt_irrefl 0), Hpos. }
  assert (Hall : forall x, In x (NumPy.vdiv (repeat 1 k) (inject_Z n)) ->
                   x == 1 / inject_Z n).
  { intros x Hx. unfold NumPy.vdiv in Hx. apply in_map_iff in Hx.
    destruct Hx as (y & <- & Hy). apply repeat_spec in Hy. rewrite Hy.
    reflexivity. }
  assert (Hlen : length (NumPy.vdiv (repeat 1 k) (inject_Z n)) = k)
    by (unfold NumPy.vdiv; rewrite length_map, repeat_length; reflexivity).
  split; [exact Hlen|]. split; [|split].
  - rewrite (SmcWeightLaws.sum_all_eq _ (1 / inject_Z n) Hall), Hlen, Hk.
    field. exact Hnne.
  - intros Hnone. unfold _bias_correction. rewrite Hnone. reflexivity.
  - intros Hbf. unfold _bias_correction. rewrite Hbf, Hw.
    rewrite (SmcWeights.map_opt_total _
               (NumPy.map2 Qmult (NumPy.vdiv (repeat 1 k) (inject_Z n)))).
    + cbn [bind]. eexists. split; [reflexivity|].
      rewrite (map_map (NumPy.map2 Qmult
                          (NumPy.vdiv (repeat 1 k) (inject_Z n))) NumPy.sum).
      apply sum_map_pointwise. intros r Hr.
      rewrite Forall_forall in Hrows. specialize (Hrows r Hr).
      rewrite (weighted_sum_all_eq _ r (1 / inject_Z n))
        by (try (rewrite Hlen, Hrows; reflexivity); exact Hall).
      unfold NumPy.mean. rewrite Hrows. fold k. rewrite Hk.
      field. exact Hnne.
    + intros r Hr. unfold NumPy.bcast2.
      rewrite Forall_forall in Hrows. rewrite Hlen, (Hrows r Hr).
      fold k. rewrite Nat.eqb_refl. reflexivity.
Qed.

(** Two samples and the factors [2] and [3] on one level. *)
Lemma initial_bias_correction_witness :
  exists a c,
    __init__ 2 [("bias_file", "bias.mako")] = Some a /\
    i_bias_file a = Some "BIAS.MAKO" /\
    NumPy.sum (i_bias_weights a) == 1 /\
    _bias_correction (set_bias Examples.o_clip (Some [[2; 3]]) None) = Some c /\
    c == NumPy.sum (map NumPy.mean [[2; 3]]).
Proof.
  destruct (__init__ 2 [("bias_file", "bias.mako")]) as [a|] eqn:Ha;
    [|vm_compute in Ha; discriminate Ha].
  destruct (initial_bias_correction 2 [("bias_file", "bias.mako")] a
              (set_bias Examples.o_clip (Some [[2; 3]]) None) [[2; 3]] Ha)
    as (_ & Hsum & _ & Hc).
  - lia.
  - vm_compute in Ha. injection Ha as <-. reflexivity.
  - repeat constructor.
  - destruct (Hc eq_refl) as (c & Hc1 & Hc2).
    exists a, c. split; [reflexivity|]. split.
    + vm_compute in Ha. injection Ha as <-. reflexivity.
    + split; [exact Hsum|]. split; [exact Hc1 | exact Hc2].
Defined.

End BiasCorrection.

(** ** What [gradient] leaves in [ens_func_values] (lines 179-183) *)

Module GradientValues.
Import GaussianEnsemble.

Lemma set_nth_same {A} (i : nat) (x : A) (l : list A) :
  nth_error l i = Some x -> NumPy.set_nth i x l = l.
Proof.
  revert i. induction l as [|y l IH]; intros [|i] H; cbn in *;
    try discriminate H.
  - injection H as ->. reflexivity.
  - rewrite IH by exact H. reflexivity.
Qed.

(** X23.  With a bias file, [gradient] multiplies the stored objective
    values of every level by the bias correction, in place, so that what
    [hessian] reads afterwards are the scaled values; without a bias file
    the stored values are left as they were evaluated.  No other attribute
    is assigned by the estimator. *)
Theorem gradient_scales_stored_values (cfg : settings) (o : obj) (nr : nat)
    (g : vec) (o' : obj) :
  gradient_estimate cfg o nr = Some (g, o') ->
  o' = set_ens_func_values o (ens_func_values o') /\
  length (ens_func_values o') = length (ens_func_values o) /\
  match bias_file cfg with
  | Some _ =>
      forall c, _bias_correction o = Some c ->
        forall l, (l < length (ens_func_values o))%nat ->
          nth l (ens_func_values o') []
          = map (fun v => v * c) (nth l (ens_func_values o) [])
  | None => ens_func_values o' = ens_func_values o
  end.
Proof.
  intros H. unfold gradient_estimate in H.
  destruct (aug_state_ens (state o)) as [E|]; [|discriminate H].
  cbn [bind] in H.
  destruct (gradient_levels cfg o nr) as [s|] eqn:Hs; [|discriminate H].
  cbn [bind] in H.
  destruct (multilevel_combine _ _ _ cfg _ _ _ _) as [g0|]; [|discriminate H].
  cbn [bind] in H. injection H as _ <-.
  cbn [set_ens_func_values ens_func_values].
  split; [reflexivity|].
  unfold gradient_levels in Hs.
  destruct (aug_state_ens (state o)) as [E'|]; [|discriminate Hs].
  cbn [bind] in Hs.
  destruct (pert_state (ne o) E') as [P|]; [|discriminate Hs].
  cbn [bind] in Hs.
  set (Js := ens_func_values o) in *.
  set (Inv := fun (l : nat) (s : grad_loop) =>
       length (g_ens_func_values s) = length Js /\
       (forall m, (l <= m)%nat ->
          nth_error (g_ens_func_values s) m = nth_error Js m) /\
       match bias_file cfg with
       | Some _ =>
           forall c, _bias_correction o = Some c ->
             forall m, (m < l)%nat ->
               nth m (g_ens_func_values s) []
               = map (fun v => v * c) (nth m Js [])
       | None => g_ens_func_values s = Js
       end).
  assert (Hinv : Inv (length Js) s).
  { apply (for_each_range_inv _ Inv _ _ _ Hs); unfold Inv.
    - cbn [g_ens_func_values]. split; [reflexivity|].
      split; [reflexivity|].
      destruct (bias_file cfg); [intros c _ m Hm; lia | reflexivity].
    - intros l a a' Hl (Hlen & Hrest & Hdone) Hbody.
      unfold gradient_level in Hbody.
      pose proof (Hrest l (le_n l)) as HJ.
      rewrite (nth_error_nth_lt Js l []) in HJ by exact Hl.
      rewrite HJ in Hbody. cbn [bind] in Hbody.
      unfold pert_obj_func in Hbody.
      destruct (bias_file cfg) as [f|].
      + destruct (_bias_correction o) as [c0|] eqn:Ec; [|discriminate Hbody].
        cbn [bind] in Hbody.
        destruct (gradient_sum _ _ _ _ _ _) as [g_m|]; [|discriminate Hbody].
        cbn [bind] in Hbody. injection Hbody as <-.
        cbn [g_ens_func_values].
        split; [rewrite GradientEstimator.set_nth_length; exact Hlen|].
        split.
        * intros m Hm. rewrite GradientEstimator.nth_error_set_nth_ne by lia.
          apply Hrest. lia.
        * intros c Hc m Hm. injection Hc as <-.
          destruct (Nat.eq_dec m l) as [->|Hne].
          -- apply SmcLoop.nth_error_nth_some.
             apply GradientEstimator.nth_error_set_nth_eq. lia.
          -- assert (Hm' : (m < l)%nat) by lia.
             rewrite <- (Hdone c0 eq_refl m Hm').
             assert (Hget : nth_error
                              (NumPy.set_nth l
                                 (map (fun v => v * c0) (nth l Js []))
                                 (g_ens_func_values a)) m
                            = nth_error (g_ens_func_values a) m)
               by (apply GradientEstimator.nth_error_set_nth_ne; lia).
             destruct (nth_error (g_ens_func_values a) m) as [y|] eqn:Ey.
             ++ apply SmcLoop.nth_error_nth_some with (d := []) in Hget.
                apply SmcLoop.nth_error_nth_some with (d := []) in Ey.
                destruct Hget as [-> _]. destruct Ey as [-> _]. reflexivity.
             ++ apply nth_error_None in Ey. lia.
      + destruct (NumPy.bcast2 _ _ _) as [d|]; [|discriminate Hbody].
        cbn [bind] in Hbody.
        destruct (gradient_sum _ _ _ _ _ _) as [g_m|]; [|discriminate Hbody].
        cbn [bind] in Hbody. injection Hbody as <-.
        cbn [g_ens_func_values].
        rewrite set_nth_same by exact HJ.
        split; [exact Hlen|].
        split; [intros m Hm; apply Hrest; lia | exact Hdone]. }
  destruct Hinv as (Hlen & _ & Hdone). split; [exact Hlen | exact Hdone].
Qed.

(** The two-level run with a bias file and the bias factor [2] for every
    sample: the correction is [2]. *)
Lemma gradient_scales_stored_values_witness :
  exists g o' c,
    gradient_estimate Scenarios.cfg_bias Scenarios.o_bias 1 = Some (g, o') /\
    _bias_correction Scenarios.o_bias = Some c /\
    c == 2 /\
    nth 1 (ens_func_values o') []
    = map (fun v => v * c) (nth 1 (ens_func_values Scenarios.o_bias) []).
Proof.
  destruct (gradient_estimate Scenarios.cfg_bias Scenarios.o_bias 1)
    as [[g o']|] eqn:Hg; [|vm_compute in Hg; discriminate Hg].
  destruct (_bias_correction Scenarios.o_bias) as [c|] eqn:Hc;
    [|vm_compute in Hc; discriminate Hc].
  exists g, o', c. split; [reflexivity|]. split; [reflexivity|].
  split; [vm_compute in Hc; injection Hc as <-; reflexivity|].
  destruct (gradient_scales_stored_values _ _ _ _ _ Hg) as (_ & _ & Hv).
  cbn [bias_file Scenarios.cfg_bias] in Hv.
  apply (Hv c Hc). vm_compute. lia.
Defined.

End GradientValues.

(** ** The level sensitivity as a weighted mean of the particles *)

Module SmcHull.
Import GaussianEnsemble.

Lemma dot_between (r w : vec) (lo hi : Q) :
  length w = length r ->
  (forall x, In x w -> 0 <= x) ->
  (forall x, In x r -> lo <= x /\ x <= hi) ->
  lo * NumPy.sum w <= NumPy.dot r w /\ NumPy.dot r w <= hi * NumPy.sum w.
Proof.
  revert w. induction r as [|x r IH]; intros [|y w] Hlen Hw Hr;
    try discriminate Hlen.
  - unfold NumPy.dot, NumPy.sum. cbn. split; lra.
  - rewrite Controller.dot_cons, sum_cons.
    destruct (IH w) as [IHlo IHhi].
    { cbn [length] in Hlen. lia. }
    { intros z Hz. apply Hw. right. exact Hz. }
    { intros z Hz. apply Hr. right. exact Hz. }
    destruct (Hr x (or_introl eq_refl)) as [Hxlo Hxhi].
    pose proof (Hw y (or_introl eq_refl)) as Hy.
    assert (H1 : lo * y <= x * y) by (apply Qmult_le_compat_r; assumption).
    assert (H2 : x * y <= hi * y) by (apply Qmult_le_compat_r; assumption).
    split; lra.
Qed.

(** X24.  With [np.exp] non-negative, the sensitivity of a level,
    [particles @ weights], is a weighted mean of its particles: every
    component lies between the smallest and the largest value that
    component takes among the particles. *)
Theorem level_sens_within_particles (exp : Q -> Q) (infl : Q) (values : vec)
    (Pl : matrix) (n : nat) :
  (forall x, 0 <= exp x) ->
  length values = n ->
  (1 <= n)%nat ->
  Forall (fun r => length r = n) Pl ->
  exists w sens,
    smc_weights exp infl values (Z.of_nat n) = Some w /\
    NumPy.matmul_vec Pl w = Some sens /\
    length sens = length Pl /\
    forall k lo hi, (k < length Pl)%nat ->
      Forall (fun x => lo <= x /\ x <= hi) (nth k Pl []) ->
      lo <= nth k sens 0 /\ nth k sens 0 <= hi.
Proof.
  intros Hexp Hlen Hn HPl.
  destruct (SmcWeights.smc_weights_run exp infl values n Hlen Hn)
    as (m & _ & _ & _ & Hrun).
  set (raw := map (Invariants.raw_weight exp infl values m) (range n)) in *.
  assert (HS : 0 < NumPy.sum raw)
    by (apply SmcWeights.raw_sum_pos; assumption).
  assert (Hrawlen : length raw = n)
    by (unfold raw, range; rewrite length_map, length_seq; reflexivity).
  set (w := map (fun x => x / NumPy.sum raw) raw) in *.
  assert (Hwlen : length w = n) by (unfold w; rewrite length_map; exact Hrawlen).
  assert (Hwpos : forall x, In x w -> 0 <= x).
  { intros x Hx. unfold w in Hx. apply in_map_iff in Hx.
    destruct Hx as (y & <- & Hy). unfold raw in Hy. apply in_map_iff in Hy.
    destruct Hy as (i & <- & _).
    apply Qlt_le_weak, Qlt_shift_div_l; [exact HS|]. rewrite Qmult_0_l.
    apply SmcWeights.raw_weight_pos. exact Hexp. }
  assert (Hwsum : NumPy.sum w == 1).
  { unfold w. rewrite SmcWeights.sum_map_div. field. intros Hz.
    rewrite Hz in HS. exact (Qlt_irrefl 0 HS). }
  exists w. eexists. split; [exact Hrun|].
  unfold NumPy.matmul_vec.
  replace (forallb _ Pl) with true.
  2:{ symmetry. apply forallb_forall. intros r Hr. apply Nat.eqb_eq.
      rewrite Forall_forall in HPl. rewrite (HPl r Hr), Hwlen. reflexivity. }
  split; [reflexivity|]. unfold NumPy.matvec.
  split; [apply length_map|].
  intros k lo hi Hk Hrow.
  rewrite (nth_map_lt (A:=vec) _ Pl k [] 0) by exact Hk.
  assert (Hrk : length (nth k Pl []) = n).
  { rewrite Forall_forall in HPl. apply HPl, nth_In, Hk. }
  destruct (dot_between (nth k Pl []) w lo hi) as [Hlo Hhi].
  - rewrite Hwlen, Hrk. reflexivity.
  - exact Hwpos.
  - rewrite Forall_forall in Hrow. exact Hrow.
  - rewrite Hwsum in Hlo, Hhi. split; lra.
Qed.

(** Three particles [3], [6], [9] with the values [3], [1], [2]. *)
Lemma level_sens_within_particles_witness :
  exists w sens,
    smc_weights Examples.exp_tangent 1 [3; 1; 2] 3 = Some w /\
    NumPy.matmul_vec [[3; 6; 9]] w = Some sens /\
    3 <= nth 0 sens 0 /\ nth 0 sens 0 <= 9.
Proof.
  destruct (level_sens_within_particles Examples.exp_tangent 1 [3; 1; 2]
              [[3; 6; 9]] 3)
    as (w & sens & Hw & Hs & _ & Hb).
  - exact SmcWeights.exp_tangent_nonneg.
  - reflexivity.
  - lia.
  - repeat constructor.
  - exists w, sens. split; [exact Hw|]. split; [exact Hs|].
    apply (Hb 0%nat 3 9); [simpl; lia|].
    repeat constructor; discriminate.
Defined.

End SmcHull.
